(** * Trace cursor and stepping engine of the silverscript web debugger

    A shallow embedding of the cursor, synchronizer, stepper and decoration
    deriver of [sil-debug-web/web/src/app.ts], followed by the properties
    the specification states about them.

    Conventions of the embedding:
    - JavaScript numbers that hold indices, program counters, call depths,
      frame ids and line numbers are integers of [Z];
    - a field that the code reads defensively ([x != null], [x || 0]) is an
      [option];
    - [arr[i]] is [js_get arr i], which is [None] (JavaScript's [undefined])
      outside [0 .. length-1];
    - functions that mutate [state] take the state and return the new one;
    - only the fields the cursor reads are kept in [Step] (stacks, variables
      and the call-stack labels are rendering data). *)

From Stdlib Require Import ZArith Lia Bool String.
From Stdlib Require Import Ascii Decimal DecimalString DecimalN.
From stdpp Require Import base list gmap.

Local Open Scope Z_scope.

(** ** Helpers of the source file *)

(** [function clamp(n, lo, hi) { return Math.max(lo, Math.min(hi, n)); }] *)
Definition clamp (n lo hi : Z) : Z := Z.max lo (Z.min hi n).

(** [arr.length] as an integer. *)
Definition len {A : Type} (l : list A) : Z := Z.of_nat (length l).

(** [arr[i]]: [undefined] outside the array. *)
Definition js_get {A : Type} (l : list A) (i : Z) : option A :=
  if i <? 0 then None else l !! Z.to_nat i.

(** Truthiness of a number: every integer but [0]. *)
Definition truthy (z : Z) : bool := negb (z =? 0).

(** [Number(x || d)] for an optional numeric field [x]. *)
Definition num_or (x : option Z) (d : Z) : Z :=
  match x with
  | Some v => if truthy v then v else d
  | None => d
  end.

(** ** Data model *)

Record Span := mkSpan {
  line : Z;
  end_line : option Z;
  col : Z
}.

Record Mapping := mkMapping {
  span : option Span;
  mapping_frame_id : option Z;
  mapping_call_depth : option Z
}.

Record Step := mkStep {
  pc : option Z;
  call_depth : option Z;
  frame_id : option Z;
  is_executing : bool;
  error : option string;
  mapping : option Mapping
}.

(** A field of the trace is [None] when it is not an array. *)
Record Trace := mkTrace {
  opcode_steps : option (list Step);
  source_steps : option (list Step);
  steps : option (list Step)
}.

Inductive Mode := SourceMode | OpcodeMode.

Inductive TintKind := Pass | Fail.

Record FrameSpan := mkFrameSpan {
  startLine : Z;
  endLine : Z
}.

(** [state.dbg]; [activeLine] stands for the three [--active-line-*] style
    properties of the editor (the highlighted line, if any). *)
Record Dbg := mkDbg {
  mode : Mode;
  sourceStep : Z;
  opcodeStep : Z;
  breakpoints : gset Z;
  fnTintSpan : option FrameSpan;
  fnTintKind : option TintKind;
  activeLine : option Z
}.

Record State := mkState {
  trace : option Trace;
  dbg : Dbg
}.

#[global] Instance Mode_eq_dec : EqDecision Mode.
Proof. solve_decision. Defined.

Definition set_dbg (d : Dbg) (st : State) : State :=
  {| trace := trace st; dbg := d |}.

Definition set_trace (t : option Trace) (st : State) : State :=
  {| trace := t; dbg := dbg st |}.

Definition set_mode (m : Mode) (st : State) : State :=
  set_dbg {| mode := m; sourceStep := sourceStep (dbg st);
             opcodeStep := opcodeStep (dbg st);
             breakpoints := breakpoints (dbg st);
             fnTintSpan := fnTintSpan (dbg st);
             fnTintKind := fnTintKind (dbg st);
             activeLine := activeLine (dbg st) |} st.

Definition set_sourceStep (i : Z) (st : State) : State :=
  set_dbg {| mode := mode (dbg st); sourceStep := i;
             opcodeStep := opcodeStep (dbg st);
             breakpoints := breakpoints (dbg st);
             fnTintSpan := fnTintSpan (dbg st);
             fnTintKind := fnTintKind (dbg st);
             activeLine := activeLine (dbg st) |} st.

Definition set_opcodeStep (i : Z) (st : State) : State :=
  set_dbg {| mode := mode (dbg st); sourceStep := sourceStep (dbg st);
             opcodeStep := i;
             breakpoints := breakpoints (dbg st);
             fnTintSpan := fnTintSpan (dbg st);
             fnTintKind := fnTintKind (dbg st);
             activeLine := activeLine (dbg st) |} st.

Definition set_breakpoints (b : gset Z) (st : State) : State :=
  set_dbg {| mode := mode (dbg st); sourceStep := sourceStep (dbg st);
             opcodeStep := opcodeStep (dbg st);
             breakpoints := b;
             fnTintSpan := fnTintSpan (dbg st);
             fnTintKind := fnTintKind (dbg st);
             activeLine := activeLine (dbg st) |} st.

Definition set_decorations (l : option Z) (sp : option FrameSpan)
    (k : option TintKind) (st : State) : State :=
  set_dbg {| mode := mode (dbg st); sourceStep := sourceStep (dbg st);
             opcodeStep := opcodeStep (dbg st);
             breakpoints := breakpoints (dbg st);
             fnTintSpan := sp;
             fnTintKind := k;
             activeLine := l |} st.

(** The cursor proper: what the stepping commands own. *)
Definition cursor (st : State) : Mode * Z * Z * gset Z :=
  (mode (dbg st), sourceStep (dbg st), opcodeStep (dbg st),
   breakpoints (dbg st)).

(** ** Accessors *)

(** [function mappingLine(mapping)] *)
Definition mappingLine (m : option Mapping) : option Z :=
  match m with
  | Some mp => match span mp with Some sp => Some (line sp) | None => None end
  | None => None
  end.

(** [function getOpcodeSteps(trace)] *)
Definition getOpcodeSteps (tr : option Trace) : list Step :=
  match tr with
  | None => []
  | Some t =>
      match opcode_steps t with
      | Some (s :: l) => s :: l
      | _ => match steps t with Some l => l | None => [] end
      end
  end.

(** [function getSourceSteps(trace)] *)
Definition getSourceSteps (tr : option Trace) : list Step :=
  match tr with
  | None => []
  | Some t =>
      match source_steps t with
      | Some (s :: l) => s :: l
      | _ => match steps t with Some l => l | None => [] end
      end
  end.

(** [function getActiveSteps(state)] *)
Definition getActiveSteps (st : State) : list Step :=
  match trace st with
  | None => []
  | Some t =>
      match mode (dbg st) with
      | OpcodeMode => getOpcodeSteps (Some t)
      | SourceMode => getSourceSteps (Some t)
      end
  end.

(** [function frameIdFromStep(step)] *)
Definition frameIdFromStep (step : option Step) : option Z :=
  match step with
  | None => None
  | Some s =>
      match frame_id s with
      | Some f => Some f
      | None =>
          match mapping s with
          | Some mp => mapping_frame_id mp
          | None => None
          end
      end
  end.

(** [function stepDepth(step)] *)
Definition stepDepth (step : option Step) : Z :=
  match step with
  | None => 0
  | Some s =>
      match call_depth s with
      | Some d => d
      | None =>
          match mapping s with
          | Some mp => match mapping_call_depth mp with Some d => d | None => 0 end
          | None => 0
          end
      end
  end.

(** [Number(step.pc || 0)] *)
Definition stepPc (s : Step) : Z := num_or (pc s) 0.

(** ** Cursor *)

(** [function getActiveStepIndex(state, steps)] *)
Definition getActiveStepIndex (st : State) (stps : list Step) : Z :=
  let max := Z.max 0 (len stps - 1) in
  match mode (dbg st) with
  | OpcodeMode => clamp (opcodeStep (dbg st)) 0 max
  | SourceMode => clamp (sourceStep (dbg st)) 0 max
  end.

(** [function setActiveStepIndex(state, idx)] *)
Definition setActiveStepIndex (st : State) (idx : Z) : State :=
  match mode (dbg st) with
  | OpcodeMode => set_opcodeStep idx st
  | SourceMode => set_sourceStep idx st
  end.

(** [function activeSnapshot(state)]: the step under the cursor and the
    state with the clamped index written back. *)
Definition activeSnapshot (st : State) : option Step * State :=
  let stps := getActiveSteps st in
  if len stps =? 0 then (None, st)
  else
    let idx := getActiveStepIndex st stps in
    let st' := setActiveStepIndex st idx in
    (js_get stps idx, st').

(** ** Synchronizer *)

(** The loop of [sourceIndexFromOpcodeIndex]: [rest] is what remains of
    [sourceSteps] from index [i] on. *)
Fixpoint best_loop (rest : list Step) (targetPc i best : Z) : Z :=
  match rest with
  | [] => best
  | s :: rest' =>
      if stepPc s >? targetPc then best
      else best_loop rest' targetPc (i + 1) i
  end.

(** [function sourceIndexFromOpcodeIndex(state, opcodeIndex)] *)
Definition sourceIndexFromOpcodeIndex (st : State) (opcodeIndex : Z) : Z :=
  match trace st with
  | None => 0
  | Some t =>
      let opcodeSteps := getOpcodeSteps (Some t) in
      let sourceSteps := getSourceSteps (Some t) in
      if len sourceSteps =? 0 then 0
      else
        let opSnap :=
          js_get opcodeSteps
            (clamp opcodeIndex 0 (Z.max 0 (len opcodeSteps - 1))) in
        let targetPc :=
          match opSnap with Some o => stepPc o | None => 0 end in
        best_loop sourceSteps targetPc 0 0
  end.

(** [function syncOpcodeFromSource(state)] *)
Definition syncOpcodeFromSource (st : State) : State :=
  match trace st with
  | None => st
  | Some t =>
      let opcodeSteps := getOpcodeSteps (Some t) in
      let sourceSteps := getSourceSteps (Some t) in
      if (len opcodeSteps =? 0) || (len sourceSteps =? 0) then st
      else
        let srcIdx := clamp (sourceStep (dbg st)) 0 (len sourceSteps - 1) in
        let pcv :=
          match js_get sourceSteps srcIdx with
          | Some snap => match pc snap with Some p => p | None => 0 end
          | None => 0
          end in
        set_opcodeStep (clamp pcv 0 (len opcodeSteps - 1)) st
  end.

(** [function syncSourceFromOpcode(state)] *)
Definition syncSourceFromOpcode (st : State) : State :=
  match trace st with
  | None => st
  | Some t =>
      let sourceSteps := getSourceSteps (Some t) in
      if len sourceSteps =? 0 then st
      else
        set_sourceStep
          (sourceIndexFromOpcodeIndex st (opcodeStep (dbg st))) st
  end.

(** ** Stepper *)

(** [for (let i = start; i < stop; i++) if (p(i)) return i;] with
    [fuel = stop - start] iterations left: the index found, if any. *)
Fixpoint find_from (p : Z -> bool) (fuel : nat) (i : Z) : option Z :=
  match fuel with
  | O => None
  | S fuel' => if p i then Some i else find_from p fuel' (i + 1)
  end.

(** [function sourceStepIntoIndex(steps, idx)] *)
Definition sourceStepIntoIndex (stps : list Step) (idx : Z) : Z :=
  clamp (idx + 1) 0 (Z.max 0 (len stps - 1)).

(** [function sourceStepOverIndex(steps, idx)] *)
Definition sourceStepOverIndex (stps : list Step) (idx : Z) : Z :=
  let currentDepth := stepDepth (js_get stps idx) in
  match find_from (fun i => stepDepth (js_get stps i) <=? currentDepth)
          (Z.to_nat (len stps - (idx + 1))) (idx + 1) with
  | Some i => i
  | None => Z.max 0 (len stps - 1)
  end.

(** [function sourceStepOutIndex(steps, idx)] *)
Definition sourceStepOutIndex (stps : list Step) (idx : Z) : Z :=
  let currentDepth := stepDepth (js_get stps idx) in
  match find_from (fun i => stepDepth (js_get stps i) <? currentDepth)
          (Z.to_nat (len stps - (idx + 1))) (idx + 1) with
  | Some i => i
  | None => Z.max 0 (len stps - 1)
  end.

(** [function resetDbgCursor(state)] *)
Definition resetDbgCursor (st : State) : State :=
  match trace st with
  | None => st
  | Some t =>
      let sourceSteps := getSourceSteps (Some t) in
      let opcodeSteps := getOpcodeSteps (Some t) in
      let st1 := set_sourceStep 0 st in
      let st2 := set_opcodeStep 0 st1 in
      let st3 :=
        set_mode (if len sourceSteps =? 0 then OpcodeMode else SourceMode)
          st2 in
      if negb (len sourceSteps =? 0) && negb (len opcodeSteps =? 0)
      then syncOpcodeFromSource st3
      else st3
  end.

(** The source-granularity commands share one shape and differ in the
    search they run. *)
Definition stepSourceWith (next : list Step -> Z -> Z) (st : State) : State :=
  match trace st with
  | None => st
  | Some t =>
      let sourceSteps := getSourceSteps (Some t) in
      if len sourceSteps =? 0 then st
      else
        let st1 :=
          match mode (dbg st) with
          | OpcodeMode => syncSourceFromOpcode st
          | SourceMode => st
          end in
        let st2 := set_mode SourceMode st1 in
        let idx := clamp (sourceStep (dbg st2)) 0 (len sourceSteps - 1) in
        let st3 := set_sourceStep (next sourceSteps idx) st2 in
        syncOpcodeFromSource st3
  end.

(** [function stepIntoSource(state)] *)
Definition stepIntoSource : State -> State := stepSourceWith sourceStepIntoIndex.

(** [function stepOverSource(state)] *)
Definition stepOverSource : State -> State := stepSourceWith sourceStepOverIndex.

(** [function stepOutSource(state)] *)
Definition stepOutSource : State -> State := stepSourceWith sourceStepOutIndex.

(** [function stepOpcode(state, delta)] *)
Definition stepOpcode (st : State) (delta : Z) : State :=
  match trace st with
  | None => st
  | Some t =>
      let opcodeSteps := getOpcodeSteps (Some t) in
      if len opcodeSteps =? 0 then st
      else
        let st1 :=
          match mode (dbg st) with
          | OpcodeMode => st
          | SourceMode => syncOpcodeFromSource st
          end in
        let st2 := set_mode OpcodeMode st1 in
        let idx :=
          clamp (opcodeStep (dbg st2) + delta) 0 (len opcodeSteps - 1) in
        let st3 := set_opcodeStep idx st2 in
        syncSourceFromOpcode st3
  end.

(** The test of the loop body of [continueToBreakpoint] at index [k]. *)
Definition breakpointHit (bps : gset Z) (sourceSteps : list Step) (k : Z)
    : bool :=
  match js_get sourceSteps k with
  | None => false
  | Some s =>
      if negb (is_executing s) then false
      else
        match mappingLine (mapping s) with
        | Some l => truthy l && bool_decide (l ∈ bps)
        | None => false
        end
  end.

(** [function continueToBreakpoint(state)]: the index returned and the
    state, which the call resynchronizes when it is in opcode mode. *)
Definition continueToBreakpoint (st : State) : Z * State :=
  match trace st with
  | None => (0, st)
  | Some t =>
      let sourceSteps := getSourceSteps (Some t) in
      if len sourceSteps =? 0 then (0, st)
      else
        let st1 :=
          match mode (dbg st) with
          | OpcodeMode => syncSourceFromOpcode st
          | SourceMode => st
          end in
        let start := clamp (sourceStep (dbg st1)) 0 (len sourceSteps - 1) in
        let last := len sourceSteps - 1 in
        if bool_decide (breakpoints (dbg st1) = ∅) then (last, st1)
        else
          match find_from (breakpointHit (breakpoints (dbg st1)) sourceSteps)
                  (Z.to_nat (len sourceSteps - (start + 1))) (start + 1) with
          | Some k => (k, st1)
          | None => (last, st1)
          end
  end.

(** [function continueExecution(state)] *)
Definition continueExecution (st : State) : State :=
  match trace st with
  | None => st
  | Some t =>
      let sourceSteps := getSourceSteps (Some t) in
      if negb (len sourceSteps =? 0) then
        let st1 := set_mode SourceMode st in
        let '(k, st2) := continueToBreakpoint st1 in
        let st3 := set_sourceStep k st2 in
        syncOpcodeFromSource st3
      else
        let opcodeSteps := getOpcodeSteps (Some t) in
        let st1 := set_mode OpcodeMode st in
        set_opcodeStep (Z.max 0 (len opcodeSteps - 1)) st1
  end.

(** The commands the toolbar buttons and keys dispatch. *)
Inductive Command :=
  | CmdStepInto
  | CmdStepOver
  | CmdStepOut
  | CmdOpcodeStep (delta : Z)
  | CmdContinue.

Definition run (c : Command) (st : State) : State :=
  match c with
  | CmdStepInto => stepIntoSource st
  | CmdStepOver => stepOverSource st
  | CmdStepOut => stepOutSource st
  | CmdOpcodeStep delta => stepOpcode st delta
  | CmdContinue => continueExecution st
  end.

Definition isOpcodeCommand (c : Command) : bool :=
  match c with CmdOpcodeStep _ => true | _ => false end.

(** The click handler of the editor gutter: toggle the breakpoint of a
    line; line [0] (no [data-line]) is ignored. *)
Definition toggleBreakpoint (ln : Z) (st : State) : State :=
  if negb (truthy ln) then st
  else if bool_decide (ln ∈ breakpoints (dbg st))
       then set_breakpoints (breakpoints (dbg st) ∖ {[ ln ]}) st
       else set_breakpoints ({[ ln ]} ∪ breakpoints (dbg st)) st.

(** ** Decoration deriver *)

(** One iteration of the loop of [frameSpanForFrame] over
    [(startLine, endLine)]. *)
Definition frameSpanStep (target : Z) (acc : Z * Z) (step : Step) : Z * Z :=
  match mapping step with
  | None => acc
  | Some mp =>
      match span mp with
      | None => acc
      | Some sp =>
          if negb (bool_decide (frameIdFromStep (Some step) = Some target))
          then acc
          else
            let ln := num_or (Some (line sp)) 0 in
            let en := num_or (end_line sp) ln in
            if negb (truthy ln) then acc
            else
              (if negb (truthy (fst acc)) || (ln <? fst acc)
               then ln else fst acc,
               if negb (truthy (snd acc)) || (en >? snd acc)
               then en else snd acc)
      end
  end.

(** [function frameSpanForFrame(steps, frameId)] *)
Definition frameSpanForFrame (stps : list Step) (frameId : option Z)
    : option FrameSpan :=
  match frameId with
  | None => None
  | Some target =>
      let acc := fold_left (frameSpanStep target) stps (0, 0) in
      if negb (truthy (fst acc)) || negb (truthy (snd acc)) then None
      else Some {| startLine := fst acc; endLine := snd acc |}
  end.

(** [function updateEditorDecorations(state, snap, fnTintKind)], with the
    editor element present; pixel offsets are left to the renderer. *)
Definition updateEditorDecorations (st : State) (snap : option Step)
    (kind : option TintKind) : State :=
  let st0 := set_decorations None None None st in
  match snap with
  | None => st0
  | Some s =>
      let hl :=
        match mappingLine (mapping s) with
        | Some l => if truthy l then Some l else None
        | None => None
        end in
      let st1 := set_decorations hl None None st0 in
      match kind, trace st with
      | Some k, Some t =>
          let targetFrameId :=
            match k with
            | Pass => Some 0
            | Fail => frameIdFromStep (Some s)
            end in
          match frameSpanForFrame (getSourceSteps (Some t)) targetFrameId with
          | None => st1
          | Some sp => set_decorations hl (Some sp) (Some k) st1
          end
      | _, _ => st1
      end
  end.

(** What [renderEditorGutter] and [scrollEditorToActive] do to the state:
    the write-back of [activeSnapshot]. *)
Definition renderEditorGutter (st : State) : State := snd (activeSnapshot st).

Definition scrollEditorToActive (st : State) : State := snd (activeSnapshot st).

(** [snap.error ? String(snap.error) : null] is truthy for a non-empty
    message. *)
Definition hasError (s : Step) : bool :=
  match error s with
  | Some EmptyString => false
  | Some _ => true
  | None => false
  end.

(** [function renderDbg(state)], its effects on the state. *)
Definition renderDbg (st : State) : State :=
  match trace st with
  | None => updateEditorDecorations st None None
  | Some t =>
      let sourceSteps := getSourceSteps (Some t) in
      let opcodeSteps := getOpcodeSteps (Some t) in
      let st1 :=
        if bool_decide (mode (dbg st) = SourceMode) && (len sourceSteps =? 0)
        then set_mode OpcodeMode st else st in
      let st2 :=
        if bool_decide (mode (dbg st1) = OpcodeMode) && (len opcodeSteps =? 0)
        then set_mode (if len sourceSteps =? 0 then OpcodeMode else SourceMode)
               st1
        else st1 in
      let stps := getActiveSteps st2 in
      if len stps =? 0 then updateEditorDecorations st2 None None
      else
        let step := getActiveStepIndex st2 stps in
        let st3 := setActiveStepIndex st2 step in
        match js_get stps step with
        | None => st3
        | Some snap =>
            let isLast := step =? len stps - 1 in
            let kind :=
              if hasError snap then Some Fail
              else if negb (is_executing snap) || isLast then Some Pass
              else None in
            let st4 := updateEditorDecorations st3 (Some snap) kind in
            let st5 := renderEditorGutter st4 in
            scrollEditorToActive st5
        end
  end.

(** The success path of [runTrace] once the trace has arrived: install it,
    reset the cursor and render. *)
Definition runTrace_loaded (st : State) (t : Trace) : State :=
  let st1 := set_trace (Some t) st in
  let st2 := renderEditorGutter st1 in
  let st3 := resetDbgCursor st2 in
  let st4 := renderDbg st3 in
  scrollEditorToActive st4.

(** ** Properties named by the specification *)

(** The data-model invariant: program counters do not decrease along a
    sequence. *)
Definition pcs_nondecreasing (l : list Step) : Prop :=
  ∀ (i j : nat) (a b : Step),
    (i ≤ j)%nat → l !! i = Some a → l !! j = Some b → stepPc a ≤ stepPc b.

(** The same, as a test on neighbours. *)
Fixpoint pcs_nondecreasingb (l : list Step) : bool :=
  match l with
  | [] => true
  | a :: rest =>
      match rest with
      | [] => true
      | b :: _ => (stepPc a <=? stepPc b) && pcs_nondecreasingb rest
      end
  end.

(** [r] is the index of the last step of [l] whose pc is at most
    [target]. *)
Definition last_pc_le (l : list Step) (target r : Z) : Prop :=
  ∃ s, js_get l r = Some s ∧ stepPc s ≤ target ∧
       ∀ j s', r < j → js_get l j = Some s' → target < stepPc s'.

(** Some step of [l] has a pc at most [target]. *)
Definition some_pc_le (l : list Step) (target : Z) : Prop :=
  ∃ j s, js_get l j = Some s ∧ stepPc s ≤ target.

(** Opcode index and opcode pc coincide. *)
Definition pc_is_index (l : list Step) : Prop :=
  ∀ k o, js_get l k = Some o → stepPc o = k.

(** Step [k] of [l] is executing and its mapped line is a breakpoint. *)
Definition at_breakpoint (bps : gset Z) (l : list Step) (k : Z) : Prop :=
  ∃ s ln, js_get l k = Some s ∧ is_executing s = true ∧
          mappingLine (mapping s) = Some ln ∧ ln ∈ bps.

(** Step [s] carries frame id [target] and the span [ln .. en]. *)
Definition carries_span (target : Z) (s : Step) (ln en : Z) : Prop :=
  ∃ mp sp, mapping s = Some mp ∧ span mp = Some sp ∧
           frameIdFromStep (Some s) = Some target ∧
           ln = line sp ∧ en = num_or (end_line sp) (line sp).

(** Line numbers are 1-based: no span of [l] sits on line [0]. *)
Definition lines_one_based (l : list Step) : Prop :=
  ∀ s mp sp, s ∈ l → mapping s = Some mp → span mp = Some sp → line sp ≠ 0.

(** [stepDepth(steps[i])] *)
Definition depthAt (stps : list Step) (i : Z) : Z := stepDepth (js_get stps i).

(** The search from [start + 1] up to [n], with the fallback [n - 1]. *)
Definition search_or_last (p : Z → bool) (n start : Z) : Z :=
  match find_from p (Z.to_nat (n - (start + 1))) (start + 1) with
  | Some i => i
  | None => Z.max 0 (n - 1)
  end.

(** The interval [a .. b] covers the span of every step of [l] that
    carries frame id [f]. *)
Definition covers_spans (f : Z) (l : list Step) (a b : Z) : Prop :=
  ∀ s ln en, s ∈ l → carries_span f s ln en → a ≤ ln ∧ en ≤ b.

(** The index the cursor stores for its mode. *)
Definition storedActiveIndex (st : State) : Z :=
  match mode (dbg st) with
  | OpcodeMode => opcodeStep (dbg st)
  | SourceMode => sourceStep (dbg st)
  end.

(** The cursor [st'] that installing trace [t] over state [st] leaves:
    source index [0]; opcode index the clamped pc of the first source step
    when both sequences have steps and [0] otherwise; source mode exactly
    when there are source steps; the breakpoints of [st]. *)
Definition installed (st : State) (t : Trace) (st' : State) : Prop :=
  trace st' = Some t ∧
  sourceStep (dbg st') = 0 ∧
  (getSourceSteps (Some t) = [] ∨ getOpcodeSteps (Some t) = [] →
     opcodeStep (dbg st') = 0) ∧
  (∀ s, getOpcodeSteps (Some t) ≠ [] →
        js_get (getSourceSteps (Some t)) 0 = Some s →
        opcodeStep (dbg st')
          = clamp (stepPc s) 0 (len (getOpcodeSteps (Some t)) - 1)) ∧
  (getSourceSteps (Some t) ≠ [] → mode (dbg st') = SourceMode) ∧
  (getSourceSteps (Some t) = [] → mode (dbg st') = OpcodeMode) ∧
  breakpoints (dbg st') = breakpoints (dbg st).

(** ** Example traces *)

(** A step at program counter [p] and call depth [d], executing, in frame
    [f], mapped to line [ln]. *)
Definition stepAt (p d f ln : Z) : Step :=
  {| pc := Some p; call_depth := Some d; frame_id := Some f;
     is_executing := true; error := None;
     mapping := Some {| span := Some {| line := ln; end_line := None;
                                        col := 1 |};
                        mapping_frame_id := None;
                        mapping_call_depth := None |} |}.

(** An opcode step at program counter [p], without a mapping. *)
Definition opAt (p : Z) : Step :=
  {| pc := Some p; call_depth := None; frame_id := None;
     is_executing := true; error := None; mapping := None |}.

(** Five source steps at call depths [0, 1, 1, 2, 0]. *)
Definition depth_steps : list Step :=
  [stepAt 0 0 0 1; stepAt 2 1 1 5; stepAt 4 1 1 6; stepAt 6 2 2 9;
   stepAt 8 0 0 2].

(** Ten opcode steps with [pc = index] and three source steps at
    [pc = 0, 4, 8]. *)
Definition scenario_trace : Trace :=
  {| opcode_steps := Some (map opAt [0; 1; 2; 3; 4; 5; 6; 7; 8; 9]);
     source_steps := Some [stepAt 0 0 0 1; stepAt 4 0 0 2; stepAt 8 0 0 3];
     steps := None |}.

(** Three opcode steps with [pc = index] and one source step, which starts
    at [pc = 2]. *)
Definition late_trace : Trace :=
  {| opcode_steps := Some (map opAt [0; 1; 2]);
     source_steps := Some [stepAt 2 0 0 1];
     steps := None |}.

(** A trace without steps. *)
Definition empty_trace : Trace :=
  {| opcode_steps := Some []; source_steps := Some []; steps := None |}.

(** Opcode steps only. *)
Definition opcode_only_trace : Trace :=
  {| opcode_steps := Some (map opAt [0; 1; 2]);
     source_steps := Some [];
     steps := None |}.

(** [state.dbg] as [main] creates it. *)
Definition initial_dbg : Dbg :=
  {| mode := SourceMode; sourceStep := 0; opcodeStep := 0;
     breakpoints := ∅; fnTintSpan := None; fnTintKind := None;
     activeLine := None |}.

Definition initial_state : State := {| trace := None; dbg := initial_dbg |}.

(** The scenario trace under a cursor at the first source step, with a
    breakpoint on line 3. *)
Definition breakpoint_state : State :=
  {| trace := Some scenario_trace;
     dbg := {| mode := SourceMode; sourceStep := 0; opcodeStep := 0;
               breakpoints := {[ 3 ]}; fnTintSpan := None;
               fnTintKind := None; activeLine := None |} |}.

(** The late trace with the opcode cursor on index 1. *)
Definition late_state : State :=
  {| trace := Some late_trace;
     dbg := {| mode := OpcodeMode; sourceStep := 0; opcodeStep := 1;
               breakpoints := ∅; fnTintSpan := None;
               fnTintKind := None; activeLine := None |} |}.

(** Five opcode steps with [pc = index] and one source step at [pc = 3]. *)
Definition prologue_trace : Trace :=
  {| opcode_steps := Some (map opAt [0; 1; 2; 3; 4]);
     source_steps := Some [stepAt 3 0 0 1];
     steps := None |}.

(** The empty trace under the cursor [main] starts with. *)
Definition idle_state : State :=
  {| trace := Some empty_trace; dbg := initial_dbg |}.

(** The five steps at depths [0, 1, 1, 2, 0] as source steps, in frames
    [0, 1, 1, 2, 0] on lines [1, 5, 6, 9, 2]. *)
Definition frames_trace : Trace :=
  {| opcode_steps := Some (map opAt [0; 1; 2; 3; 4; 5; 6; 7; 8]);
     source_steps := Some depth_steps;
     steps := None |}.

(** ** Handlers around the commands *)

(** What a toolbar button or key does once a trace is loaded: the command,
    then [renderDbg]. *)
Definition commandAndRender (c : Command) (st : State) : State :=
  renderDbg (run c st).

(** A session of button presses, in order. *)
Definition runAll (cs : list Command) (st : State) : State :=
  fold_left (fun s c => commandAndRender c s) cs st.

(** The click handler of the Restart button. *)
Definition restartClick (st : State) : State :=
  match trace st with
  | None => st
  | Some _ =>
      let st1 := resetDbgCursor st in
      let st2 := renderDbg st1 in
      scrollEditorToActive st2
  end.

(** The click handler of an opcode row, which [renderDbgOps] installs when
    the trace has opcode steps: jump the opcode cursor to the row. *)
Definition opRowClick (st : State) (idx : Z) : State :=
  let opcodeSteps := getOpcodeSteps (trace st) in
  let st1 := set_mode OpcodeMode st in
  let st2 := set_opcodeStep (clamp idx 0 (len opcodeSteps - 1)) st1 in
  let st3 := syncSourceFromOpcode st2 in
  let st4 := renderDbg st3 in
  scrollEditorToActive st4.

(** The mode [renderDbg] settles on before it resolves the active step. *)
Definition settledMode (m : Mode) (sourceSteps opcodeSteps : list Step)
    : Mode :=
  let m1 :=
    if bool_decide (m = SourceMode) && (len sourceSteps =? 0)
    then OpcodeMode else m in
  if bool_decide (m1 = OpcodeMode) && (len opcodeSteps =? 0)
  then (if len sourceSteps =? 0 then OpcodeMode else SourceMode)
  else m1.

(** The tint kind [renderDbg] passes on for the step [snap] at index
    [step] of [len] steps. *)
Definition tintKindFor (snap : Step) (step n : Z) : option TintKind :=
  if hasError snap then Some Fail
  else if negb (is_executing snap) || (step =? n - 1) then Some Pass
  else None.


(** The state [renderDbg] works on once it has settled the mode. *)
Definition withSettledMode (st : State) : State :=
  set_mode (settledMode (mode (dbg st)) (getSourceSteps (trace st))
              (getOpcodeSteps (trace st))) st.

(** The cursor after [renderDbg] on a trace with steps: the settled mode
    and the clamped active index. *)
Definition clampedCursor (st : State) : State :=
  setActiveStepIndex (withSettledMode st)
    (getActiveStepIndex (withSettledMode st)
       (getActiveSteps (withSettledMode st))).


(** ** Text helpers and the key wallet

    A JavaScript string is a [string]; its characters are compared one by
    one, as the code does. *)

(** [s.replaceAll(c, r)] for a pattern [c] of one character and a
    replacement [r] without [$]. *)
Fixpoint replaceAll (s : string) (c : ascii) (r : string) : string :=
  match s with
  | EmptyString => EmptyString
  | String a rest =>
      if Ascii.eqb a c then (r ++ replaceAll rest c r)%string
      else String a (replaceAll rest c r)
  end.

(** [function escapeHtml(s)]; ["034"] is the double quote. *)
Definition escapeHtml (s : string) : string :=
  replaceAll
    (replaceAll
       (replaceAll
          (replaceAll (replaceAll s "&" "&amp;") "<" "&lt;")
          ">" "&gt;")
       "034" "&quot;")
    "'" "&#39;".

(** What [escapeHtml] makes of one character. *)
Definition escapeChar (c : ascii) : string :=
  if Ascii.eqb c "&" then "&amp;"
  else if Ascii.eqb c "<" then "&lt;"
  else if Ascii.eqb c ">" then "&gt;"
  else if Ascii.eqb c "034" then "&quot;"
  else if Ascii.eqb c "'" then "&#39;"
  else String c EmptyString.

(** The five characters [escapeHtml] rewrites. *)
Definition isHtmlSpecial (c : ascii) : bool :=
  Ascii.eqb c "&" || Ascii.eqb c "<" || Ascii.eqb c ">"
  || Ascii.eqb c "034" || Ascii.eqb c "'".

(** Character [c] occurs in [s]. *)
Fixpoint occurs (c : ascii) (s : string) : bool :=
  match s with
  | EmptyString => false
  | String a rest => Ascii.eqb a c || occurs c rest
  end.

(** An entry of the key wallet. *)
Record KeyPair := mkKeyPair {
  name : string;
  pubkey : string;
  sig : string;
  pkh : string
}.

(** [String(k.name).match(/^key(\d+)$/)] and [Number(m[1])]: the number of
    a name of the form [key] followed by decimal digits. *)
Definition keyNumber (nm : string) : option N :=
  match nm with
  | String "k" (String "e" (String "y" digits)) =>
      match digits with
      | EmptyString => None
      | String _ _ =>
          match NilEmpty.uint_of_string digits with
          | Some d => Some (N.of_uint d)
          | None => None
          end
      end
  | _ => None
  end.

(** The loop of [nextKeyName]: the largest key number seen. *)
Definition maxKeyNumber (keys : list KeyPair) : N :=
  fold_left
    (fun mx k =>
       match keyNumber (name k) with
       | Some n => N.max mx n
       | None => mx
       end)
    keys 0%N.

(** [function nextKeyName(keys)] *)
Definition nextKeyName (keys : list KeyPair) : string :=
  ("key" ++ NilEmpty.string_of_uint (N.to_uint (maxKeyNumber keys + 1)))%string.

(** [generateKeypair(keys)] once the server has answered with [pub], [sg]
    and [h], and the push onto [state.keys] of the handler that called it,
    the wallet being the same at both moments. *)
Definition generateKeypair (keys : list KeyPair) (pub sg h : string)
    : KeyPair :=
  {| name := nextKeyName keys; pubkey := pub; sig := sg; pkh := h |}.

Definition pushGenerated (keys : list KeyPair) (pub sg h : string)
    : list KeyPair :=
  keys ++ [generateKeypair keys pub sg h].


(** A wallet with two numbered keys and a renamed one. *)
Definition example_wallet : list KeyPair :=
  [ {| name := "key1"; pubkey := "02aa"; sig := "30aa"; pkh := "aa" |};
    {| name := "alice"; pubkey := "02bb"; sig := "30bb"; pkh := "bb" |};
    {| name := "key07"; pubkey := "02cc"; sig := "30cc"; pkh := "cc" |} ].


(** * Proofs *)

(** ** Arithmetic of indices *)

Lemma clamp_bounds (n lo hi : Z) : lo ≤ hi → lo ≤ clamp n lo hi ≤ hi.
Proof. unfold clamp; lia. Qed.

Lemma clamp_id (n lo hi : Z) : lo ≤ n ≤ hi → clamp n lo hi = n.
Proof. unfold clamp; lia. Qed.

Lemma len_zero {A : Type} (l : list A) : (len l =? 0) = true ↔ l = [].
Proof.
  unfold len; destruct l as [|x l]; simpl; split; intros H;
    try reflexivity; try discriminate; lia.
Qed.

Lemma len_nonzero {A : Type} (l : list A) : (len l =? 0) = false ↔ l ≠ [].
Proof.
  rewrite <- not_true_iff_false, len_zero; reflexivity.
Qed.

Lemma len_pos {A : Type} (l : list A) : l ≠ [] → 1 ≤ len l.
Proof. destruct l; [congruence | unfold len; simpl; lia]. Qed.

Lemma js_get_Some {A : Type} (l : list A) (i : Z) (x : A) :
  js_get l i = Some x → 0 ≤ i < len l.
Proof.
  unfold js_get, len; destruct (Z.ltb_spec i 0) as [E|E]; [discriminate|].
  intros H%lookup_lt_Some; lia.
Qed.

Lemma js_get_in_range {A : Type} (l : list A) (i : Z) :
  0 ≤ i < len l → ∃ x, js_get l i = Some x.
Proof.
  unfold js_get, len; intros H.
  destruct (Z.ltb_spec i 0) as [E|E]; [lia|].
  destruct (lookup_lt_is_Some_2 l (Z.to_nat i)) as [x Hx]; [lia|eauto].
Qed.

Lemma js_get_cons_succ {A : Type} (x : A) (l : list A) (i : Z) :
  0 ≤ i → js_get (x :: l) (i + 1) = js_get l i.
Proof.
  intros Hi; unfold js_get.
  destruct (Z.ltb_spec (i + 1) 0) as [E1|E1]; [lia|].
  destruct (Z.ltb_spec i 0) as [E2|E2]; [lia|].
  replace (Z.to_nat (i + 1)) with (S (Z.to_nat i)) by lia; reflexivity.
Qed.

Lemma num_or_zero (x : option Z) : num_or x 0 = default 0 x.
Proof.
  destruct x as [v|]; simpl; [|reflexivity].
  unfold truthy; destruct (v =? 0) eqn:E; simpl; lia.
Qed.

Lemma stepPc_default (s : Step) :
  stepPc s = match pc s with Some p => p | None => 0 end.
Proof. unfold stepPc; rewrite num_or_zero; destruct (pc s); reflexivity. Qed.

(** ** The forward search *)

Lemma find_from_Some (p : Z → bool) (fuel : nat) (i k : Z) :
  find_from p fuel i = Some k →
  i ≤ k < i + Z.of_nat fuel ∧ p k = true ∧ ∀ j, i ≤ j < k → p j = false.
Proof.
  revert i; induction fuel as [|fuel IH]; intros i; simpl; [discriminate|].
  destruct (p i) eqn:Hp.
  - intros [= <-]; repeat split; [lia | lia | exact Hp | intros j Hj; lia].
  - intros H; destruct (IH _ H) as (Hr & Hk & Hmin).
    repeat split; [lia | lia | exact Hk |].
    intros j Hj; destruct (Z.eq_dec j i) as [Heq|Hne]; [rewrite Heq; exact Hp|].
    apply Hmin; lia.
Qed.

Lemma find_from_None (p : Z → bool) (fuel : nat) (i : Z) :
  find_from p fuel i = None → ∀ j, i ≤ j < i + Z.of_nat fuel → p j = false.
Proof.
  revert i; induction fuel as [|fuel IH]; intros i; simpl.
  - intros _ j Hj; lia.
  - destruct (p i) eqn:Hp; [discriminate|].
    intros H j Hj; destruct (Z.eq_dec j i) as [Heq|Hne]; [rewrite Heq; exact Hp|].
    apply (IH _ H); lia.
Qed.

Lemma search_or_last_spec (p : Z → bool) (n start : Z) :
  0 ≤ start < n →
  ((∃ j, start < j < n ∧ p j = true) →
     start < search_or_last p n start < n ∧
     p (search_or_last p n start) = true ∧
     ∀ j, start < j < n → p j = true → search_or_last p n start ≤ j)
  ∧ ((∀ j, start < j < n → p j = false) → search_or_last p n start = n - 1)
  ∧ (∀ j, start < j < search_or_last p n start → p j = false)
  ∧ start ≤ search_or_last p n start < n
  ∧ (p (search_or_last p n start) = false →
       search_or_last p n start = n - 1 ∧
       ∀ j, start < j < n → p j = false).
Proof.
  intros Hs; unfold search_or_last.
  destruct (find_from p _ _) as [k|] eqn:Hf.
  - apply find_from_Some in Hf as (Hr & Hk & Hmin).
    split; [|split; [|split; [|split]]].
    + intros _; split; [lia|]; split; [exact Hk|].
      intros j Hj Hpj.
      destruct (Z_lt_le_dec j k) as [Hlt|Hge]; [|lia].
      rewrite Hmin in Hpj by lia; discriminate.
    + intros Hall; rewrite Hall in Hk by lia; discriminate.
    + intros j Hj; apply Hmin; lia.
    + lia.
    + intros Hc; congruence.
  - pose proof (find_from_None _ _ _ Hf) as Hnone.
    assert (Hall : ∀ j, start < j < n → p j = false).
    { intros j Hj; apply Hnone; lia. }
    split; [|split; [|split; [|split]]].
    + intros (j & Hj & Hpj); rewrite Hall in Hpj by lia; discriminate.
    + intros _; lia.
    + intros j Hj; apply Hall; lia.
    + lia.
    + intros _; split; [lia | exact Hall].
Qed.

Lemma sourceStepOverIndex_search (stps : list Step) (idx : Z) :
  sourceStepOverIndex stps idx =
  search_or_last
    (fun i => stepDepth (js_get stps i) <=? stepDepth (js_get stps idx))
    (len stps) idx.
Proof. reflexivity. Qed.

Lemma sourceStepOutIndex_search (stps : list Step) (idx : Z) :
  sourceStepOutIndex stps idx =
  search_or_last
    (fun i => stepDepth (js_get stps i) <? stepDepth (js_get stps idx))
    (len stps) idx.
Proof. reflexivity. Qed.

(** ** Step Over and Step Out *)

(** C3. From an in-range index [i] of a non-empty source-step list, with
    [d] the call depth at [i], Step Over returns the smallest index [j > i]
    whose step has call depth [<= d]; when there is none it returns
    [len - 1]; and no index strictly between [i] and the result has depth
    [<= d]. *)
Theorem sourceStepOverIndex_first (stps : list Step) (i : Z) :
  stps ≠ [] → 0 ≤ i < len stps →
  ((∃ j, i < j < len stps ∧ depthAt stps j ≤ depthAt stps i) →
     i < sourceStepOverIndex stps i < len stps ∧
     depthAt stps (sourceStepOverIndex stps i) ≤ depthAt stps i ∧
     ∀ j, i < j < len stps → depthAt stps j ≤ depthAt stps i →
          sourceStepOverIndex stps i ≤ j)
  ∧ ((∀ j, i < j < len stps → depthAt stps i < depthAt stps j) →
       sourceStepOverIndex stps i = len stps - 1)
  ∧ (∀ j, i < j < sourceStepOverIndex stps i →
          depthAt stps i < depthAt stps j).
Proof.
  intros _ Hi; rewrite sourceStepOverIndex_search.
  destruct (search_or_last_spec
              (fun k => stepDepth (js_get stps k) <=? stepDepth (js_get stps i))
              (len stps) i Hi) as (Hfound & Hnone & Hbetween & _ & _).
  unfold depthAt; split; [|split].
  - intros (j & Hj & Hd).
    destruct Hfound as (Hr & Hp & Hmin).
    { exists j; split; [exact Hj | apply Z.leb_le; exact Hd]. }
    split; [exact Hr|]; split; [apply Z.leb_le; exact Hp|].
    intros k Hk Hdk; apply Hmin; [exact Hk | apply Z.leb_le; exact Hdk].
  - intros Hall; apply Hnone; intros j Hj.
    apply Z.leb_gt, Hall, Hj.
  - intros j Hj; apply Z.leb_gt, Hbetween, Hj.
Qed.

(** C4. From an in-range index of a non-empty source-step list, with [d]
    the call depth there, Step Out returns the smallest later index whose
    step has call depth strictly below [d]; an index of depth [>= d] is
    returned only as the fallback [len - 1], when no later step is
    strictly shallower. *)
Theorem sourceStepOutIndex_first (stps : list Step) (i : Z) :
  stps ≠ [] → 0 ≤ i < len stps →
  ((∃ j, i < j < len stps ∧ depthAt stps j < depthAt stps i) →
     i < sourceStepOutIndex stps i < len stps ∧
     depthAt stps (sourceStepOutIndex stps i) < depthAt stps i ∧
     ∀ j, i < j < len stps → depthAt stps j < depthAt stps i →
          sourceStepOutIndex stps i ≤ j)
  ∧ ((∀ j, i < j < len stps → depthAt stps i ≤ depthAt stps j) →
       sourceStepOutIndex stps i = len stps - 1)
  ∧ (depthAt stps i ≤ depthAt stps (sourceStepOutIndex stps i) →
       sourceStepOutIndex stps i = len stps - 1 ∧
       ∀ j, i < j < len stps → depthAt stps i ≤ depthAt stps j).
Proof.
  intros _ Hi; rewrite sourceStepOutIndex_search.
  destruct (search_or_last_spec
              (fun k => stepDepth (js_get stps k) <? stepDepth (js_get stps i))
              (len stps) i Hi) as (Hfound & Hnone & _ & _ & Hfallback).
  unfold depthAt; split; [|split].
  - intros (j & Hj & Hd).
    destruct Hfound as (Hr & Hp & Hmin).
    { exists j; split; [exact Hj | apply Z.ltb_lt; exact Hd]. }
    split; [exact Hr|]; split; [apply Z.ltb_lt; exact Hp|].
    intros k Hk Hdk; apply Hmin; [exact Hk | apply Z.ltb_lt; exact Hdk].
  - intros Hall; apply Hnone; intros j Hj.
    apply Z.ltb_ge, Hall, Hj.
  - intros Hge; destruct Hfallback as (Hlast & Hall).
    { apply Z.ltb_ge; exact Hge. }
    split; [exact Hlast|].
    intros j Hj; apply Z.ltb_ge, Hall, Hj.
Qed.

Lemma sourceStepOverIndex_first_witness :
  depth_steps ≠ [] ∧ 0 ≤ 1 < len depth_steps ∧
  sourceStepOverIndex depth_steps 1 = 2 ∧
  1 < sourceStepOverIndex depth_steps 1 < len depth_steps ∧
  depthAt depth_steps (sourceStepOverIndex depth_steps 1)
    ≤ depthAt depth_steps 1.
Proof.
  assert (H1 : depth_steps ≠ []) by discriminate.
  assert (H2 : 0 ≤ 1 < len depth_steps) by (unfold len; simpl; lia).
  split; [exact H1|]; split; [exact H2|]; split; [reflexivity|].
  destruct (sourceStepOverIndex_first depth_steps 1 H1 H2) as (Hfound & _).
  destruct Hfound as (Hr & Hd & _); [|split; assumption].
  exists 2; split; [unfold len; simpl; lia | vm_compute; discriminate].
Defined.

Lemma sourceStepOutIndex_first_witness :
  depth_steps ≠ [] ∧ 0 ≤ 2 < len depth_steps ∧
  sourceStepOutIndex depth_steps 2 = 4 ∧
  2 < sourceStepOutIndex depth_steps 2 < len depth_steps ∧
  depthAt depth_steps (sourceStepOutIndex depth_steps 2)
    < depthAt depth_steps 2.
Proof.
  assert (H1 : depth_steps ≠ []) by discriminate.
  assert (H2 : 0 ≤ 2 < len depth_steps) by (unfold len; simpl; lia).
  split; [exact H1|]; split; [exact H2|]; split; [reflexivity|].
  destruct (sourceStepOutIndex_first depth_steps 2 H1 H2) as (Hfound & _).
  destruct Hfound as (Hr & Hd & _); [|split; assumption].
  exists 4; split; [unfold len; simpl; lia | vm_compute; reflexivity].
Defined.

(** ** The synchronizer *)

Lemma best_loop_cases (rest : list Step) (target i best : Z) :
  (best_loop rest target i best = best ∧
   ∀ s, js_get rest 0 = Some s → target < stepPc s)
  ∨ (∃ k s, 0 ≤ k ∧ best_loop rest target i best = i + k ∧
            js_get rest k = Some s ∧ stepPc s ≤ target ∧
            (∀ j s', 0 ≤ j ≤ k → js_get rest j = Some s' →
                     stepPc s' ≤ target) ∧
            (∀ s', js_get rest (k + 1) = Some s' → target < stepPc s')).
Proof.
  revert i best; induction rest as [|s rest IH]; intros i best; simpl.
  - left; split; [reflexivity | intros s; discriminate].
  - destruct (Z.gtb_spec (stepPc s) target) as [Hgt|Hle].
    + left; split; [reflexivity|].
      intros s' [= <-]; lia.
    + right; destruct (IH (i + 1) i) as [(Heq & Hhead)|(k & s' & Hk & Heq & Hget & Hpc & Hpre & Hnext)].
      * exists 0, s; split; [lia|]; split; [lia|].
        split; [reflexivity|]; split; [exact Hle|]; split.
        -- intros j s' Hj Hs'; assert (j = 0) as -> by lia.
           injection Hs' as <-; exact Hle.
        -- intros s'; rewrite (js_get_cons_succ s rest 0) by lia; apply Hhead.
      * exists (k + 1), s'; split; [lia|]; split; [lia|].
        split; [rewrite js_get_cons_succ by lia; exact Hget|].
        split; [exact Hpc|]; split.
        -- intros j s'' Hj; destruct (Z.eq_dec j 0) as [->|Hne].
           ++ intros [= <-]; exact Hle.
           ++ replace j with ((j - 1) + 1) by lia.
              rewrite js_get_cons_succ by lia; apply Hpre; lia.
        -- intros s''; rewrite js_get_cons_succ by lia; apply Hnext.
Qed.

Lemma pcs_nondecreasing_get (l : list Step) (i j : Z) (a b : Step) :
  pcs_nondecreasing l → i ≤ j →
  js_get l i = Some a → js_get l j = Some b → stepPc a ≤ stepPc b.
Proof.
  intros Hsorted Hij Ha Hb.
  pose proof (js_get_Some _ _ _ Ha) as Hi.
  pose proof (js_get_Some _ _ _ Hb) as Hj.
  unfold js_get in Ha, Hb.
  destruct (Z.ltb_spec i 0); [lia|]; destruct (Z.ltb_spec j 0); [lia|].
  apply (Hsorted (Z.to_nat i) (Z.to_nat j)); [lia | exact Ha | exact Hb].
Qed.

Lemma pcs_nondecreasingb_spec (l : list Step) :
  pcs_nondecreasingb l = true ↔ pcs_nondecreasing l.
Proof.
  split.
  - induction l as [|a rest IH]; intros Hb i j x y Hij Hx Hy.
    + discriminate.
    + simpl in Hb; destruct rest as [|b rest'].
      * destruct i, j; try discriminate. 
        injection Hx as <-; injection Hy as <-; lia.
      * apply andb_true_iff in Hb as [Hab Hrest]; apply Z.leb_le in Hab.
        specialize (IH Hrest).
        destruct i as [|i], j as [|j]; simpl in Hx, Hy.
        -- injection Hx as <-; injection Hy as <-; lia.
        -- injection Hx as <-.
           assert (stepPc b ≤ stepPc y).
           { apply (IH 0%nat j b y); [lia | reflexivity | exact Hy]. }
           lia.
        -- lia.
        -- apply (IH i j x y); [lia | exact Hx | exact Hy].
  - induction l as [|a rest IH]; intros Hs; [reflexivity|].
    simpl; destruct rest as [|b rest']; [reflexivity|].
    apply andb_true_iff; split.
    + apply Z.leb_le, (Hs 0%nat 1%nat a b); [lia | reflexivity | reflexivity].
    + apply IH; intros i j x y Hij Hx Hy.
      apply (Hs (S i) (S j) x y); [lia | exact Hx | exact Hy].
Qed.

Lemma best_loop_sorted (l : list Step) (target : Z) :
  pcs_nondecreasing l →
  (some_pc_le l target → last_pc_le l target (best_loop l target 0 0))
  ∧ (¬ some_pc_le l target → best_loop l target 0 0 = 0).
Proof.
  intros Hsorted.
  destruct (best_loop_cases l target 0 0)
    as [(Heq & Hhead)|(k & s & Hk & Heq & Hget & Hpc & Hpre & Hnext)].
  - split; [|intros _; exact Heq].
    intros (j & s & Hj & Hpc); exfalso.
    pose proof (js_get_Some _ _ _ Hj) as Hrange.
    destruct (js_get_in_range l 0) as [h Hh]; [lia|].
    pose proof (Hhead h Hh).
    pose proof (pcs_nondecreasing_get l 0 j h s Hsorted ltac:(lia) Hh Hj).
    lia.
  - rewrite Heq, Z.add_0_l; split.
    + intros _; exists s; split; [exact Hget|]; split; [exact Hpc|].
      intros j s' Hj Hs'.
      pose proof (js_get_Some _ _ _ Hs') as Hrange.
      pose proof (js_get_Some _ _ _ Hget) as Hrangek.
      destruct (js_get_in_range l (k + 1)) as [n Hn]; [lia|].
      pose proof (Hnext n Hn).
      pose proof (pcs_nondecreasing_get l (k + 1) j n s' Hsorted ltac:(lia) Hn Hs').
      lia.
    + intros Hno; exfalso; apply Hno; exists k, s; split; assumption.
Qed.

Lemma sourceIndexFromOpcodeIndex_unfold (st : State) (t : Trace) (oi : Z) :
  trace st = Some t → getSourceSteps (Some t) ≠ [] →
  sourceIndexFromOpcodeIndex st oi =
  best_loop (getSourceSteps (Some t))
    (match js_get (getOpcodeSteps (Some t))
             (clamp oi 0 (Z.max 0 (len (getOpcodeSteps (Some t)) - 1))) with
     | Some o => stepPc o
     | None => 0
     end) 0 0.
Proof.
  intros Ht Hne; unfold sourceIndexFromOpcodeIndex; rewrite Ht.
  apply len_nonzero in Hne; rewrite Hne; reflexivity.
Qed.

Lemma sourceIndexFromOpcodeIndex_empty (st : State) (t : Trace) (oi : Z) :
  trace st = Some t → getSourceSteps (Some t) = [] →
  sourceIndexFromOpcodeIndex st oi = 0.
Proof.
  intros Ht He; unfold sourceIndexFromOpcodeIndex; rewrite Ht.
  apply len_zero in He; rewrite He; reflexivity.
Qed.

Lemma sourceIndexFromOpcodeIndex_range (st : State) (t : Trace) (oi : Z) :
  trace st = Some t → getSourceSteps (Some t) ≠ [] →
  0 ≤ sourceIndexFromOpcodeIndex st oi < len (getSourceSteps (Some t)).
Proof.
  intros Ht Hne; rewrite (sourceIndexFromOpcodeIndex_unfold st t oi Ht Hne).
  pose proof (len_pos _ Hne).
  match goal with |- context [best_loop ?l ?tg 0 0] =>
    destruct (best_loop_cases l tg 0 0)
      as [(Heq & _)|(k & s & Hk & Heq & Hget & _)] end.
  - rewrite Heq; lia.
  - rewrite Heq; apply js_get_Some in Hget; lia.
Qed.

(** C1. On a trace whose source steps have non-decreasing pcs,
    [sourceIndexFromOpcodeIndex] returns the index of the last source step
    whose pc is at most the pc of the clamped opcode step at [opcodeIndex];
    it returns [0] when no source step has such a pc and when there are no
    source steps. *)
Theorem sourceIndexFromOpcodeIndex_last (st : State) (t : Trace)
    (opcodeIndex : Z) :
  trace st = Some t →
  pcs_nondecreasing (getSourceSteps (Some t)) →
  (getSourceSteps (Some t) = [] →
     sourceIndexFromOpcodeIndex st opcodeIndex = 0)
  ∧ ∀ o,
      js_get (getOpcodeSteps (Some t))
        (clamp opcodeIndex 0 (Z.max 0 (len (getOpcodeSteps (Some t)) - 1)))
        = Some o →
      (some_pc_le (getSourceSteps (Some t)) (stepPc o) →
         last_pc_le (getSourceSteps (Some t)) (stepPc o)
           (sourceIndexFromOpcodeIndex st opcodeIndex))
      ∧ (¬ some_pc_le (getSourceSteps (Some t)) (stepPc o) →
           sourceIndexFromOpcodeIndex st opcodeIndex = 0).
Proof.
  intros Ht Hsorted; split.
  - apply sourceIndexFromOpcodeIndex_empty; exact Ht.
  - intros o Ho.
    destruct (getSourceSteps (Some t)) as [|s0 l0] eqn:Hsrc.
    + split.
      * intros (j & s & Hj & _); apply js_get_Some in Hj.
        unfold len in Hj; simpl in Hj; lia.
      * intros _; apply (sourceIndexFromOpcodeIndex_empty st t); assumption.
    + rewrite (sourceIndexFromOpcodeIndex_unfold st t opcodeIndex Ht)
        by (rewrite Hsrc; discriminate).
      rewrite Ho, Hsrc; apply best_loop_sorted; exact Hsorted.
Qed.

Lemma sourceIndexFromOpcodeIndex_last_witness :
  pcs_nondecreasing (getSourceSteps (Some scenario_trace)) ∧
  sourceIndexFromOpcodeIndex
    {| trace := Some scenario_trace; dbg := initial_dbg |} 6 = 1 ∧
  last_pc_le (getSourceSteps (Some scenario_trace)) 6
    (sourceIndexFromOpcodeIndex
       {| trace := Some scenario_trace; dbg := initial_dbg |} 6).
Proof.
  assert (Hs : pcs_nondecreasing (getSourceSteps (Some scenario_trace))).
  { apply pcs_nondecreasingb_spec; reflexivity. }
  split; [exact Hs|]; split; [reflexivity|].
  destruct (sourceIndexFromOpcodeIndex_last
              {| trace := Some scenario_trace; dbg := initial_dbg |}
              scenario_trace 6 eq_refl Hs) as (_ & Hmain).
  destruct (Hmain (opAt 6) eq_refl) as (Hlast & _).
  apply Hlast; exists 0, (stepAt 0 0 0 1); split; [reflexivity|].
  vm_compute; discriminate.
Defined.

(** ** What the state functions leave alone *)

Lemma state_eta (st : State) :
  {| trace := trace st;
     dbg := {| mode := mode (dbg st); sourceStep := sourceStep (dbg st);
               opcodeStep := opcodeStep (dbg st);
               breakpoints := breakpoints (dbg st);
               fnTintSpan := fnTintSpan (dbg st);
               fnTintKind := fnTintKind (dbg st);
               activeLine := activeLine (dbg st) |} |} = st.
Proof. destruct st as [tr []]; reflexivity. Qed.

Lemma set_sourceStep_same (st : State) :
  set_sourceStep (sourceStep (dbg st)) st = st.
Proof. apply state_eta. Qed.

Lemma set_opcodeStep_same (st : State) :
  set_opcodeStep (opcodeStep (dbg st)) st = st.
Proof. apply state_eta. Qed.

Lemma set_mode_same (st : State) : set_mode (mode (dbg st)) st = st.
Proof. apply state_eta. Qed.

Lemma syncOpcodeFromSource_frame (st : State) :
  trace (syncOpcodeFromSource st) = trace st ∧
  mode (dbg (syncOpcodeFromSource st)) = mode (dbg st) ∧
  sourceStep (dbg (syncOpcodeFromSource st)) = sourceStep (dbg st) ∧
  breakpoints (dbg (syncOpcodeFromSource st)) = breakpoints (dbg st).
Proof.
  unfold syncOpcodeFromSource.
  destruct (trace st) as [t|] eqn:Ht; [|rewrite Ht; auto].
  destruct (_ || _); simpl; rewrite ?Ht; auto.
Qed.

Lemma syncSourceFromOpcode_frame (st : State) :
  trace (syncSourceFromOpcode st) = trace st ∧
  mode (dbg (syncSourceFromOpcode st)) = mode (dbg st) ∧
  opcodeStep (dbg (syncSourceFromOpcode st)) = opcodeStep (dbg st) ∧
  breakpoints (dbg (syncSourceFromOpcode st)) = breakpoints (dbg st).
Proof.
  unfold syncSourceFromOpcode.
  destruct (trace st) as [t|] eqn:Ht; [|rewrite Ht; auto].
  destruct (_ =? _); simpl; rewrite ?Ht; auto.
Qed.

Lemma sourceIndexFromOpcodeIndex_trace (st st' : State) (oi : Z) :
  trace st = trace st' →
  sourceIndexFromOpcodeIndex st oi = sourceIndexFromOpcodeIndex st' oi.
Proof. unfold sourceIndexFromOpcodeIndex; intros ->; reflexivity. Qed.

(** What [syncOpcodeFromSource] stores when both sequences have steps. *)
Lemma syncOpcodeFromSource_opcodeStep (st : State) (t : Trace) :
  trace st = Some t →
  getSourceSteps (Some t) ≠ [] → getOpcodeSteps (Some t) ≠ [] →
  ∃ s,
    js_get (getSourceSteps (Some t))
      (clamp (sourceStep (dbg st)) 0 (len (getSourceSteps (Some t)) - 1))
      = Some s ∧
    opcodeStep (dbg (syncOpcodeFromSource st))
      = clamp (stepPc s) 0 (len (getOpcodeSteps (Some t)) - 1).
Proof.
  intros Ht Hs Ho; unfold syncOpcodeFromSource; rewrite Ht.
  pose proof (len_pos _ Hs) as Hls.
  apply len_nonzero in Hs, Ho; rewrite Hs, Ho; cbn [orb].
  unfold set_opcodeStep, set_dbg; cbn [opcodeStep dbg].
  destruct (js_get_in_range (getSourceSteps (Some t))
              (clamp (sourceStep (dbg st)) 0 (len (getSourceSteps (Some t)) - 1)))
    as [s Hget].
  { pose proof (clamp_bounds (sourceStep (dbg st)) 0
                  (len (getSourceSteps (Some t)) - 1)); lia. }
  exists s; split; [exact Hget|].
  rewrite Hget, stepPc_default; reflexivity.
Qed.

Lemma syncOpcodeFromSource_idle (st : State) (t : Trace) :
  trace st = Some t →
  getSourceSteps (Some t) = [] ∨ getOpcodeSteps (Some t) = [] →
  syncOpcodeFromSource st = st.
Proof.
  intros Ht H; unfold syncOpcodeFromSource; rewrite Ht.
  destruct H as [H|H]; apply len_zero in H; rewrite H;
    rewrite ?orb_true_r; reflexivity.
Qed.

Lemma syncSourceFromOpcode_sourceStep (st : State) (t : Trace) :
  trace st = Some t → getSourceSteps (Some t) ≠ [] →
  sourceStep (dbg (syncSourceFromOpcode st))
    = sourceIndexFromOpcodeIndex st (opcodeStep (dbg st)).
Proof.
  intros Ht Hs; unfold syncSourceFromOpcode; rewrite Ht.
  apply len_nonzero in Hs; rewrite Hs; reflexivity.
Qed.

Lemma syncSourceFromOpcode_idle (st : State) (t : Trace) :
  trace st = Some t → getSourceSteps (Some t) = [] →
  syncSourceFromOpcode st = st.
Proof.
  intros Ht H; unfold syncSourceFromOpcode; rewrite Ht.
  apply len_zero in H; rewrite H; reflexivity.
Qed.

(** ** The shape of the commands on a loaded trace *)

Lemma stepSourceWith_unfold (next : list Step → Z → Z) (st : State)
    (t : Trace) :
  trace st = Some t → getSourceSteps (Some t) ≠ [] →
  ∃ st2,
    trace st2 = Some t ∧ mode (dbg st2) = SourceMode ∧
    breakpoints (dbg st2) = breakpoints (dbg st) ∧
    (mode (dbg st) = SourceMode → sourceStep (dbg st2) = sourceStep (dbg st)) ∧
    stepSourceWith next st =
    syncOpcodeFromSource
      (set_sourceStep
         (next (getSourceSteps (Some t))
            (clamp (sourceStep (dbg st2)) 0
               (len (getSourceSteps (Some t)) - 1))) st2).
Proof.
  intros Ht Hs; unfold stepSourceWith; rewrite Ht.
  apply len_nonzero in Hs; rewrite Hs.
  eexists; split; [|split; [|split; [|split; [|reflexivity]]]].
  - destruct (mode (dbg st)); simpl; [exact Ht|].
    destruct (syncSourceFromOpcode_frame st) as (-> & _); exact Ht.
  - reflexivity.
  - destruct (mode (dbg st)); simpl; [reflexivity|].
    destruct (syncSourceFromOpcode_frame st) as (_ & _ & _ & ->); reflexivity.
  - intros ->; reflexivity.
Qed.

Lemma sourceStepIntoIndex_range (stps : list Step) (idx : Z) :
  stps ≠ [] → 0 ≤ sourceStepIntoIndex stps idx < len stps.
Proof.
  intros H%len_pos; unfold sourceStepIntoIndex, clamp; lia.
Qed.

Lemma sourceStepOverIndex_range (stps : list Step) (idx : Z) :
  0 ≤ idx < len stps → idx ≤ sourceStepOverIndex stps idx < len stps.
Proof.
  intros H; rewrite sourceStepOverIndex_search.
  apply search_or_last_spec; exact H.
Qed.

Lemma sourceStepOutIndex_range (stps : list Step) (idx : Z) :
  0 ≤ idx < len stps → idx ≤ sourceStepOutIndex stps idx < len stps.
Proof.
  intros H; rewrite sourceStepOutIndex_search.
  apply search_or_last_spec; exact H.
Qed.

(** After a source-granularity command the opcode index is the clamped pc
    of the source step the cursor is on. *)
Lemma stepSourceWith_synced (next : list Step → Z → Z) (st : State)
    (t : Trace) :
  trace st = Some t →
  getSourceSteps (Some t) ≠ [] → getOpcodeSteps (Some t) ≠ [] →
  (∀ idx, 0 ≤ idx < len (getSourceSteps (Some t)) →
          0 ≤ next (getSourceSteps (Some t)) idx
            < len (getSourceSteps (Some t))) →
  mode (dbg (stepSourceWith next st)) = SourceMode ∧
  ∃ s,
    js_get (getSourceSteps (Some t)) (sourceStep (dbg (stepSourceWith next st)))
      = Some s ∧
    opcodeStep (dbg (stepSourceWith next st))
      = clamp (stepPc s) 0 (len (getOpcodeSteps (Some t)) - 1).
Proof.
  intros Ht Hs Ho Hnext.
  destruct (stepSourceWith_unfold next st t Ht Hs)
    as (st2 & Ht2 & Hm2 & _ & _ & ->).
  pose proof (len_pos _ Hs) as Hls.
  set (idx := clamp (sourceStep (dbg st2)) 0 (len (getSourceSteps (Some t)) - 1)).
  assert (Hidx : 0 ≤ idx < len (getSourceSteps (Some t))).
  { pose proof (clamp_bounds (sourceStep (dbg st2)) 0
                  (len (getSourceSteps (Some t)) - 1)); unfold idx; lia. }
  specialize (Hnext idx Hidx).
  set (st3 := set_sourceStep (next (getSourceSteps (Some t)) idx) st2).
  destruct (syncOpcodeFromSource_frame st3) as (_ & Hm & Hsrc & _).
  split; [rewrite Hm; exact Hm2|].
  destruct (syncOpcodeFromSource_opcodeStep st3 t Ht2 Hs Ho) as (s & Hget & Hop).
  assert (Hst3 : sourceStep (dbg st3) = next (getSourceSteps (Some t)) idx)
    by reflexivity.
  exists s; rewrite Hsrc; split; [|exact Hop].
  rewrite Hst3 in Hget |- *; rewrite clamp_id in Hget by lia; exact Hget.
Qed.

Lemma stepOpcode_unfold (st : State) (t : Trace) (delta : Z) :
  trace st = Some t → getOpcodeSteps (Some t) ≠ [] →
  ∃ st2,
    trace st2 = Some t ∧ mode (dbg st2) = OpcodeMode ∧
    breakpoints (dbg st2) = breakpoints (dbg st) ∧
    stepOpcode st delta =
    syncSourceFromOpcode
      (set_opcodeStep
         (clamp (opcodeStep (dbg st2) + delta) 0
            (len (getOpcodeSteps (Some t)) - 1)) st2).
Proof.
  intros Ht Ho; unfold stepOpcode; rewrite Ht.
  apply len_nonzero in Ho; rewrite Ho.
  eexists; split; [|split; [|split; [|reflexivity]]].
  - destruct (mode (dbg st)); simpl; [|exact Ht].
    destruct (syncOpcodeFromSource_frame st) as (-> & _); exact Ht.
  - reflexivity.
  - destruct (mode (dbg st)); simpl; [|reflexivity].
    destruct (syncOpcodeFromSource_frame st) as (_ & _ & _ & ->); reflexivity.
Qed.

(** After an opcode step the source index is what
    [sourceIndexFromOpcodeIndex] gives for the opcode step the cursor is
    on. *)
Lemma stepOpcode_synced (st : State) (t : Trace) (delta : Z) :
  trace st = Some t →
  getSourceSteps (Some t) ≠ [] → getOpcodeSteps (Some t) ≠ [] →
  mode (dbg (stepOpcode st delta)) = OpcodeMode ∧
  0 ≤ opcodeStep (dbg (stepOpcode st delta))
    < len (getOpcodeSteps (Some t)) ∧
  sourceStep (dbg (stepOpcode st delta))
    = sourceIndexFromOpcodeIndex st (opcodeStep (dbg (stepOpcode st delta))).
Proof.
  intros Ht Hs Ho.
  destruct (stepOpcode_unfold st t delta Ht Ho) as (st2 & Ht2 & Hm2 & _ & ->).
  pose proof (len_pos _ Ho) as Hlo.
  set (idx := clamp (opcodeStep (dbg st2) + delta) 0
                (len (getOpcodeSteps (Some t)) - 1)).
  assert (Hidx : 0 ≤ idx < len (getOpcodeSteps (Some t))).
  { pose proof (clamp_bounds (opcodeStep (dbg st2) + delta) 0
                  (len (getOpcodeSteps (Some t)) - 1)); unfold idx; lia. }
  set (st3 := set_opcodeStep idx st2).
  assert (Ht3 : trace st3 = Some t) by exact Ht2.
  destruct (syncSourceFromOpcode_frame st3) as (_ & Hm & Hop & _).
  rewrite Hm, Hop, (syncSourceFromOpcode_sourceStep st3 t Ht3 Hs).
  split; [exact Hm2|]; split; [exact Hidx|].
  apply sourceIndexFromOpcodeIndex_trace; rewrite Ht3, Ht; reflexivity.
Qed.

(** ** Continue *)

Lemma breakpointHit_spec (bps : gset Z) (l : list Step) (k : Z) :
  0 ∉ bps → breakpointHit bps l k = true ↔ at_breakpoint bps l k.
Proof.
  intros Hzero; unfold breakpointHit, at_breakpoint; split.
  - destruct (js_get l k) as [s|]; [|discriminate].
    destruct (is_executing s) eqn:Hex; simpl; [|discriminate].
    destruct (mappingLine (mapping s)) as [ln|] eqn:Hln; [|discriminate].
    intros [_ Hin%bool_decide_eq_true]%andb_true_iff.
    exists s, ln; split; [reflexivity|]; split; [exact Hex|].
    split; [exact Hln | exact Hin].
  - intros (s & ln & -> & -> & -> & Hin); simpl.
    apply andb_true_iff; split; [|apply bool_decide_eq_true; exact Hin].
    unfold truthy; destruct (Z.eqb_spec ln 0) as [->|]; [contradiction|].
    reflexivity.
Qed.

Lemma continueToBreakpoint_unfold (st : State) (t : Trace) :
  trace st = Some t → getSourceSteps (Some t) ≠ [] →
  continueToBreakpoint st =
  let st1 :=
    match mode (dbg st) with
    | OpcodeMode => syncSourceFromOpcode st
    | SourceMode => st
    end in
  (if bool_decide (breakpoints (dbg st1) = ∅)
   then len (getSourceSteps (Some t)) - 1
   else search_or_last
          (breakpointHit (breakpoints (dbg st1)) (getSourceSteps (Some t)))
          (len (getSourceSteps (Some t)))
          (clamp (sourceStep (dbg st1)) 0 (len (getSourceSteps (Some t)) - 1)),
   st1).
Proof.
  intros Ht Hs; unfold continueToBreakpoint, search_or_last; rewrite Ht.
  pose proof (len_pos _ Hs) as Hls.
  apply len_nonzero in Hs; rewrite Hs; cbv zeta.
  destruct (bool_decide _); [reflexivity|].
  destruct (find_from _ _ _); [reflexivity|].
  rewrite Z.max_r by lia; reflexivity.
Qed.

Lemma continueExecution_unfold (st : State) (t : Trace) :
  trace st = Some t → getSourceSteps (Some t) ≠ [] →
  continueExecution st =
  syncOpcodeFromSource
    (set_sourceStep (fst (continueToBreakpoint (set_mode SourceMode st)))
       (set_mode SourceMode st)).
Proof.
  intros Ht Hs; unfold continueExecution; rewrite Ht.
  rewrite (continueToBreakpoint_unfold (set_mode SourceMode st) t Ht Hs).
  apply len_nonzero in Hs; rewrite Hs; reflexivity.
Qed.

Lemma continueToBreakpoint_range (st : State) (t : Trace) :
  trace st = Some t → getSourceSteps (Some t) ≠ [] →
  clamp (sourceStep (dbg (snd (continueToBreakpoint st)))) 0
    (len (getSourceSteps (Some t)) - 1)
    ≤ fst (continueToBreakpoint st)
    < len (getSourceSteps (Some t)).
Proof.
  intros Ht Hs; rewrite (continueToBreakpoint_unfold st t Ht Hs).
  pose proof (len_pos _ Hs) as Hls; cbv zeta; cbn [fst snd].
  match goal with |- context [clamp ?x 0 ?hi] =>
    pose proof (clamp_bounds x 0 hi ltac:(lia)) as Hc end.
  destruct (bool_decide _); [lia|].
  match goal with |- context [search_or_last ?p ?n ?s] =>
    destruct (search_or_last_spec p n s ltac:(lia)) as (_ & _ & _ & Hr & _) end.
  lia.
Qed.

(** C5. On a trace with source steps and an in-range source index, Continue
    moves the source cursor to [len - 1] when there is no breakpoint;
    otherwise to the smallest later index whose step is executing and whose
    mapped line is a breakpoint, or to [len - 1] when there is no such
    index. Without source steps it puts the opcode cursor on its last
    index. Breakpoints are line numbers, so [0] is not one of them. *)
Theorem continueExecution_breakpoint (st : State) (t : Trace) :
  trace st = Some t →
  0 ∉ breakpoints (dbg st) →
  (getSourceSteps (Some t) ≠ [] →
   0 ≤ sourceStep (dbg st) < len (getSourceSteps (Some t)) →
     sourceStep (dbg (continueExecution st))
       = fst (continueToBreakpoint (set_mode SourceMode st)) ∧
     (breakpoints (dbg st) = ∅ →
        sourceStep (dbg (continueExecution st))
          = len (getSourceSteps (Some t)) - 1) ∧
     (breakpoints (dbg st) ≠ ∅ →
        ((∃ k, sourceStep (dbg st) < k < len (getSourceSteps (Some t)) ∧
               at_breakpoint (breakpoints (dbg st))
                 (getSourceSteps (Some t)) k) →
           sourceStep (dbg st) < sourceStep (dbg (continueExecution st))
             < len (getSourceSteps (Some t)) ∧
           at_breakpoint (breakpoints (dbg st)) (getSourceSteps (Some t))
             (sourceStep (dbg (continueExecution st))) ∧
           ∀ k, sourceStep (dbg st) < k < len (getSourceSteps (Some t)) →
                at_breakpoint (breakpoints (dbg st))
                  (getSourceSteps (Some t)) k →
                sourceStep (dbg (continueExecution st)) ≤ k) ∧
        ((∀ k, sourceStep (dbg st) < k < len (getSourceSteps (Some t)) →
               ¬ at_breakpoint (breakpoints (dbg st))
                   (getSourceSteps (Some t)) k) →
           sourceStep (dbg (continueExecution st))
             = len (getSourceSteps (Some t)) - 1)))
  ∧ (getSourceSteps (Some t) = [] →
       mode (dbg (continueExecution st)) = OpcodeMode ∧
       sourceStep (dbg (continueExecution st)) = sourceStep (dbg st) ∧
       opcodeStep (dbg (continueExecution st))
         = Z.max 0 (len (getOpcodeSteps (Some t)) - 1) ∧
       (getOpcodeSteps (Some t) ≠ [] →
          opcodeStep (dbg (continueExecution st))
            = len (getOpcodeSteps (Some t)) - 1)).
Proof.
  intros Ht Hzero; split.
  - intros Hs Hcur.
    rewrite (continueExecution_unfold st t Ht Hs).
    match goal with |- context [syncOpcodeFromSource ?x] =>
      destruct (syncOpcodeFromSource_frame x) as (_ & _ & -> & _) end.
    split; [reflexivity|].
    assert (Hk : sourceStep (dbg (set_sourceStep
                   (fst (continueToBreakpoint (set_mode SourceMode st)))
                   (set_mode SourceMode st)))
                 = fst (continueToBreakpoint (set_mode SourceMode st)))
      by reflexivity.
    rewrite Hk; clear Hk.
    rewrite (continueToBreakpoint_unfold (set_mode SourceMode st) t Ht Hs).
    cbv zeta; cbn [fst set_mode set_dbg dbg mode breakpoints sourceStep].
    rewrite (clamp_id (sourceStep (dbg st))) by lia.
    split.
    + intros ->; rewrite bool_decide_eq_true_2 by reflexivity; reflexivity.
    + intros Hne; rewrite bool_decide_eq_false_2 by exact Hne.
      match goal with |- context [search_or_last ?p ?n ?s] =>
        destruct (search_or_last_spec p n s Hcur)
          as (Hfound & Hnone & _ & _ & _) end.
      split.
      * intros (k & Hk & Hbp).
        destruct Hfound as (Hr & Hp & Hmin).
        { exists k; split; [exact Hk|]; apply breakpointHit_spec; assumption. }
        split; [exact Hr|]; split.
        -- apply breakpointHit_spec; assumption.
        -- intros j Hj Hbj; apply Hmin; [exact Hj|].
           apply breakpointHit_spec; assumption.
      * intros Hall; apply Hnone; intros j Hj.
        apply not_true_is_false; intros Hhit.
        apply (Hall j Hj), breakpointHit_spec; assumption.
  - intros Hs; unfold continueExecution; rewrite Ht.
    apply len_zero in Hs; rewrite Hs; cbn [negb].
    split; [reflexivity|]; split; [reflexivity|]; split; [reflexivity|].
    intros Ho%len_pos.
    cbn [set_opcodeStep set_mode set_dbg dbg opcodeStep]; lia.
Qed.

Lemma continueExecution_breakpoint_witness :
  (0 ∉ breakpoints (dbg breakpoint_state)) ∧
  (getSourceSteps (Some scenario_trace) ≠ []) ∧
  0 ≤ sourceStep (dbg breakpoint_state)
    < len (getSourceSteps (Some scenario_trace)) ∧
  (breakpoints (dbg breakpoint_state) ≠ ∅) ∧
  sourceStep (dbg breakpoint_state)
    < sourceStep (dbg (continueExecution breakpoint_state))
    < len (getSourceSteps (Some scenario_trace)) ∧
  at_breakpoint (breakpoints (dbg breakpoint_state))
    (getSourceSteps (Some scenario_trace))
    (sourceStep (dbg (continueExecution breakpoint_state))).
Proof.
  assert (H0 : 0 ∉ breakpoints (dbg breakpoint_state)).
  { simpl; intros H%elem_of_singleton; discriminate. }
  assert (H1 : getSourceSteps (Some scenario_trace) ≠ []) by discriminate.
  assert (H2 : 0 ≤ sourceStep (dbg breakpoint_state)
               < len (getSourceSteps (Some scenario_trace)))
    by (unfold len; simpl; lia).
  assert (H3 : breakpoints (dbg breakpoint_state) ≠ ∅).
  { simpl; intros H; apply (not_elem_of_empty (C := gset Z) 3).
    rewrite <- H; apply elem_of_singleton_2; reflexivity. }
  split; [exact H0|]; split; [exact H1|]; split; [exact H2|]; split; [exact H3|].
  destruct (continueExecution_breakpoint breakpoint_state scenario_trace
              eq_refl H0) as (Hsrc & _).
  destruct (Hsrc H1 H2) as (_ & _ & Hbp).
  destruct (Hbp H3) as (Hfound & _).
  destruct Hfound as (Hr & Hat & _); [|split; assumption].
  exists 2; split; [unfold len; simpl; lia|].
  exists (stepAt 8 0 0 3), 3; split; [reflexivity|]; split; [reflexivity|].
  split; [reflexivity|].
  change (breakpoints (dbg breakpoint_state)) with ({[ 3 ]} : gset Z).
  apply elem_of_singleton_2; reflexivity.
Defined.

Lemma sourceIndexFromOpcodeIndex_at (st : State) (t : Trace) (oi : Z)
    (o : Step) :
  trace st = Some t → getSourceSteps (Some t) ≠ [] →
  js_get (getOpcodeSteps (Some t))
    (clamp oi 0 (Z.max 0 (len (getOpcodeSteps (Some t)) - 1))) = Some o →
  sourceIndexFromOpcodeIndex st oi
    = best_loop (getSourceSteps (Some t)) (stepPc o) 0 0.
Proof.
  intros Ht Hs Ho.
  rewrite (sourceIndexFromOpcodeIndex_unfold st t oi Ht Hs), Ho; reflexivity.
Qed.

(** C10. From an in-range index of a non-empty source-step list, the
    step-over search, the step-out search and the continue-to-breakpoint
    search each return an index that is not before the starting index. *)
Theorem searches_never_go_back (stps : list Step) (i : Z) :
  stps ≠ [] → 0 ≤ i < len stps →
  i ≤ sourceStepOverIndex stps i ∧
  i ≤ sourceStepOutIndex stps i ∧
  ∀ st t,
    trace st = Some t → getSourceSteps (Some t) = stps →
    (mode (dbg st) = SourceMode → sourceStep (dbg st) = i →
       i ≤ fst (continueToBreakpoint st)) ∧
    (sourceStep (dbg st) = i →
       i ≤ sourceStep (dbg (continueExecution st))) ∧
    clamp (sourceStep (dbg (snd (continueToBreakpoint st)))) 0 (len stps - 1)
      ≤ fst (continueToBreakpoint st).
Proof.
  intros Hne Hi.
  split; [apply sourceStepOverIndex_range; exact Hi|].
  split; [apply sourceStepOutIndex_range; exact Hi|].
  intros st t Ht Hsrc; subst stps.
  pose proof (continueToBreakpoint_range st t Ht Hne) as Hgen.
  split; [|split].
  - intros Hm Hcur.
    rewrite (continueToBreakpoint_unfold st t Ht Hne) in Hgen |- *.
    rewrite Hm in Hgen |- *; cbv zeta in Hgen |- *; cbn [fst snd] in Hgen |- *.
    pose proof (clamp_id (sourceStep (dbg st)) 0
                  (len (getSourceSteps (Some t)) - 1) ltac:(lia)).
    lia.
  - intros Hcur.
    rewrite (continueExecution_unfold st t Ht Hne).
    match goal with |- context [syncOpcodeFromSource ?x] =>
      destruct (syncOpcodeFromSource_frame x) as (_ & _ & -> & _) end.
    cbn [set_sourceStep set_dbg dbg sourceStep].
    pose proof (continueToBreakpoint_range (set_mode SourceMode st) t Ht Hne)
      as Hsrc.
    rewrite (continueToBreakpoint_unfold (set_mode SourceMode st) t Ht Hne)
      in Hsrc |- *.
    cbv zeta in Hsrc |- *.
    cbn [fst snd set_mode set_dbg dbg mode sourceStep breakpoints]
      in Hsrc |- *.
    pose proof (clamp_id (sourceStep (dbg st)) 0
                  (len (getSourceSteps (Some t)) - 1) ltac:(lia)).
    lia.
  - lia.
Qed.

Lemma searches_never_go_back_witness :
  depth_steps ≠ [] ∧ 0 ≤ 1 < len depth_steps ∧
  1 ≤ sourceStepOverIndex depth_steps 1 ∧
  1 ≤ sourceStepOutIndex depth_steps 1.
Proof.
  assert (H1 : depth_steps ≠ []) by discriminate.
  assert (H2 : 0 ≤ 1 < len depth_steps) by (unfold len; simpl; lia).
  split; [exact H1|]; split; [exact H2|].
  destruct (searches_never_go_back depth_steps 1 H1 H2) as (Hov & Hout & _).
  split; assumption.
Defined.

(** ** Both indices after a command *)

Lemma continueExecution_synced (st : State) (t : Trace) :
  trace st = Some t →
  getSourceSteps (Some t) ≠ [] → getOpcodeSteps (Some t) ≠ [] →
  mode (dbg (continueExecution st)) = SourceMode ∧
  ∃ s,
    js_get (getSourceSteps (Some t)) (sourceStep (dbg (continueExecution st)))
      = Some s ∧
    opcodeStep (dbg (continueExecution st))
      = clamp (stepPc s) 0 (len (getOpcodeSteps (Some t)) - 1).
Proof.
  intros Ht Hs Ho.
  rewrite (continueExecution_unfold st t Ht Hs).
  set (k := fst (continueToBreakpoint (set_mode SourceMode st))).
  set (st3 := set_sourceStep k (set_mode SourceMode st)).
  assert (Ht3 : trace st3 = Some t) by exact Ht.
  assert (Hk : 0 ≤ k < len (getSourceSteps (Some t))).
  { pose proof (continueToBreakpoint_range (set_mode SourceMode st) t Ht Hs)
      as Hr.
    pose proof (len_pos _ Hs).
    match type of Hr with context [clamp ?x 0 ?hi] =>
      pose proof (clamp_bounds x 0 hi ltac:(lia)) end.
    unfold k; lia. }
  destruct (syncOpcodeFromSource_frame st3) as (_ & Hm & Hsrc & _).
  split; [rewrite Hm; reflexivity|].
  destruct (syncOpcodeFromSource_opcodeStep st3 t Ht3 Hs Ho) as (s & Hget & Hop).
  assert (Hst3 : sourceStep (dbg st3) = k) by reflexivity.
  exists s; rewrite Hsrc; split; [|exact Hop].
  rewrite Hst3 in Hget |- *; rewrite clamp_id in Hget by lia; exact Hget.
Qed.

(** C6 (as the code has it). On a trace with source and opcode steps, after
    Step Into, Step Over, Step Out or Continue the cursor is in source mode
    and the opcode index is the pc of the current source step clamped into
    [0 .. opcodeSteps.length - 1]; after an opcode step the cursor is in
    opcode mode and, the source pcs being non-decreasing, the source index
    is the last source index whose pc is at most the pc of the current
    opcode step, or [0] when no source step has such a pc. *)
Theorem run_resynchronizes (c : Command) (st : State) (t : Trace) :
  trace st = Some t →
  getSourceSteps (Some t) ≠ [] → getOpcodeSteps (Some t) ≠ [] →
  pcs_nondecreasing (getSourceSteps (Some t)) →
  (isOpcodeCommand c = false →
     mode (dbg (run c st)) = SourceMode ∧
     ∃ s,
       js_get (getSourceSteps (Some t)) (sourceStep (dbg (run c st)))
         = Some s ∧
       opcodeStep (dbg (run c st))
         = clamp (stepPc s) 0 (len (getOpcodeSteps (Some t)) - 1))
  ∧ (isOpcodeCommand c = true →
     mode (dbg (run c st)) = OpcodeMode ∧
     ∃ o,
       js_get (getOpcodeSteps (Some t)) (opcodeStep (dbg (run c st)))
         = Some o ∧
       (some_pc_le (getSourceSteps (Some t)) (stepPc o) →
          last_pc_le (getSourceSteps (Some t)) (stepPc o)
            (sourceStep (dbg (run c st)))) ∧
       (¬ some_pc_le (getSourceSteps (Some t)) (stepPc o) →
          sourceStep (dbg (run c st)) = 0)).
Proof.
  intros Ht Hs Ho Hsorted.
  destruct c as [| | |delta|]; cbn [isOpcodeCommand run];
    split; intros Hc; try discriminate Hc; clear Hc.
  - apply (stepSourceWith_synced sourceStepIntoIndex st t Ht Hs Ho).
    intros idx _; apply sourceStepIntoIndex_range; exact Hs.
  - apply (stepSourceWith_synced sourceStepOverIndex st t Ht Hs Ho).
    intros idx Hidx; pose proof (sourceStepOverIndex_range _ _ Hidx); lia.
  - apply (stepSourceWith_synced sourceStepOutIndex st t Ht Hs Ho).
    intros idx Hidx; pose proof (sourceStepOutIndex_range _ _ Hidx); lia.
  - destruct (stepOpcode_synced st t delta Ht Hs Ho) as (Hm & Hrange & Hsrc).
    split; [exact Hm|].
    destruct (js_get_in_range _ _ Hrange) as [o Hget].
    exists o; split; [exact Hget|].
    rewrite Hsrc.
    rewrite (sourceIndexFromOpcodeIndex_at st t _ o Ht Hs).
    + apply best_loop_sorted; exact Hsorted.
    + rewrite clamp_id by lia; exact Hget.
  - apply continueExecution_synced; assumption.
Qed.

Lemma run_resynchronizes_witness :
  getSourceSteps (Some scenario_trace) ≠ [] ∧
  getOpcodeSteps (Some scenario_trace) ≠ [] ∧
  pcs_nondecreasing (getSourceSteps (Some scenario_trace)) ∧
  mode (dbg (run CmdStepInto breakpoint_state)) = SourceMode ∧
  ∃ s,
    js_get (getSourceSteps (Some scenario_trace))
      (sourceStep (dbg (run CmdStepInto breakpoint_state))) = Some s ∧
    opcodeStep (dbg (run CmdStepInto breakpoint_state))
      = clamp (stepPc s) 0 (len (getOpcodeSteps (Some scenario_trace)) - 1).
Proof.
  assert (H1 : getSourceSteps (Some scenario_trace) ≠ []) by discriminate.
  assert (H2 : getOpcodeSteps (Some scenario_trace) ≠ []) by discriminate.
  assert (H3 : pcs_nondecreasing (getSourceSteps (Some scenario_trace))).
  { apply pcs_nondecreasingb_spec; reflexivity. }
  split; [exact H1|]; split; [exact H2|]; split; [exact H3|].
  apply (run_resynchronizes CmdStepInto breakpoint_state scenario_trace
           eq_refl H1 H2 H3); reflexivity.
Defined.

Lemma late_trace_pc_is_index : pc_is_index (getOpcodeSteps (Some late_trace)).
Proof.
  intros k o Hget; pose proof (js_get_Some _ _ _ Hget) as Hr.
  unfold len in Hr; simpl in Hr.
  assert (Hk : k = 0 ∨ k = 1 ∨ k = 2) by lia.
  destruct Hk as [-> | [-> | ->]]; injection Hget as <-; reflexivity.
Qed.

(** C6, as stated, fails: on the late trace (opcode pcs [0, 1, 2], one
    source step at pc 2) an opcode step back from the loaded position lands
    on opcode index 1 and source index 0, whose pc is 2: no source step has
    a pc at most 1, so the source index is not the last such index. *)
Lemma stepOpcode_source_index_not_last_le :
  trace (runTrace_loaded initial_state late_trace) = Some late_trace ∧
  getSourceSteps (Some late_trace) ≠ [] ∧
  getOpcodeSteps (Some late_trace) ≠ [] ∧
  pcs_nondecreasing (getSourceSteps (Some late_trace)) ∧
  opcodeStep (dbg (run (CmdOpcodeStep (-1))
                     (runTrace_loaded initial_state late_trace))) = 1 ∧
  sourceStep (dbg (run (CmdOpcodeStep (-1))
                     (runTrace_loaded initial_state late_trace))) = 0 ∧
  ¬ ∃ o,
      js_get (getOpcodeSteps (Some late_trace))
        (opcodeStep (dbg (run (CmdOpcodeStep (-1))
                            (runTrace_loaded initial_state late_trace))))
        = Some o ∧
      last_pc_le (getSourceSteps (Some late_trace)) (stepPc o)
        (sourceStep (dbg (run (CmdOpcodeStep (-1))
                            (runTrace_loaded initial_state late_trace)))).
Proof.
  split; [reflexivity|]; split; [discriminate|]; split; [discriminate|].
  split; [apply pcs_nondecreasingb_spec; reflexivity|].
  split; [reflexivity|]; split; [reflexivity|].
  intros (o & Hget & s & Hs & Hle & _).
  change (js_get (getOpcodeSteps (Some late_trace)) 1 = Some o) in Hget.
  change (js_get (getSourceSteps (Some late_trace)) 0 = Some s) in Hs.
  injection Hget as <-; injection Hs as <-.
  vm_compute in Hle; apply Hle; reflexivity.
Qed.

(** ** The round trip opcode index, source index, opcode index *)

(** C7 (as the code has it). On a trace whose opcode pcs equal their
    indices and whose source pcs are non-decreasing, for an in-range opcode
    index [i] such that some source step has a pc at most [i] (or there
    are no source steps), converting [i] to a source index and that source
    index back to an opcode index yields an opcode index at most [i]. *)
Theorem sync_round_trip_le (st : State) (t : Trace) (i : Z) :
  trace st = Some t →
  pc_is_index (getOpcodeSteps (Some t)) →
  pcs_nondecreasing (getSourceSteps (Some t)) →
  0 ≤ i < len (getOpcodeSteps (Some t)) →
  getSourceSteps (Some t) = [] ∨ some_pc_le (getSourceSteps (Some t)) i →
  (∀ s, js_get (getSourceSteps (Some t)) (sourceIndexFromOpcodeIndex st i)
          = Some s →
        clamp (stepPc s) 0 (len (getOpcodeSteps (Some t)) - 1) ≤ i)
  ∧ (opcodeStep (dbg st) = i →
     opcodeStep (dbg (syncOpcodeFromSource (syncSourceFromOpcode st))) ≤ i).
Proof.
  intros Ht Hidx Hsorted Hi Hsome.
  destruct (getSourceSteps (Some t)) as [|s0 l0] eqn:Hsrc.
  - split.
    + intros s Hget; apply js_get_Some in Hget.
      unfold len in Hget; simpl in Hget; lia.
    + intros Hop.
      rewrite (syncSourceFromOpcode_idle st t Ht Hsrc).
      rewrite (syncOpcodeFromSource_idle st t Ht (or_introl Hsrc)); lia.
  - destruct Hsome as [Habs|Hsome]; [discriminate|].
    assert (Hs : getSourceSteps (Some t) ≠ []) by (rewrite Hsrc; discriminate).
    assert (Ho : getOpcodeSteps (Some t) ≠ []).
    { intros He; rewrite He in Hi; unfold len in Hi; simpl in Hi; lia. }
    destruct (js_get_in_range _ _ Hi) as [o Hget].
    pose proof (Hidx i o Hget) as Hpc.
    assert (Hr : sourceIndexFromOpcodeIndex st i
                 = best_loop (getSourceSteps (Some t)) i 0 0).
    { rewrite (sourceIndexFromOpcodeIndex_at st t i o Ht Hs), Hpc;
        [reflexivity|].
      rewrite clamp_id by lia; exact Hget. }
    rewrite <- Hsrc in Hsome, Hsorted |- *.
    destruct (best_loop_sorted _ i Hsorted) as (Hlast & _).
    destruct (Hlast Hsome) as (s & Hs_get & Hs_le & _).
    assert (Hclamp : clamp (stepPc s) 0 (len (getOpcodeSteps (Some t)) - 1) ≤ i)
      by (unfold clamp; lia).
    split.
    + intros s' Hget'; rewrite Hr, Hs_get in Hget'.
      injection Hget' as <-; exact Hclamp.
    + intros Hop.
      set (st1 := syncSourceFromOpcode st).
      destruct (syncSourceFromOpcode_frame st) as (Ht1 & _).
      fold st1 in Ht1; rewrite Ht in Ht1.
      destruct (syncOpcodeFromSource_opcodeStep st1 t Ht1 Hs Ho)
        as (s' & Hget' & ->).
      unfold st1 in Hget'.
      rewrite (syncSourceFromOpcode_sourceStep st t Ht Hs), Hop, Hr in Hget'.
      pose proof (js_get_Some _ _ _ Hs_get).
      rewrite clamp_id, Hs_get in Hget' by lia.
      injection Hget' as <-; exact Hclamp.
Qed.

Lemma sync_round_trip_le_witness :
  pc_is_index (getOpcodeSteps (Some late_trace)) ∧
  pcs_nondecreasing (getSourceSteps (Some late_trace)) ∧
  0 ≤ 2 < len (getOpcodeSteps (Some late_trace)) ∧
  some_pc_le (getSourceSteps (Some late_trace)) 2 ∧
  opcodeStep (dbg (syncOpcodeFromSource
                     (syncSourceFromOpcode (set_opcodeStep 2 late_state))))
    ≤ 2.
Proof.
  assert (H1 : pcs_nondecreasing (getSourceSteps (Some late_trace))).
  { apply pcs_nondecreasingb_spec; reflexivity. }
  assert (H2 : 0 ≤ 2 < len (getOpcodeSteps (Some late_trace)))
    by (unfold len; simpl; lia).
  assert (H3 : some_pc_le (getSourceSteps (Some late_trace)) 2).
  { exists 0, (stepAt 2 0 0 1); split; [reflexivity|].
    vm_compute; discriminate. }
  split; [exact late_trace_pc_is_index|]; split; [exact H1|].
  split; [exact H2|]; split; [exact H3|].
  apply (sync_round_trip_le (set_opcodeStep 2 late_state) late_trace 2
           eq_refl late_trace_pc_is_index H1 H2 (or_intror H3)).
  reflexivity.
Defined.

(** C7, as stated, fails: on the late trace (opcode pcs [0, 1, 2], one
    source step at pc 2) opcode index 1 maps to source index 0, whose pc 2
    maps back to opcode index 2. *)
Lemma sync_round_trip_exceeds :
  trace late_state = Some late_trace ∧
  pc_is_index (getOpcodeSteps (Some late_trace)) ∧
  pcs_nondecreasing (getSourceSteps (Some late_trace)) ∧
  0 ≤ opcodeStep (dbg late_state) < len (getOpcodeSteps (Some late_trace)) ∧
  opcodeStep (dbg late_state) = 1 ∧
  sourceIndexFromOpcodeIndex late_state 1 = 0 ∧
  js_get (getSourceSteps (Some late_trace)) 0 = Some (stepAt 2 0 0 1) ∧
  clamp (stepPc (stepAt 2 0 0 1)) 0
    (len (getOpcodeSteps (Some late_trace)) - 1) = 2 ∧
  opcodeStep (dbg (syncOpcodeFromSource (syncSourceFromOpcode late_state)))
    = 2 ∧
  ¬ opcodeStep (dbg (syncOpcodeFromSource (syncSourceFromOpcode late_state)))
      ≤ opcodeStep (dbg late_state).
Proof.
  split; [reflexivity|]; split; [exact late_trace_pc_is_index|].
  split; [apply pcs_nondecreasingb_spec; reflexivity|].
  split; [unfold len; simpl; lia|].
  repeat (split; [reflexivity|]).
  vm_compute; intros H; apply H; reflexivity.
Qed.

(** ** Active-index resolution and rendering *)

Lemma getActiveStepIndex_bounds (st : State) (stps : list Step) :
  0 ≤ getActiveStepIndex st stps ≤ Z.max 0 (len stps - 1).
Proof.
  unfold getActiveStepIndex; destruct (mode (dbg st)); apply clamp_bounds; lia.
Qed.

Lemma setActiveStepIndex_frame (st : State) (idx : Z) :
  trace (setActiveStepIndex st idx) = trace st ∧
  mode (dbg (setActiveStepIndex st idx)) = mode (dbg st) ∧
  breakpoints (dbg (setActiveStepIndex st idx)) = breakpoints (dbg st) ∧
  storedActiveIndex (setActiveStepIndex st idx) = idx.
Proof.
  unfold setActiveStepIndex, storedActiveIndex.
  destruct (mode (dbg st)) eqn:Hm; simpl; rewrite ?Hm; auto.
Qed.

Lemma setActiveStepIndex_same (st : State) :
  setActiveStepIndex st (storedActiveIndex st) = st.
Proof.
  unfold setActiveStepIndex, storedActiveIndex.
  destruct (mode (dbg st)); apply state_eta.
Qed.

Lemma getActiveSteps_ext (st st' : State) :
  trace st' = trace st → mode (dbg st') = mode (dbg st) →
  getActiveSteps st' = getActiveSteps st.
Proof. unfold getActiveSteps; intros -> ->; reflexivity. Qed.

Lemma getActiveStepIndex_stored (st : State) (stps : list Step) :
  getActiveStepIndex st stps
    = clamp (storedActiveIndex st) 0 (Z.max 0 (len stps - 1)).
Proof.
  unfold getActiveStepIndex, storedActiveIndex.
  destruct (mode (dbg st)); reflexivity.
Qed.

(** The cursor is settled when its stored active index is already the
    clamped one. *)
Lemma activeSnapshot_settled (st : State) :
  getActiveStepIndex st (getActiveSteps st) = storedActiveIndex st →
  snd (activeSnapshot st) = st.
Proof.
  intros H; unfold activeSnapshot.
  destruct (len (getActiveSteps st) =? 0); [reflexivity|].
  cbv zeta; cbn [snd]; rewrite H; apply setActiveStepIndex_same.
Qed.

Lemma activeSnapshot_frame (st : State) :
  trace (snd (activeSnapshot st)) = trace st ∧
  mode (dbg (snd (activeSnapshot st))) = mode (dbg st) ∧
  breakpoints (dbg (snd (activeSnapshot st))) = breakpoints (dbg st).
Proof.
  unfold activeSnapshot.
  destruct (len (getActiveSteps st) =? 0); [auto|].
  cbv zeta; cbn [snd].
  destruct (setActiveStepIndex_frame st
              (getActiveStepIndex st (getActiveSteps st))) as (? & ? & ? & _).
  auto.
Qed.

Lemma updateEditorDecorations_frame (st : State) (snap : option Step)
    (kind : option TintKind) :
  trace (updateEditorDecorations st snap kind) = trace st ∧
  cursor (updateEditorDecorations st snap kind) = cursor st.
Proof.
  unfold updateEditorDecorations.
  destruct snap as [s|]; [|split; reflexivity].
  destruct kind as [k|]; [|split; reflexivity].
  destruct (trace st) as [t|] eqn:Ht; [|split; [exact Ht | reflexivity]].
  destruct (frameSpanForFrame _ _); split; solve [exact Ht | reflexivity].
Qed.

Lemma cursor_inv (st st' : State) :
  cursor st' = cursor st →
  mode (dbg st') = mode (dbg st) ∧
  sourceStep (dbg st') = sourceStep (dbg st) ∧
  opcodeStep (dbg st') = opcodeStep (dbg st) ∧
  breakpoints (dbg st') = breakpoints (dbg st).
Proof. unfold cursor; intros [= -> -> -> ->]; auto. Qed.

Lemma settled_ext (st st' : State) :
  trace st' = trace st → cursor st' = cursor st →
  getActiveStepIndex st (getActiveSteps st) = storedActiveIndex st →
  getActiveStepIndex st' (getActiveSteps st') = storedActiveIndex st'.
Proof.
  intros Ht Hc%cursor_inv; destruct Hc as (Hm & Hs & Ho & _).
  rewrite (getActiveSteps_ext st st' Ht Hm), !getActiveStepIndex_stored.
  unfold storedActiveIndex; rewrite Hm, Hs, Ho; auto.
Qed.

(** Rendering a settled cursor whose mode agrees with the sequences the
    trace has does not move it. *)
Lemma renderDbg_settled (st : State) (t : Trace) :
  trace st = Some t →
  (mode (dbg st) = SourceMode → getSourceSteps (Some t) ≠ []) →
  (mode (dbg st) = OpcodeMode → getSourceSteps (Some t) = []) →
  getActiveStepIndex st (getActiveSteps st) = storedActiveIndex st →
  trace (renderDbg st) = Some t ∧ cursor (renderDbg st) = cursor st.
Proof.
  intros Ht Hsrc Hop Hset; unfold renderDbg; rewrite Ht.
  assert (H1 : (if bool_decide (mode (dbg st) = SourceMode)
                     && (len (getSourceSteps (Some t)) =? 0)
                then set_mode OpcodeMode st else st) = st).
  { destruct (bool_decide_reflect (mode (dbg st) = SourceMode)) as [Hm|Hm];
      [|reflexivity].
    apply Hsrc, len_nonzero in Hm; rewrite Hm; reflexivity. }
  cbv zeta; rewrite H1.
  assert (H2 : (if bool_decide (mode (dbg st) = OpcodeMode)
                     && (len (getOpcodeSteps (Some t)) =? 0)
                then set_mode
                       (if len (getSourceSteps (Some t)) =? 0
                        then OpcodeMode else SourceMode) st
                else st) = st).
  { destruct (bool_decide_reflect (mode (dbg st) = OpcodeMode)) as [Hm|Hm];
      [|reflexivity].
    destruct (len (getOpcodeSteps (Some t)) =? 0); [|reflexivity].
    cbn [andb]; pose proof (Hop Hm) as He; apply len_zero in He; rewrite He.
    rewrite <- Hm; apply set_mode_same. }
  rewrite H2.
  destruct (len (getActiveSteps st) =? 0).
  { rewrite <- Ht; apply updateEditorDecorations_frame. }
  rewrite Hset, setActiveStepIndex_same.
  destruct (js_get (getActiveSteps st) (storedActiveIndex st)) as [snap|];
    [|split; [exact Ht | reflexivity]].
  match goal with |- context [updateEditorDecorations st ?a ?b] =>
    destruct (updateEditorDecorations_frame st a b) as (Ht4 & Hc4);
    set (st4 := updateEditorDecorations st a b) in * end.
  pose proof (settled_ext st st4 Ht4 Hc4 Hset) as Hset4.
  unfold scrollEditorToActive, renderEditorGutter.
  rewrite (activeSnapshot_settled st4 Hset4), (activeSnapshot_settled st4 Hset4).
  split; [rewrite Ht4; exact Ht | exact Hc4].
Qed.

(** ** Installing a trace *)

Lemma resetDbgCursor_installed (st0 st : State) (t : Trace) :
  trace st = Some t → breakpoints (dbg st) = breakpoints (dbg st0) →
  installed st0 t (resetDbgCursor st).
Proof.
  intros Ht Hb; unfold resetDbgCursor; rewrite Ht; cbv zeta.
  set (m := if len (getSourceSteps (Some t)) =? 0
            then OpcodeMode else SourceMode).
  set (st3 := set_mode m (set_opcodeStep 0 (set_sourceStep 0 st))).
  assert (Ht3 : trace st3 = Some t) by exact Ht.
  assert (Hm3 : mode (dbg st3) = m) by reflexivity.
  assert (Hs3 : sourceStep (dbg st3) = 0) by reflexivity.
  assert (Ho3 : opcodeStep (dbg st3) = 0) by reflexivity.
  assert (Hb3 : breakpoints (dbg st3) = breakpoints (dbg st0)) by exact Hb.
  assert (Hmode :
    (getSourceSteps (Some t) ≠ [] → m = SourceMode) ∧
    (getSourceSteps (Some t) = [] → m = OpcodeMode)).
  { unfold m; split; [intros H%len_nonzero | intros H%len_zero];
      rewrite H; reflexivity. }
  clearbody st3 m.
  destruct (len (getSourceSteps (Some t)) =? 0) eqn:Hlen; cbn [negb andb].
  { apply len_zero in Hlen; unfold installed.
    split; [exact Ht3|]; split; [exact Hs3|]; split; [intros _; exact Ho3|].
    split; [intros s _ Hget; rewrite Hlen in Hget; discriminate Hget|].
    split; [congruence|]; split; [rewrite Hm3; apply Hmode|exact Hb3]. }
  apply len_nonzero in Hlen; rename Hlen into Hs.
  destruct (len (getOpcodeSteps (Some t)) =? 0) eqn:Hleno; cbn [negb].
  { apply len_zero in Hleno; unfold installed.
    split; [exact Ht3|]; split; [exact Hs3|]; split; [intros _; exact Ho3|].
    split; [intros s Hne; congruence|].
    split; [rewrite Hm3; apply Hmode|]; split; [congruence|exact Hb3]. }
  apply len_nonzero in Hleno; rename Hleno into Ho.
  destruct (syncOpcodeFromSource_frame st3) as (Ht4 & Hm4 & Hs4 & Hb4).
  destruct (syncOpcodeFromSource_opcodeStep st3 t Ht3 Hs Ho) as (s & Hget & Hop).
  rewrite Hs3, clamp_id in Hget by (pose proof (len_pos _ Hs); lia).
  unfold installed.
  split; [rewrite Ht4; exact Ht3|]; split; [rewrite Hs4; exact Hs3|].
  split; [intros [H|H]; congruence|].
  split; [intros s' _ Hget'; rewrite Hget in Hget'; injection Hget' as <-;
          exact Hop|].
  split; [intros _; rewrite Hm4, Hm3; apply Hmode; exact Hs|].
  split; [congruence | rewrite Hb4; exact Hb3].
Qed.

Lemma installed_settled (st0 st : State) (t : Trace) :
  installed st0 t st →
  (mode (dbg st) = SourceMode → getSourceSteps (Some t) ≠ []) ∧
  (mode (dbg st) = OpcodeMode → getSourceSteps (Some t) = []) ∧
  getActiveStepIndex st (getActiveSteps st) = storedActiveIndex st.
Proof.
  intros (Ht & Hs & Hz & Hpc & Hms & Hmo & _).
  assert (Hsrc : mode (dbg st) = SourceMode → getSourceSteps (Some t) ≠ []).
  { intros Hm He; rewrite (Hmo He) in Hm; discriminate. }
  assert (Hopc : mode (dbg st) = OpcodeMode → getSourceSteps (Some t) = []).
  { intros Hm; destruct (getSourceSteps (Some t)) eqn:E; [reflexivity|].
    rewrite Hms in Hm by discriminate; discriminate. }
  split; [exact Hsrc|]; split; [exact Hopc|].
  rewrite getActiveStepIndex_stored; unfold storedActiveIndex.
  destruct (mode (dbg st)) eqn:Hm.
  - rewrite Hs; unfold clamp; lia.
  - rewrite Hz by (left; apply Hopc; reflexivity); unfold clamp; lia.
Qed.

Lemma installed_ext (st0 st st' : State) (t : Trace) :
  trace st' = Some t → cursor st' = cursor st →
  installed st0 t st → installed st0 t st'.
Proof.
  intros Ht Hc%cursor_inv (_ & H); destruct Hc as (Hm & Hs & Ho & Hb).
  unfold installed; rewrite Hm, Hs, Ho, Hb; split; [exact Ht | exact H].
Qed.

(** C2 (as the code has it). Installing a trace, by [resetDbgCursor] alone
    or through the whole success path of [runTrace], sets the source index
    to [0], sets the opcode index to the pc of the first source step
    clamped into [0 .. opcodeSteps.length - 1] when both sequences have
    steps and to [0] otherwise, sets the mode to source when source steps
    exist and to opcode otherwise, and keeps the breakpoint set. *)
Theorem trace_install_cursor (st : State) (t : Trace) :
  installed st t (resetDbgCursor (set_trace (Some t) st)) ∧
  installed st t (runTrace_loaded st t).
Proof.
  split.
  - apply resetDbgCursor_installed; reflexivity.
  - unfold runTrace_loaded; cbv zeta.
    set (st2 := renderEditorGutter (set_trace (Some t) st)).
    assert (Hst2 : trace st2 = Some t ∧
                   breakpoints (dbg st2) = breakpoints (dbg st)).
    { destruct (activeSnapshot_frame (set_trace (Some t) st))
        as (H1 & _ & H3); split; [exact H1 | exact H3]. }
    destruct Hst2 as (Ht2 & Hb2).
    pose proof (resetDbgCursor_installed st st2 t Ht2 Hb2) as Hinst.
    set (st3 := resetDbgCursor st2) in *.
    destruct (installed_settled st st3 t Hinst) as (Hsrc & Hopc & Hset).
    assert (Ht3 : trace st3 = Some t) by apply Hinst.
    destruct (renderDbg_settled st3 t Ht3 Hsrc Hopc Hset) as (Ht4 & Hc4).
    assert (Hset4 : getActiveStepIndex (renderDbg st3)
                      (getActiveSteps (renderDbg st3))
                    = storedActiveIndex (renderDbg st3)).
    { apply (settled_ext st3); [rewrite Ht4, Ht3; reflexivity | exact Hc4
                               | exact Hset]. }
    unfold scrollEditorToActive; rewrite (activeSnapshot_settled _ Hset4).
    apply (installed_ext st st3); assumption.
Qed.

(** C2, as stated, fails: on a trace whose first source step is at pc 3,
    among five opcode steps, the installed opcode index is 3, not 0. *)
Lemma trace_install_opcode_index_nonzero :
  opcodeStep (dbg (resetDbgCursor (set_trace (Some prologue_trace)
                                     initial_state))) = 3 ∧
  opcodeStep (dbg (runTrace_loaded initial_state prologue_trace)) = 3 ∧
  ¬ (sourceStep (dbg (runTrace_loaded initial_state prologue_trace)) = 0 ∧
     opcodeStep (dbg (runTrace_loaded initial_state prologue_trace)) = 0).
Proof.
  split; [reflexivity|]; split; [reflexivity|].
  intros (_ & H); vm_compute in H; discriminate H.
Qed.

(** ** Clamping and idling *)

Lemma activeSnapshot_unfold (st : State) :
  getActiveSteps st ≠ [] →
  activeSnapshot st =
  (js_get (getActiveSteps st) (getActiveStepIndex st (getActiveSteps st)),
   setActiveStepIndex st (getActiveStepIndex st (getActiveSteps st))).
Proof.
  intros H%len_nonzero; unfold activeSnapshot; rewrite H; reflexivity.
Qed.

Lemma stepSourceWith_idle (next : list Step → Z → Z) (st : State) :
  getSourceSteps (trace st) = [] → stepSourceWith next st = st.
Proof.
  unfold stepSourceWith; destruct (trace st) as [t|]; [|reflexivity].
  intros H%len_zero; rewrite H; reflexivity.
Qed.

Lemma stepOpcode_idle (st : State) (delta : Z) :
  getOpcodeSteps (trace st) = [] → stepOpcode st delta = st.
Proof.
  unfold stepOpcode; destruct (trace st) as [t|]; [|reflexivity].
  intros H%len_zero; rewrite H; reflexivity.
Qed.

(** C9 (as the code has it). Whatever the cursor stores, when the active
    sequence has steps the active index is within [0 .. len - 1], the
    snapshot is the step there, the clamped index is written back and a
    second read returns the same snapshot and state. Without a trace every
    command leaves the state as it is; so do Step Into, Step Over and Step
    Out without source steps and an opcode step without opcode steps.
    Continue on a trace without any step keeps the source index and the
    breakpoints and puts the cursor in opcode mode at opcode index [0],
    which changes nothing from that position. *)
Theorem cursor_clamps_and_idles (st : State) :
  (getActiveSteps st ≠ [] →
     0 ≤ getActiveStepIndex st (getActiveSteps st)
       ≤ len (getActiveSteps st) - 1 ∧
     fst (activeSnapshot st)
       = js_get (getActiveSteps st)
           (getActiveStepIndex st (getActiveSteps st)) ∧
     is_Some (fst (activeSnapshot st)) ∧
     storedActiveIndex (snd (activeSnapshot st))
       = getActiveStepIndex st (getActiveSteps st) ∧
     getActiveStepIndex (snd (activeSnapshot st))
         (getActiveSteps (snd (activeSnapshot st)))
       = getActiveStepIndex st (getActiveSteps st) ∧
     activeSnapshot (snd (activeSnapshot st))
       = (fst (activeSnapshot st), snd (activeSnapshot st)))
  ∧ (trace st = None → ∀ c, run c st = st)
  ∧ (getSourceSteps (trace st) = [] →
       stepIntoSource st = st ∧ stepOverSource st = st ∧
       stepOutSource st = st)
  ∧ (getOpcodeSteps (trace st) = [] → ∀ delta, stepOpcode st delta = st)
  ∧ (trace st ≠ None →
     getSourceSteps (trace st) = [] → getOpcodeSteps (trace st) = [] →
       trace (continueExecution st) = trace st ∧
       cursor (continueExecution st)
         = (OpcodeMode, sourceStep (dbg st), 0, breakpoints (dbg st)) ∧
       (mode (dbg st) = OpcodeMode → opcodeStep (dbg st) = 0 →
          continueExecution st = st)).
Proof.
  split; [|split; [|split; [|split]]].
  - intros Hne.
    pose proof (len_pos _ Hne) as Hlen.
    pose proof (getActiveStepIndex_bounds st (getActiveSteps st)) as Hb.
    rewrite (activeSnapshot_unfold st Hne); cbn [fst snd].
    set (idx := getActiveStepIndex st (getActiveSteps st)) in *.
    destruct (setActiveStepIndex_frame st idx) as (Ht & Hm & _ & Hstored).
    pose proof (getActiveSteps_ext st _ Ht Hm) as Hsteps.
    assert (Hidx : getActiveStepIndex (setActiveStepIndex st idx)
                     (getActiveSteps (setActiveStepIndex st idx)) = idx).
    { rewrite getActiveStepIndex_stored, Hstored, Hsteps.
      apply clamp_id; lia. }
    split; [lia|]; split; [reflexivity|].
    split; [destruct (js_get_in_range (getActiveSteps st) idx) as [x Hx];
            [lia | rewrite Hx; eexists; reflexivity]|].
    split; [exact Hstored|]; split; [exact Hidx|].
    rewrite activeSnapshot_unfold by (rewrite Hsteps; exact Hne).
    rewrite Hidx, Hsteps.
    pose proof (setActiveStepIndex_same (setActiveStepIndex st idx)) as Hsame.
    rewrite Hstored in Hsame; rewrite Hsame; reflexivity.
  - intros Hnone c.
    destruct c; cbn [run];
      unfold stepIntoSource, stepOverSource, stepOutSource, stepSourceWith,
        stepOpcode, continueExecution; rewrite Hnone; reflexivity.
  - intros Hs; repeat split; apply stepSourceWith_idle; exact Hs.
  - intros Ho delta; apply stepOpcode_idle; exact Ho.
  - intros Ht Hs Ho; unfold continueExecution.
    destruct (trace st) as [t|] eqn:Htr; [|congruence].
    apply len_zero in Hs; rewrite Hs; cbn [negb].
    cbv zeta; rewrite Ho.
    change (Z.max 0 (len ([] : list Step) - 1)) with 0.
    split; [exact Htr|]; split; [reflexivity|].
    intros Hm Hop.
    rewrite <- Hm, set_mode_same, <- Hop, set_opcodeStep_same; reflexivity.
Qed.

Lemma cursor_clamps_and_idles_witness :
  getActiveSteps breakpoint_state ≠ [] ∧
  0 ≤ getActiveStepIndex (set_sourceStep 17 breakpoint_state)
        (getActiveSteps (set_sourceStep 17 breakpoint_state))
    ≤ len (getActiveSteps (set_sourceStep 17 breakpoint_state)) - 1 ∧
  storedActiveIndex (snd (activeSnapshot (set_sourceStep 17 breakpoint_state)))
    = 2 ∧
  stepOpcode idle_state 1 = idle_state.
Proof.
  assert (H1 : getActiveSteps (set_sourceStep 17 breakpoint_state) ≠ [])
    by discriminate.
  destruct (cursor_clamps_and_idles (set_sourceStep 17 breakpoint_state))
    as (Hactive & _).
  destruct (Hactive H1) as (Hr & _ & _ & Hst & _).
  destruct (cursor_clamps_and_idles idle_state) as (_ & _ & _ & Hop & _).
  split; [discriminate|]; split; [exact Hr|].
  split; [rewrite Hst; reflexivity | apply Hop; reflexivity].
Defined.

(** C9, as stated, fails for Continue: on a loaded trace without any step
    it moves a cursor in source mode to opcode mode, and on a loaded trace
    without source steps it moves the opcode cursor from the loaded
    position [0] to the last opcode index. *)
Lemma continueExecution_moves_idle_cursor :
  getSourceSteps (trace idle_state) = [] ∧
  getOpcodeSteps (trace idle_state) = [] ∧
  mode (dbg idle_state) = SourceMode ∧
  mode (dbg (continueExecution idle_state)) = OpcodeMode ∧
  continueExecution idle_state ≠ idle_state ∧
  getSourceSteps (Some opcode_only_trace) = [] ∧
  opcodeStep (dbg (runTrace_loaded initial_state opcode_only_trace)) = 0 ∧
  opcodeStep (dbg (continueExecution
                     (runTrace_loaded initial_state opcode_only_trace))) = 2 ∧
  continueExecution (runTrace_loaded initial_state opcode_only_trace)
    ≠ runTrace_loaded initial_state opcode_only_trace.
Proof.
  repeat (split; [reflexivity|]).
  split; [intros H; apply (f_equal (fun s => mode (dbg s))) in H;
          discriminate H|].
  repeat (split; [reflexivity|]).
  intros H; apply (f_equal (fun s => opcodeStep (dbg s))) in H.
  vm_compute in H; discriminate H.
Qed.

(** ** The frame span *)

Lemma truthy_spec (z : Z) : truthy z = true ↔ z ≠ 0.
Proof.
  unfold truthy; destruct (Z.eqb_spec z 0); simpl; split; congruence.
Qed.

Lemma num_or_nonzero (x : option Z) (d : Z) : d ≠ 0 → num_or x d ≠ 0.
Proof.
  intros Hd; unfold num_or; destruct x as [v|]; [|exact Hd].
  destruct (truthy v) eqn:Hv; [apply truthy_spec; exact Hv | exact Hd].
Qed.

Lemma carries_span_fun (f : Z) (s : Step) (ln en ln' en' : Z) :
  carries_span f s ln en → carries_span f s ln' en' → ln = ln' ∧ en = en'.
Proof.
  intros (mp & sp & Hm & Hsp & _ & -> & ->)
         (mp' & sp' & Hm' & Hsp' & _ & -> & ->).
  rewrite Hm in Hm'; injection Hm' as <-.
  rewrite Hsp in Hsp'; injection Hsp' as <-; auto.
Qed.

(** One iteration either skips the step or widens the interval by its
    span. *)
Lemma frameSpanStep_cases (f : Z) (acc : Z * Z) (s : Step) :
  (frameSpanStep f acc s = acc ∧
   ∀ ln en, carries_span f s ln en → ln = 0)
  ∨ (∃ ln en,
       carries_span f s ln en ∧ ln ≠ 0 ∧ en ≠ 0 ∧
       frameSpanStep f acc s
         = (if negb (truthy (fst acc)) || (ln <? fst acc)
            then ln else fst acc,
            if negb (truthy (snd acc)) || (en >? snd acc)
            then en else snd acc)).
Proof.
  unfold frameSpanStep.
  destruct (mapping s) as [mp|] eqn:Hm.
  2:{ left; split; [reflexivity|].
      intros ln en (mp & sp & Hm' & _); congruence. }
  destruct (span mp) as [sp|] eqn:Hsp.
  2:{ left; split; [reflexivity|].
      intros ln en (mp' & sp & Hm' & Hsp' & _); congruence. }
  destruct (bool_decide_reflect (frameIdFromStep (Some s) = Some f))
    as [Hf|Hf]; cbn [negb].
  2:{ left; split; [reflexivity|].
      intros ln en (mp' & sp' & _ & _ & Hf' & _); contradiction. }
  assert (Hln : num_or (Some (line sp)) 0 = line sp).
  { rewrite num_or_zero; reflexivity. }
  cbv zeta; rewrite Hln.
  destruct (truthy (line sp)) eqn:Ht; cbn [negb].
  - right; exists (line sp), (num_or (end_line sp) (line sp)).
    apply truthy_spec in Ht.
    split; [exists mp, sp; auto|].
    split; [exact Ht|]; split; [apply num_or_nonzero; exact Ht|reflexivity].
  - left; split; [reflexivity|].
    intros ln en (mp' & sp' & Hm' & Hsp' & _ & -> & _).
    rewrite Hm in Hm'; injection Hm' as <-.
    rewrite Hsp in Hsp'; injection Hsp' as <-.
    unfold truthy in Ht; destruct (Z.eqb_spec (line sp) 0); [assumption|].
    discriminate.
Qed.

(** The loop invariant of [frameSpanForFrame]: nothing counted yet and
    both bounds [0], or both bounds are the extreme lines of the counted
    spans. *)
Lemma frameSpan_fold (f : Z) (l : list Step) :
  (fold_left (frameSpanStep f) l (0, 0) = (0, 0) ∧
   ∀ s ln en, s ∈ l → carries_span f s ln en → ln = 0)
  ∨ (fst (fold_left (frameSpanStep f) l (0, 0)) ≠ 0 ∧
     snd (fold_left (frameSpanStep f) l (0, 0)) ≠ 0 ∧
     (∀ s ln en, s ∈ l → carries_span f s ln en → ln ≠ 0 →
        fst (fold_left (frameSpanStep f) l (0, 0)) ≤ ln ∧
        en ≤ snd (fold_left (frameSpanStep f) l (0, 0))) ∧
     (∃ s ln en, s ∈ l ∧ carries_span f s ln en ∧ ln ≠ 0 ∧
        fst (fold_left (frameSpanStep f) l (0, 0)) = ln) ∧
     (∃ s ln en, s ∈ l ∧ carries_span f s ln en ∧ ln ≠ 0 ∧
        snd (fold_left (frameSpanStep f) l (0, 0)) = en)).
Proof.
  induction l as [|x l IH] using rev_ind.
  - left; split; [reflexivity|].
    intros s ln en Hin; apply elem_of_nil in Hin; contradiction.
  - rewrite fold_left_app; cbn [fold_left].
    set (acc := fold_left (frameSpanStep f) l (0, 0)) in *.
    destruct (frameSpanStep_cases f acc x)
      as [(Heq & Hskip)|(ln & en & Hc & Hln & Hen & Heq)]; rewrite Heq.
    + destruct IH as [(Hz & Hnone)|(Ha & Hb & Hcov & Hmin & Hmax)].
      * left; split; [exact Hz|].
        intros s ln en [Hin|Hin%list_elem_of_singleton]%elem_of_app Hcs.
        -- apply (Hnone s ln en Hin Hcs).
        -- subst s; apply (Hskip ln en Hcs).
      * right; split; [exact Ha|]; split; [exact Hb|]; split; [|split].
        -- intros s ln en [Hin|Hin%list_elem_of_singleton]%elem_of_app Hcs Hnz.
           ++ apply (Hcov s ln en Hin Hcs Hnz).
           ++ subst s; pose proof (Hskip ln en Hcs); contradiction.
        -- destruct Hmin as (s & ln & en & Hin & Hrest).
           exists s, ln, en; split; [apply elem_of_app; left; exact Hin|].
           exact Hrest.
        -- destruct Hmax as (s & ln & en & Hin & Hrest).
           exists s, ln, en; split; [apply elem_of_app; left; exact Hin|].
           exact Hrest.
    + assert (Hx : x ∈ l ++ [x]).
      { apply elem_of_app; right; apply list_elem_of_singleton; reflexivity. }
      right; cbn [fst snd].
      destruct IH as [(Hz & Hnone)|(Ha & Hb & Hcov & Hmin & Hmax)].
      * rewrite Hz; cbn [fst snd truthy Z.eqb negb orb].
        split; [exact Hln|]; split; [exact Hen|]; split; [|split].
        -- intros s ln' en' [Hin|Hin%list_elem_of_singleton]%elem_of_app
             Hcs Hnz.
           ++ pose proof (Hnone s ln' en' Hin Hcs); contradiction.
           ++ subst s; destruct (carries_span_fun f x _ _ _ _ Hc Hcs); lia.
        -- exists x, ln, en; auto.
        -- exists x, ln, en; auto.
      * apply truthy_spec in Ha as Hta; apply truthy_spec in Hb as Htb.
        rewrite Hta, Htb; cbn [negb orb].
        destruct (Z.ltb_spec ln (fst acc)) as [Hlt|Hge];
          destruct (Z.gtb_spec en (snd acc)) as [Hgt|Hle].
        all: split; [assumption|]; split; [assumption|]; split; [|split].
        all: try (intros s ln' en'
                    [Hin|Hin%list_elem_of_singleton]%elem_of_app Hcs Hnz;
                  [pose proof (Hcov s ln' en' Hin Hcs Hnz); lia
                  |subst s; destruct (carries_span_fun f x _ _ _ _ Hc Hcs);
                   lia]).
        all: try (exists x, ln, en; split; [exact Hx|]; auto; fail).
        all: try (destruct Hmin as (s & ln' & en' & Hin & Hrest);
                  exists s, ln', en';
                  split; [apply elem_of_app; left; exact Hin|exact Hrest];
                  fail).
        all: destruct Hmax as (s & ln' & en' & Hin & Hrest);
             exists s, ln', en';
             split; [apply elem_of_app; left; exact Hin|exact Hrest].
Qed.

Lemma frameSpanForFrame_spec (f : Z) (l : list Step) :
  lines_one_based l →
  ((∀ s ln en, s ∈ l → ¬ carries_span f s ln en) →
     frameSpanForFrame l (Some f) = None)
  ∧ ((∃ s ln en, s ∈ l ∧ carries_span f s ln en) →
     ∃ sp,
       frameSpanForFrame l (Some f) = Some sp ∧
       covers_spans f l (startLine sp) (endLine sp) ∧
       ∀ a b, covers_spans f l a b → a ≤ startLine sp ∧ endLine sp ≤ b).
Proof.
  intros Hlines.
  assert (Hnz : ∀ s ln en, s ∈ l → carries_span f s ln en → ln ≠ 0).
  { intros s ln en Hin (mp & sp & Hm & Hsp & _ & -> & _).
    apply (Hlines s mp sp Hin Hm Hsp). }
  unfold frameSpanForFrame; cbv zeta.
  destruct (frameSpan_fold f l)
    as [(Hz & Hnone)|(Ha & Hb & Hcov & Hmin & Hmax)].
  - rewrite Hz; cbn [fst snd truthy Z.eqb negb orb].
    split; [reflexivity|].
    intros (s & ln & en & Hin & Hcs); exfalso.
    apply (Hnz s ln en Hin Hcs), (Hnone s ln en Hin Hcs).
  - apply truthy_spec in Ha as Hta; apply truthy_spec in Hb as Htb.
    rewrite Hta, Htb; cbn [negb orb].
    split.
    + intros Hno; exfalso.
      destruct Hmin as (s & ln & en & Hin & Hcs & _).
      apply (Hno s ln en Hin Hcs).
    + intros _; eexists; split; [reflexivity|]; cbn [startLine endLine].
      split.
      * intros s ln en Hin Hcs; apply (Hcov s ln en Hin Hcs).
        apply (Hnz s ln en Hin Hcs).
      * intros a b Hab.
        destruct Hmin as (s1 & ln1 & en1 & Hin1 & Hcs1 & _ & ->).
        destruct Hmax as (s2 & ln2 & en2 & Hin2 & Hcs2 & _ & ->).
        pose proof (Hab s1 ln1 en1 Hin1 Hcs1).
        pose proof (Hab s2 ln2 en2 Hin2 Hcs2).
        lia.
Qed.

Lemma updateEditorDecorations_tint (st : State) (t : Trace) (snap : Step)
    (k : TintKind) :
  trace st = Some t →
  (frameSpanForFrame (getSourceSteps (Some t))
     (match k with Pass => Some 0 | Fail => frameIdFromStep (Some snap) end)
     = None →
   fnTintSpan (dbg (updateEditorDecorations st (Some snap) (Some k))) = None ∧
   fnTintKind (dbg (updateEditorDecorations st (Some snap) (Some k))) = None)
  ∧ (∀ sp,
       frameSpanForFrame (getSourceSteps (Some t))
         (match k with Pass => Some 0 | Fail => frameIdFromStep (Some snap) end)
         = Some sp →
       fnTintSpan (dbg (updateEditorDecorations st (Some snap) (Some k)))
         = Some sp ∧
       fnTintKind (dbg (updateEditorDecorations st (Some snap) (Some k)))
         = Some k).
Proof.
  intros Ht; unfold updateEditorDecorations; rewrite Ht; cbv zeta.
  split.
  - intros ->; split; reflexivity.
  - intros sp ->; split; reflexivity.
Qed.

(** C8. With a trace loaded, an active step and a frame tint kind, the
    decoration deriver targets frame id [0] for [Pass] and the active
    step's own frame id otherwise. When some source step carries the
    target frame id and a span, the frame span is the minimal interval
    [startLine .. endLine] that covers the span of every such source step,
    and the tint is of the given kind; when no source step does, there is
    no frame span and no tint. Line numbers are 1-based. *)
Theorem updateEditorDecorations_frame_span (st : State) (t : Trace)
    (snap : Step) (k : TintKind) (target : option Z) :
  trace st = Some t →
  lines_one_based (getSourceSteps (Some t)) →
  (k = Pass → target = Some 0) →
  (k = Fail → target = frameIdFromStep (Some snap)) →
  fnTintSpan (dbg (updateEditorDecorations st (Some snap) (Some k)))
    = frameSpanForFrame (getSourceSteps (Some t)) target
  ∧ ((∀ f s ln en, target = Some f → s ∈ getSourceSteps (Some t) →
                   ¬ carries_span f s ln en) →
     fnTintSpan (dbg (updateEditorDecorations st (Some snap) (Some k)))
       = None ∧
     fnTintKind (dbg (updateEditorDecorations st (Some snap) (Some k)))
       = None)
  ∧ (∀ f, target = Some f →
       (∃ s ln en, s ∈ getSourceSteps (Some t) ∧ carries_span f s ln en) →
       ∃ sp,
         fnTintSpan (dbg (updateEditorDecorations st (Some snap) (Some k)))
           = Some sp ∧
         fnTintKind (dbg (updateEditorDecorations st (Some snap) (Some k)))
           = Some k ∧
         covers_spans f (getSourceSteps (Some t))
           (startLine sp) (endLine sp) ∧
         ∀ a b, covers_spans f (getSourceSteps (Some t)) a b →
                a ≤ startLine sp ∧ endLine sp ≤ b).
Proof.
  intros Ht Hlines Hpass Hfail.
  assert (Htarget : target
            = match k with
              | Pass => Some 0
              | Fail => frameIdFromStep (Some snap)
              end).
  { destruct k; [apply Hpass | apply Hfail]; reflexivity. }
  destruct (updateEditorDecorations_tint st t snap k Ht) as (Hnone & Hsome).
  rewrite <- Htarget in Hnone, Hsome.
  split; [|split].
  - destruct (frameSpanForFrame (getSourceSteps (Some t)) target) as [sp|].
    + apply (Hsome sp); reflexivity.
    + apply Hnone; reflexivity.
  - intros Hno; apply Hnone.
    destruct target as [f|]; [|reflexivity].
    apply (frameSpanForFrame_spec f _ Hlines).
    intros s ln en Hin; apply (Hno f s ln en eq_refl Hin).
  - intros f -> Hex.
    destruct (frameSpanForFrame_spec f _ Hlines) as (_ & Hspan).
    destruct (Hspan Hex) as (sp & Heq & Hcov & Hmin).
    exists sp; destruct (Hsome sp Heq) as (H1 & H2).
    split; [exact H1|]; split; [exact H2|]; split; assumption.
Qed.

Lemma depth_steps_one_based : lines_one_based depth_steps.
Proof.
  intros s mp sp Hin Hm Hsp; unfold depth_steps in Hin.
  repeat (apply elem_of_cons in Hin as [-> | Hin]);
    try (apply elem_of_nil in Hin; contradiction);
    injection Hm as <-; injection Hsp as <-; discriminate.
Defined.

Lemma updateEditorDecorations_frame_span_witness :
  lines_one_based (getSourceSteps (Some frames_trace)) ∧
  fnTintSpan
    (dbg (updateEditorDecorations
            {| trace := Some frames_trace; dbg := initial_dbg |}
            (Some (stepAt 8 0 0 2)) (Some Pass)))
    = Some {| startLine := 1; endLine := 2 |} ∧
  ∃ sp,
    fnTintSpan
      (dbg (updateEditorDecorations
              {| trace := Some frames_trace; dbg := initial_dbg |}
              (Some (stepAt 8 0 0 2)) (Some Pass))) = Some sp ∧
    fnTintKind
      (dbg (updateEditorDecorations
              {| trace := Some frames_trace; dbg := initial_dbg |}
              (Some (stepAt 8 0 0 2)) (Some Pass))) = Some Pass ∧
    covers_spans 0 (getSourceSteps (Some frames_trace))
      (startLine sp) (endLine sp).
Proof.
  split; [exact depth_steps_one_based|]; split; [reflexivity|].
  destruct (updateEditorDecorations_frame_span
              {| trace := Some frames_trace; dbg := initial_dbg |}
              frames_trace (stepAt 8 0 0 2) Pass (Some 0) eq_refl
              depth_steps_one_based (fun _ => eq_refl)
              (fun H => match H with end)) as (_ & _ & Hspan).
  - destruct (Hspan 0 eq_refl) as (sp & H1 & H2 & H3 & _).
    + exists (stepAt 0 0 0 1), 1, 1; split.
      * apply elem_of_cons; left; reflexivity.
      * eexists _, _; repeat (split; [reflexivity|]); reflexivity.
    + exists sp; split; [exact H1|]; split; [exact H2 | exact H3].
Defined.

(** ** Breakpoints *)

(** Toggling never makes line [0] a breakpoint, which is what the search
    of Continue relies on. *)
Lemma toggleBreakpoint_zero (ln : Z) (st : State) :
  0 ∉ breakpoints (dbg st) → 0 ∉ breakpoints (dbg (toggleBreakpoint ln st)).
Proof.
  intros Hzero; unfold toggleBreakpoint.
  destruct (truthy ln) eqn:Ht; cbn [negb]; [|exact Hzero].
  apply truthy_spec in Ht.
  destruct (bool_decide (ln ∈ breakpoints (dbg st)));
    cbn [set_breakpoints set_dbg dbg breakpoints].
  - rewrite elem_of_difference; intros [Hin _]; contradiction.
  - rewrite elem_of_union, elem_of_singleton; intros [Heq|Hin];
      [congruence | contradiction].
Qed.

(** Toggling a line twice restores the membership of every line. *)
Lemma toggleBreakpoint_twice (ln x : Z) (st : State) :
  x ∈ breakpoints (dbg (toggleBreakpoint ln (toggleBreakpoint ln st)))
  ↔ x ∈ breakpoints (dbg st).
Proof.
  unfold toggleBreakpoint at 2.
  destruct (truthy ln) eqn:Ht; cbn [negb];
    [|unfold toggleBreakpoint; rewrite Ht; reflexivity].
  destruct (bool_decide_reflect (ln ∈ breakpoints (dbg st))) as [Hin|Hout];
    unfold toggleBreakpoint; rewrite Ht; cbn [negb];
    cbn [set_breakpoints set_dbg dbg breakpoints].
  - rewrite bool_decide_eq_false_2
      by (rewrite elem_of_difference, elem_of_singleton; tauto).
    cbn [set_breakpoints set_dbg dbg breakpoints].
    rewrite elem_of_union, elem_of_difference, !elem_of_singleton.
    destruct (decide (x = ln)) as [->|Hne]; tauto.
  - rewrite bool_decide_eq_true_2
      by (rewrite elem_of_union, elem_of_singleton; tauto).
    cbn [set_breakpoints set_dbg dbg breakpoints].
    rewrite elem_of_difference, elem_of_union, !elem_of_singleton.
    split; [tauto|].
    intros Hx; split; [tauto|]; intros ->; contradiction.
Qed.

(** * Further properties of the stepping engine *)

(** ** How the three searches relate *)

Lemma search_or_last_progress (p : Z → bool) (n start : Z) :
  0 ≤ start → start < n - 1 →
  start < search_or_last p n start ≤ n - 1.
Proof.
  intros H0 Hlt; unfold search_or_last.
  destruct (find_from p _ _) as [k|] eqn:Hf; [|lia].
  apply find_from_Some in Hf; lia.
Qed.

(** From an in-range index, Step Into moves one step on (or stays on the
    last step), Step Over lands no earlier than Step Into, and Step Out no
    earlier than Step Over; none leaves the list. *)
Theorem step_searches_ordered (stps : list Step) (i : Z) :
  0 ≤ i < len stps →
  sourceStepIntoIndex stps i = Z.min (i + 1) (len stps - 1) ∧
  sourceStepIntoIndex stps i ≤ sourceStepOverIndex stps i ∧
  sourceStepOverIndex stps i ≤ sourceStepOutIndex stps i ∧
  sourceStepOutIndex stps i ≤ len stps - 1.
Proof.
  intros Hi.
  assert (Hinto : sourceStepIntoIndex stps i = Z.min (i + 1) (len stps - 1))
    by (unfold sourceStepIntoIndex, clamp; lia).
  pose proof (sourceStepOverIndex_range stps i Hi) as Hover.
  pose proof (sourceStepOutIndex_range stps i Hi) as Hout.
  split; [exact Hinto|]; split; [|split; [|lia]].
  - rewrite Hinto.
    destruct (Z_lt_le_dec i (len stps - 1)) as [Hlt|Hge]; [|lia].
    rewrite sourceStepOverIndex_search.
    pose proof (search_or_last_progress
                  (fun k => stepDepth (js_get stps k)
                            <=? stepDepth (js_get stps i))
                  (len stps) i ltac:(lia) Hlt).
    lia.
  - rewrite sourceStepOverIndex_search, sourceStepOutIndex_search in *.
    set (pv := fun k => stepDepth (js_get stps k)
                        <=? stepDepth (js_get stps i)) in *.
    set (po := fun k => stepDepth (js_get stps k)
                        <? stepDepth (js_get stps i)) in *.
    destruct (search_or_last_spec pv (len stps) i Hi)
      as (Hfound & _ & _ & _ & _).
    destruct (search_or_last_spec po (len stps) i Hi)
      as (_ & _ & _ & _ & Hfallback).
    destruct (po (search_or_last po (len stps) i)) eqn:Hpo.
    + assert (Hlt : stepDepth (js_get stps (search_or_last po (len stps) i))
                    < stepDepth (js_get stps i))
        by (apply Z.ltb_lt; exact Hpo).
      assert (Hne : search_or_last po (len stps) i ≠ i).
      { intros He; rewrite He in Hlt; lia. }
      assert (Hpv : pv (search_or_last po (len stps) i) = true)
        by (apply Z.leb_le; lia).
      destruct Hfound as (_ & _ & Hmin).
      { exists (search_or_last po (len stps) i); split; [lia | exact Hpv]. }
      apply Hmin; [lia | exact Hpv].
    + destruct (Hfallback eq_refl) as (-> & _); lia.
Qed.

Lemma step_searches_ordered_witness :
  0 ≤ 1 < len depth_steps ∧
  sourceStepIntoIndex depth_steps 1 = 2 ∧
  sourceStepOverIndex depth_steps 1 = 2 ∧
  sourceStepOutIndex depth_steps 1 = 4 ∧
  sourceStepIntoIndex depth_steps 1 ≤ sourceStepOverIndex depth_steps 1 ∧
  sourceStepOverIndex depth_steps 1 ≤ sourceStepOutIndex depth_steps 1.
Proof.
  assert (H : 0 ≤ 1 < len depth_steps) by (unfold len; simpl; lia).
  destruct (step_searches_ordered depth_steps 1 H) as (_ & H1 & H2 & _).
  split; [exact H|]; split; [reflexivity|]; split; [reflexivity|].
  split; [reflexivity|]; split; [exact H1 | exact H2].
Defined.

(** ** Progress of the source commands *)

Lemma stepSourceWith_sourceStep (next : list Step → Z → Z) (st : State)
    (t : Trace) :
  trace st = Some t → getSourceSteps (Some t) ≠ [] →
  mode (dbg st) = SourceMode →
  sourceStep (dbg (stepSourceWith next st))
    = next (getSourceSteps (Some t))
        (clamp (sourceStep (dbg st)) 0 (len (getSourceSteps (Some t)) - 1)).
Proof.
  intros Ht Hs Hm.
  destruct (stepSourceWith_unfold next st t Ht Hs)
    as (st2 & _ & _ & _ & Hsrc & ->).
  match goal with |- context [syncOpcodeFromSource ?x] =>
    destruct (syncOpcodeFromSource_frame x) as (_ & _ & -> & _) end.
  cbn [set_sourceStep set_dbg dbg sourceStep]; rewrite (Hsrc Hm); reflexivity.
Qed.

Lemma continueExecution_sourceStep (st : State) (t : Trace) :
  trace st = Some t → getSourceSteps (Some t) ≠ [] →
  sourceStep (dbg (continueExecution st))
    = if bool_decide (breakpoints (dbg st) = ∅)
      then len (getSourceSteps (Some t)) - 1
      else search_or_last
             (breakpointHit (breakpoints (dbg st)) (getSourceSteps (Some t)))
             (len (getSourceSteps (Some t)))
             (clamp (sourceStep (dbg st)) 0
                (len (getSourceSteps (Some t)) - 1)).
Proof.
  intros Ht Hs; rewrite (continueExecution_unfold st t Ht Hs).
  match goal with |- context [syncOpcodeFromSource ?x] =>
    destruct (syncOpcodeFromSource_frame x) as (_ & _ & -> & _) end.
  cbn [set_sourceStep set_dbg dbg sourceStep].
  rewrite (continueToBreakpoint_unfold (set_mode SourceMode st) t Ht Hs).
  reflexivity.
Qed.

(** In source mode on an in-range source index, Step Into, Step Over, Step
    Out and Continue never move the source cursor back or past the last
    step, move it strictly forward unless it is on the last step, and Step
    Into moves it by exactly one. *)
Theorem source_commands_advance (c : Command) (st : State) (t : Trace) :
  trace st = Some t →
  isOpcodeCommand c = false →
  mode (dbg st) = SourceMode →
  0 ≤ sourceStep (dbg st) < len (getSourceSteps (Some t)) →
  sourceStep (dbg st) ≤ sourceStep (dbg (run c st))
    ≤ len (getSourceSteps (Some t)) - 1 ∧
  (sourceStep (dbg st) < len (getSourceSteps (Some t)) - 1 →
     sourceStep (dbg st) < sourceStep (dbg (run c st))) ∧
  (c = CmdStepInto →
     sourceStep (dbg (run c st))
       = Z.min (sourceStep (dbg st) + 1)
           (len (getSourceSteps (Some t)) - 1)).
Proof.
  intros Ht Hc Hm Hi.
  assert (Hs : getSourceSteps (Some t) ≠ []).
  { intros He; rewrite He in Hi; unfold len in Hi; simpl in Hi; lia. }
  assert (Hinto : sourceStepIntoIndex (getSourceSteps (Some t))
                    (sourceStep (dbg st))
                  = Z.min (sourceStep (dbg st) + 1)
                      (len (getSourceSteps (Some t)) - 1))
    by (unfold sourceStepIntoIndex, clamp; lia).
  pose proof (sourceStepOverIndex_range _ _ Hi) as Hover.
  pose proof (sourceStepOutIndex_range _ _ Hi) as Hout.
  destruct c as [| | |delta|]; try discriminate Hc; cbn [run].
  - unfold stepIntoSource.
    rewrite (stepSourceWith_sourceStep _ st t Ht Hs Hm), clamp_id by lia.
    rewrite Hinto; split; [lia|]; split; [lia | reflexivity].
  - unfold stepOverSource.
    rewrite (stepSourceWith_sourceStep _ st t Ht Hs Hm), clamp_id by lia.
    split; [lia|]; split; [|discriminate].
    intros Hlt; rewrite sourceStepOverIndex_search.
    apply search_or_last_progress; lia.
  - unfold stepOutSource.
    rewrite (stepSourceWith_sourceStep _ st t Ht Hs Hm), clamp_id by lia.
    split; [lia|]; split; [|discriminate].
    intros Hlt; rewrite sourceStepOutIndex_search.
    apply search_or_last_progress; lia.
  - rewrite (continueExecution_sourceStep st t Ht Hs), clamp_id by lia.
    destruct (bool_decide _); [split; [lia|]; split; [lia | discriminate]|].
    match goal with |- context [search_or_last ?p ?n ?s] =>
      destruct (search_or_last_spec p n s Hi) as (_ & _ & _ & Hr & _);
      pose proof (search_or_last_progress p n s) as Hprog end.
    split; [lia|]; split; [intros Hlt; apply Hprog; lia | discriminate].
Qed.

Lemma source_commands_advance_witness :
  mode (dbg breakpoint_state) = SourceMode ∧
  0 ≤ sourceStep (dbg breakpoint_state)
    < len (getSourceSteps (Some scenario_trace)) ∧
  sourceStep (dbg breakpoint_state)
    < sourceStep (dbg (run CmdStepOver breakpoint_state)).
Proof.
  assert (H : 0 ≤ sourceStep (dbg breakpoint_state)
              < len (getSourceSteps (Some scenario_trace)))
    by (unfold len; simpl; lia).
  split; [reflexivity|]; split; [exact H|].
  destruct (source_commands_advance CmdStepOver breakpoint_state
              scenario_trace eq_refl eq_refl eq_refl H) as (_ & Hprog & _).
  apply Hprog; unfold len; simpl; lia.
Defined.

(** ** What no command touches *)

Lemma stepSourceWith_frame (next : list Step → Z → Z) (st : State) :
  trace (stepSourceWith next st) = trace st ∧
  breakpoints (dbg (stepSourceWith next st)) = breakpoints (dbg st).
Proof.
  destruct (trace st) as [t|] eqn:Ht.
  - destruct (getSourceSteps (Some t)) as [|s0 l0] eqn:Hsrc.
    + rewrite stepSourceWith_idle by (rewrite Ht; exact Hsrc); auto.
    + assert (Hs : getSourceSteps (Some t) ≠ []) by (rewrite Hsrc; discriminate).
      destruct (stepSourceWith_unfold next st t Ht Hs)
        as (st2 & Ht2 & _ & Hb2 & _ & ->).
      match goal with |- context [syncOpcodeFromSource ?x] =>
        destruct (syncOpcodeFromSource_frame x) as (-> & _ & _ & ->) end.
      split; [exact Ht2 | exact Hb2].
  - rewrite stepSourceWith_idle by (rewrite Ht; reflexivity).
    split; [exact Ht | reflexivity].
Qed.

Lemma stepOpcode_frame (st : State) (delta : Z) :
  trace (stepOpcode st delta) = trace st ∧
  breakpoints (dbg (stepOpcode st delta)) = breakpoints (dbg st).
Proof.
  destruct (trace st) as [t|] eqn:Ht.
  - destruct (getOpcodeSteps (Some t)) as [|s0 l0] eqn:Hops.
    + rewrite stepOpcode_idle by (rewrite Ht; exact Hops); auto.
    + assert (Ho : getOpcodeSteps (Some t) ≠ []) by (rewrite Hops; discriminate).
      destruct (stepOpcode_unfold st t delta Ht Ho) as (st2 & Ht2 & _ & Hb2 & ->).
      match goal with |- context [syncSourceFromOpcode ?x] =>
        destruct (syncSourceFromOpcode_frame x) as (-> & _ & _ & ->) end.
      split; [exact Ht2 | exact Hb2].
  - rewrite stepOpcode_idle by (rewrite Ht; reflexivity).
    split; [exact Ht | reflexivity].
Qed.

Lemma continueExecution_frame (st : State) :
  trace (continueExecution st) = trace st ∧
  breakpoints (dbg (continueExecution st)) = breakpoints (dbg st).
Proof.
  destruct (trace st) as [t|] eqn:Ht.
  - destruct (getSourceSteps (Some t)) as [|s0 l0] eqn:Hsrc.
    + unfold continueExecution; rewrite Ht, Hsrc; split; [exact Ht | reflexivity].
    + assert (Hs : getSourceSteps (Some t) ≠ []) by (rewrite Hsrc; discriminate).
      rewrite (continueExecution_unfold st t Ht Hs).
      match goal with |- context [syncOpcodeFromSource ?x] =>
        destruct (syncOpcodeFromSource_frame x) as (-> & _ & _ & ->) end.
      split; [exact Ht | reflexivity].
  - unfold continueExecution; rewrite Ht; split; [exact Ht | reflexivity].
Qed.

Lemma run_keeps_trace_and_breakpoints_aux (c : Command) (st : State) :
  trace (run c st) = trace st ∧
  breakpoints (dbg (run c st)) = breakpoints (dbg st).
Proof.
  destruct c; cbn [run].
  - apply stepSourceWith_frame.
  - apply stepSourceWith_frame.
  - apply stepSourceWith_frame.
  - apply stepOpcode_frame.
  - apply continueExecution_frame.
Qed.

(** ** Opcode steps there and back *)

Lemma stepOpcode_in_opcode_mode (st : State) (t : Trace) (delta : Z) :
  trace st = Some t → getOpcodeSteps (Some t) ≠ [] →
  mode (dbg st) = OpcodeMode →
  stepOpcode st delta
    = syncSourceFromOpcode
        (set_opcodeStep
           (clamp (opcodeStep (dbg st) + delta) 0
              (len (getOpcodeSteps (Some t)) - 1)) st).
Proof.
  intros Ht Ho Hm; unfold stepOpcode; rewrite Ht.
  apply len_nonzero in Ho; rewrite Ho, Hm; cbv zeta.
  assert (E : set_mode OpcodeMode st = st)
    by (rewrite <- Hm; apply set_mode_same).
  rewrite E; reflexivity.
Qed.

Lemma stepOpcode_opcodeStep (st : State) (t : Trace) (delta : Z) :
  trace st = Some t → getOpcodeSteps (Some t) ≠ [] →
  mode (dbg st) = OpcodeMode →
  trace (stepOpcode st delta) = Some t ∧
  mode (dbg (stepOpcode st delta)) = OpcodeMode ∧
  opcodeStep (dbg (stepOpcode st delta))
    = clamp (opcodeStep (dbg st) + delta) 0
        (len (getOpcodeSteps (Some t)) - 1).
Proof.
  intros Ht Ho Hm; rewrite (stepOpcode_in_opcode_mode st t delta Ht Ho Hm).
  match goal with |- context [syncSourceFromOpcode ?x] =>
    destruct (syncSourceFromOpcode_frame x) as (-> & -> & -> & _) end.
  split; [exact Ht|]; split; [exact Hm | reflexivity].
Qed.

(** In opcode mode on an in-range opcode index, one opcode step forward
    and one back (or back and forward) returns to the same opcode index
    unless the first step was stopped by the end of the sequence, where the
    step leaves the index alone; and it restores the whole cursor when the
    source index was the synchronized one. *)
Theorem stepOpcode_there_and_back (st : State) (t : Trace) :
  trace st = Some t →
  mode (dbg st) = OpcodeMode →
  0 ≤ opcodeStep (dbg st) < len (getOpcodeSteps (Some t)) →
  (opcodeStep (dbg st) + 1 < len (getOpcodeSteps (Some t)) →
     opcodeStep (dbg (stepOpcode (stepOpcode st 1) (-1)))
       = opcodeStep (dbg st)) ∧
  (0 < opcodeStep (dbg st) →
     opcodeStep (dbg (stepOpcode (stepOpcode st (-1)) 1))
       = opcodeStep (dbg st)) ∧
  (opcodeStep (dbg st) = len (getOpcodeSteps (Some t)) - 1 →
     opcodeStep (dbg (stepOpcode st 1)) = opcodeStep (dbg st)) ∧
  (opcodeStep (dbg st) = 0 →
     opcodeStep (dbg (stepOpcode st (-1))) = opcodeStep (dbg st)) ∧
  (opcodeStep (dbg st) + 1 < len (getOpcodeSteps (Some t)) →
   getSourceSteps (Some t) = [] ∨
   sourceStep (dbg st)
     = sourceIndexFromOpcodeIndex st (opcodeStep (dbg st)) →
     cursor (stepOpcode (stepOpcode st 1) (-1)) = cursor st).
Proof.
  intros Ht Hm Hi.
  assert (Ho : getOpcodeSteps (Some t) ≠ []).
  { intros He; rewrite He in Hi; unfold len in Hi; simpl in Hi; lia. }
  destruct (stepOpcode_opcodeStep st t 1 Ht Ho Hm) as (Ht1 & Hm1 & Hop1).
  destruct (stepOpcode_opcodeStep st t (-1) Ht Ho Hm) as (Ht2 & Hm2 & Hop2).
  destruct (stepOpcode_opcodeStep _ t (-1) Ht1 Ho Hm1) as (Ht3 & Hm3 & Hop3).
  destruct (stepOpcode_opcodeStep _ t 1 Ht2 Ho Hm2) as (_ & _ & Hop4).
  assert (Hback : opcodeStep (dbg st) + 1 < len (getOpcodeSteps (Some t)) →
                  opcodeStep (dbg (stepOpcode (stepOpcode st 1) (-1)))
                    = opcodeStep (dbg st)).
  { intros Hlt; rewrite Hop3, Hop1; unfold clamp; lia. }
  split; [exact Hback|].
  split; [intros Hlt; rewrite Hop4, Hop2; unfold clamp; lia|].
  split; [intros He; rewrite Hop1; unfold clamp; lia|].
  split; [intros He; rewrite Hop2; unfold clamp; lia|].
  intros Hlt Hsync; specialize (Hback Hlt).
  destruct (stepOpcode_frame (stepOpcode st 1) (-1)) as (_ & Hb3).
  destruct (stepOpcode_frame st 1) as (_ & Hb1).
  assert (Hsrc : sourceStep (dbg (stepOpcode (stepOpcode st 1) (-1)))
                 = sourceStep (dbg st)).
  { destruct (getSourceSteps (Some t)) as [|s0 l0] eqn:Hsrc.
    - rewrite (stepOpcode_in_opcode_mode _ t (-1) Ht1 Ho Hm1).
      rewrite syncSourceFromOpcode_idle with (t := t);
        [|exact Ht1 | exact Hsrc].
      cbn [set_opcodeStep set_dbg dbg sourceStep].
      rewrite (stepOpcode_in_opcode_mode st t 1 Ht Ho Hm).
      rewrite syncSourceFromOpcode_idle with (t := t);
        [reflexivity | exact Ht | exact Hsrc].
    - destruct Hsync as [He|Hsync]; [discriminate He|].
      assert (Hs : getSourceSteps (Some t) ≠ [])
        by (rewrite Hsrc; discriminate).
      destruct (stepOpcode_synced (stepOpcode st 1) t (-1) Ht1 Hs Ho)
        as (_ & _ & ->).
      rewrite Hback, Hsync.
      apply sourceIndexFromOpcodeIndex_trace; rewrite Ht1, Ht; reflexivity. }
  unfold cursor; rewrite Hm3, Hm, Hsrc, Hback, Hb3, Hb1; reflexivity.
Qed.

Lemma stepOpcode_there_and_back_witness :
  mode (dbg late_state) = OpcodeMode ∧
  0 ≤ opcodeStep (dbg late_state) < len (getOpcodeSteps (Some late_trace)) ∧
  opcodeStep (dbg late_state) + 1 < len (getOpcodeSteps (Some late_trace)) ∧
  opcodeStep (dbg (stepOpcode (stepOpcode late_state 1) (-1)))
    = opcodeStep (dbg late_state).
Proof.
  assert (H : 0 ≤ opcodeStep (dbg late_state)
              < len (getOpcodeSteps (Some late_trace)))
    by (unfold len; simpl; lia).
  assert (H' : opcodeStep (dbg late_state) + 1
               < len (getOpcodeSteps (Some late_trace)))
    by (unfold len; simpl; lia).
  split; [reflexivity|]; split; [exact H|]; split; [exact H'|].
  destruct (stepOpcode_there_and_back late_state late_trace eq_refl eq_refl H)
    as (Hback & _).
  apply Hback; exact H'.
Defined.

(** ** The opcode-to-source map is monotone *)

Lemma best_loop_lower (l : list Step) (target i best : Z) :
  best ≤ i → best ≤ best_loop l target i best.
Proof.
  revert i best; induction l as [|s l IH]; intros i best Hb; simpl; [lia|].
  destruct (stepPc s >? target); [lia|].
  pose proof (IH (i + 1) i ltac:(lia)); lia.
Qed.

Lemma best_loop_mono (l : list Step) (target target' i best : Z) :
  target ≤ target' → best ≤ i →
  best_loop l target i best ≤ best_loop l target' i best.
Proof.
  revert i best; induction l as [|s l IH]; intros i best Ht Hb; simpl; [lia|].
  destruct (Z.gtb_spec (stepPc s) target) as [H1|H1];
    destruct (Z.gtb_spec (stepPc s) target') as [H2|H2]; try lia.
  - pose proof (best_loop_lower l target' (i + 1) i ltac:(lia)); lia.
  - apply IH; lia.
Qed.

Lemma clamp_mono (a b lo hi : Z) : a ≤ b → clamp a lo hi ≤ clamp b lo hi.
Proof. unfold clamp; lia. Qed.

Lemma clamp_idem_max (n hi : Z) :
  clamp (clamp n 0 (Z.max 0 hi)) 0 (Z.max 0 hi) = clamp n 0 (Z.max 0 hi).
Proof. unfold clamp; lia. Qed.

(** Whatever the opcode index, in range or not, [sourceIndexFromOpcodeIndex]
    returns a valid source index when there are source steps, an
    out-of-range opcode index counts as the nearest valid one, and, the
    opcode pcs being non-decreasing, a later opcode index never maps to an
    earlier source index. *)
Theorem sourceIndexFromOpcodeIndex_monotone (st : State) (t : Trace)
    (i j : Z) :
  trace st = Some t →
  pcs_nondecreasing (getOpcodeSteps (Some t)) →
  i ≤ j →
  sourceIndexFromOpcodeIndex st i ≤ sourceIndexFromOpcodeIndex st j ∧
  (getSourceSteps (Some t) ≠ [] →
     0 ≤ sourceIndexFromOpcodeIndex st i < len (getSourceSteps (Some t))) ∧
  sourceIndexFromOpcodeIndex st i
    = sourceIndexFromOpcodeIndex st
        (clamp i 0 (Z.max 0 (len (getOpcodeSteps (Some t)) - 1))).
Proof.
  intros Ht Hsorted Hij.
  destruct (getSourceSteps (Some t)) as [|s0 l0] eqn:Hsrc.
  { rewrite !(sourceIndexFromOpcodeIndex_empty st t _ Ht Hsrc).
    split; [lia|]; split; [congruence | reflexivity]. }
  assert (Hs : getSourceSteps (Some t) ≠ []) by (rewrite Hsrc; discriminate).
  rewrite <- Hsrc in *.
  split; [|split].
  - rewrite !(sourceIndexFromOpcodeIndex_unfold st t _ Ht Hs).
    apply best_loop_mono; [|lia].
    set (hi := Z.max 0 (len (getOpcodeSteps (Some t)) - 1)).
    pose proof (clamp_mono i j 0 hi Hij) as Hc.
    destruct (js_get (getOpcodeSteps (Some t)) (clamp i 0 hi)) as [a|] eqn:Ha;
      destruct (js_get (getOpcodeSteps (Some t)) (clamp j 0 hi)) as [b|] eqn:Hb.
    + apply (pcs_nondecreasing_get _ _ _ a b Hsorted Hc Ha Hb).
    + exfalso; apply js_get_Some in Ha.
      destruct (js_get_in_range (getOpcodeSteps (Some t)) (clamp j 0 hi))
        as [x Hx]; [|congruence].
      pose proof (clamp_bounds j 0 hi ltac:(lia)); lia.
    + exfalso; apply js_get_Some in Hb.
      destruct (js_get_in_range (getOpcodeSteps (Some t)) (clamp i 0 hi))
        as [x Hx]; [|congruence].
      pose proof (clamp_bounds i 0 hi ltac:(lia)); lia.
    + lia.
  - intros _; apply sourceIndexFromOpcodeIndex_range; assumption.
  - rewrite !(sourceIndexFromOpcodeIndex_unfold st t _ Ht Hs).
    rewrite clamp_idem_max; reflexivity.
Qed.

Lemma sourceIndexFromOpcodeIndex_monotone_witness :
  pcs_nondecreasing (getOpcodeSteps (Some scenario_trace)) ∧
  sourceIndexFromOpcodeIndex breakpoint_state 2
    ≤ sourceIndexFromOpcodeIndex breakpoint_state 6.
Proof.
  assert (H : pcs_nondecreasing (getOpcodeSteps (Some scenario_trace))).
  { apply pcs_nondecreasingb_spec; reflexivity. }
  split; [exact H|].
  apply (sourceIndexFromOpcodeIndex_monotone breakpoint_state scenario_trace
           2 6 eq_refl H); lia.
Defined.

(** ** The round trip source index, opcode index, source index *)

(** On a trace whose opcode pcs equal their indices and whose source pcs
    are non-decreasing, converting an in-range source index whose pc is a
    valid opcode index to an opcode index and back lands on a source step
    with the same pc, at or after the original one; it is the original one
    when every later source step has a larger pc. *)
Theorem sync_source_round_trip (st : State) (t : Trace) (s : Step) :
  trace st = Some t →
  pc_is_index (getOpcodeSteps (Some t)) →
  pcs_nondecreasing (getSourceSteps (Some t)) →
  js_get (getSourceSteps (Some t)) (sourceStep (dbg st)) = Some s →
  0 ≤ stepPc s < len (getOpcodeSteps (Some t)) →
  opcodeStep (dbg (syncOpcodeFromSource st)) = stepPc s ∧
  sourceStep (dbg st)
    ≤ sourceStep (dbg (syncSourceFromOpcode (syncOpcodeFromSource st))) ∧
  (∃ s',
     js_get (getSourceSteps (Some t))
       (sourceStep (dbg (syncSourceFromOpcode (syncOpcodeFromSource st))))
       = Some s' ∧
     stepPc s' = stepPc s) ∧
  ((∀ j s', sourceStep (dbg st) < j →
            js_get (getSourceSteps (Some t)) j = Some s' →
            stepPc s < stepPc s') →
   sourceStep (dbg (syncSourceFromOpcode (syncOpcodeFromSource st)))
     = sourceStep (dbg st)).
Proof.
  intros Ht Hidx Hsorted Hget Hpc.
  pose proof (js_get_Some _ _ _ Hget) as Hrange.
  assert (Hs : getSourceSteps (Some t) ≠ []).
  { intros He; rewrite He in Hrange; unfold len in Hrange; simpl in Hrange;
      lia. }
  assert (Ho : getOpcodeSteps (Some t) ≠ []).
  { intros He; rewrite He in Hpc; unfold len in Hpc; simpl in Hpc; lia. }
  destruct (syncOpcodeFromSource_opcodeStep st t Ht Hs Ho) as (s1 & Hget1 & Hop).
  rewrite clamp_id, Hget in Hget1 by lia; injection Hget1 as <-.
  rewrite clamp_id in Hop by lia.
  set (st1 := syncOpcodeFromSource st) in *.
  destruct (syncOpcodeFromSource_frame st) as (Ht1 & _ & Hsrc1 & _).
  fold st1 in Ht1, Hsrc1; rewrite Ht in Ht1.
  rewrite (syncSourceFromOpcode_sourceStep st1 t Ht1 Hs), Hop.
  destruct (js_get_in_range _ _ Hpc) as [o Ho_get].
  pose proof (Hidx _ _ Ho_get) as Ho_pc.
  rewrite (sourceIndexFromOpcodeIndex_at st1 t _ o Ht1 Hs)
    by (rewrite clamp_id by lia; exact Ho_get).
  rewrite Ho_pc.
  destruct (best_loop_sorted _ (stepPc s) Hsorted) as (Hlast & _).
  destruct Hlast as (s' & Hget' & Hle & Hafter).
  { exists (sourceStep (dbg st)), s; split; [exact Hget | lia]. }
  set (r := best_loop (getSourceSteps (Some t)) (stepPc s) 0 0) in *.
  assert (Hge : sourceStep (dbg st) ≤ r).
  { destruct (Z_le_gt_dec (sourceStep (dbg st)) r) as [H|H]; [exact H|].
    pose proof (Hafter (sourceStep (dbg st)) s ltac:(lia) Hget); lia. }
  split; [reflexivity|]; split; [exact Hge|]; split.
  - exists s'; split; [exact Hget'|].
    pose proof (pcs_nondecreasing_get _ _ _ s s' Hsorted Hge Hget Hget'); lia.
  - intros Hstrict.
    destruct (Z.eq_dec r (sourceStep (dbg st))) as [He|Hne]; [exact He|].
    pose proof (Hstrict r s' ltac:(lia) Hget'); lia.
Qed.

Lemma sync_source_round_trip_witness :
  pc_is_index (getOpcodeSteps (Some late_trace)) ∧
  pcs_nondecreasing (getSourceSteps (Some late_trace)) ∧
  js_get (getSourceSteps (Some late_trace)) (sourceStep (dbg late_state))
    = Some (stepAt 2 0 0 1) ∧
  0 ≤ stepPc (stepAt 2 0 0 1) < len (getOpcodeSteps (Some late_trace)) ∧
  opcodeStep (dbg (syncOpcodeFromSource late_state)) = 2 ∧
  sourceStep (dbg late_state)
    ≤ sourceStep (dbg (syncSourceFromOpcode (syncOpcodeFromSource late_state))).
Proof.
  assert (H1 : pcs_nondecreasing (getSourceSteps (Some late_trace))).
  { apply pcs_nondecreasingb_spec; reflexivity. }
  assert (H2 : 0 ≤ stepPc (stepAt 2 0 0 1)
               < len (getOpcodeSteps (Some late_trace)))
    by (split; [vm_compute; discriminate | vm_compute; reflexivity]).
  split; [exact late_trace_pc_is_index|]; split; [exact H1|].
  split; [reflexivity|]; split; [exact H2|].
  destruct (sync_source_round_trip late_state late_trace (stepAt 2 0 0 1)
              eq_refl late_trace_pc_is_index H1 eq_refl H2) as (Ha & Hb & _).
  split; [exact Ha | exact Hb].
Defined.

(** ** What rendering does to the cursor *)

Lemma settle_mode_eq (st : State) (srcs ops : list Step) :
  (let st1 :=
     if bool_decide (mode (dbg st) = SourceMode) && (len srcs =? 0)
     then set_mode OpcodeMode st else st in
   if bool_decide (mode (dbg st1) = OpcodeMode) && (len ops =? 0)
   then set_mode (if len srcs =? 0 then OpcodeMode else SourceMode) st1
   else st1)
  = set_mode (settledMode (mode (dbg st)) srcs ops) st.
Proof.
  unfold settledMode; pose proof (set_mode_same st) as E.
  destruct (mode (dbg st)) eqn:Hm;
    destruct (len srcs =? 0); destruct (len ops =? 0);
    cbv [bool_decide decide decide_rel Mode_eq_dec Mode_rec Mode_rect
         andb sumbool_rec sumbool_rect];
    cbn [mode dbg set_mode set_dbg]; rewrite ?Hm;
    cbv [bool_decide decide decide_rel Mode_eq_dec Mode_rec Mode_rect
         andb sumbool_rec sumbool_rect];
    rewrite ?E; try reflexivity.
Qed.

Lemma renderDbg_unfold (st : State) (t : Trace) :
  trace st = Some t →
  (getActiveSteps (withSettledMode st) = [] →
   renderDbg st = updateEditorDecorations (withSettledMode st) None None)
  ∧ (getActiveSteps (withSettledMode st) ≠ [] →
     ∃ snap,
       js_get (getActiveSteps (withSettledMode st))
         (getActiveStepIndex (withSettledMode st)
            (getActiveSteps (withSettledMode st))) = Some snap ∧
       renderDbg st
         = updateEditorDecorations (clampedCursor st) (Some snap)
             (tintKindFor snap
                (getActiveStepIndex (withSettledMode st)
                   (getActiveSteps (withSettledMode st)))
                (len (getActiveSteps (withSettledMode st))))).
Proof.
  intros Ht; unfold renderDbg, clampedCursor, withSettledMode; rewrite Ht.
  pose proof (settle_mode_eq st (getSourceSteps (Some t))
                (getOpcodeSteps (Some t))) as E.
  cbv zeta in E |- *; rewrite E; clear E.
  set (st2 := set_mode _ st).
  split.
  - intros He; apply len_zero in He; rewrite He; reflexivity.
  - intros Hne.
    pose proof (len_pos _ Hne) as Hlen.
    apply len_nonzero in Hne as Hnz; rewrite Hnz.
    set (step := getActiveStepIndex st2 (getActiveSteps st2)).
    pose proof (getActiveStepIndex_bounds st2 (getActiveSteps st2)) as Hb.
    fold step in Hb.
    destruct (setActiveStepIndex_frame st2 step) as (Ht3 & Hm3 & _ & Hstored).
    pose proof (getActiveSteps_ext st2 _ Ht3 Hm3) as Hsteps.
    assert (Hidx : getActiveStepIndex (setActiveStepIndex st2 step)
                     (getActiveSteps (setActiveStepIndex st2 step)) = step).
    { rewrite getActiveStepIndex_stored, Hstored, Hsteps.
      apply clamp_id; lia. }
    destruct (js_get_in_range (getActiveSteps st2) step) as [snap Hsnap];
      [lia|].
    rewrite Hsnap.
    exists snap; split; [reflexivity|].
    unfold tintKindFor.
    match goal with |- context [updateEditorDecorations ?a ?b ?c] =>
      destruct (updateEditorDecorations_frame a b c) as (Ht4 & Hc4);
      set (st4 := updateEditorDecorations a b c) in * end.
    assert (Hset4 : getActiveStepIndex st4 (getActiveSteps st4)
                    = storedActiveIndex st4).
    { apply (settled_ext (setActiveStepIndex st2 step));
        [exact Ht4 | exact Hc4 | rewrite Hidx, Hstored; reflexivity]. }
    unfold scrollEditorToActive, renderEditorGutter.
    rewrite (activeSnapshot_settled st4 Hset4), (activeSnapshot_settled st4 Hset4).
    reflexivity.
Qed.

Lemma settledMode_cases (m : Mode) (srcs ops : list Step) :
  srcs ≠ [] ∨ ops ≠ [] →
  (settledMode m srcs ops = SourceMode ∧ srcs ≠ []
   ∨ settledMode m srcs ops = OpcodeMode ∧ ops ≠ [])
  ∧ ((m = SourceMode → srcs ≠ []) → (m = OpcodeMode → ops ≠ []) →
     settledMode m srcs ops = m).
Proof.
  intros Hsome; unfold settledMode.
  pose proof (proj1 (len_zero srcs)) as Hsz.
  pose proof (proj1 (len_nonzero srcs)) as Hsn.
  pose proof (proj1 (len_zero ops)) as Hoz.
  pose proof (proj1 (len_nonzero ops)) as Hon.
  destruct (len srcs =? 0); destruct (len ops =? 0); destruct m;
    cbv [bool_decide decide decide_rel Mode_eq_dec Mode_rec Mode_rect
         andb sumbool_rec sumbool_rect];
    try specialize (Hsz eq_refl); try specialize (Hsn eq_refl);
    try specialize (Hoz eq_refl); try specialize (Hon eq_refl);
    try (destruct Hsome; congruence);
    (split;
     [first [left; split; [reflexivity | assumption]
            |right; split; [reflexivity | assumption]]
     |intros H1 H2; first [reflexivity
                          |specialize (H1 eq_refl); congruence
                          |specialize (H2 eq_refl); congruence]]).
Qed.

Lemma withSettledMode_frame (st : State) :
  trace (withSettledMode st) = trace st ∧
  sourceStep (dbg (withSettledMode st)) = sourceStep (dbg st) ∧
  opcodeStep (dbg (withSettledMode st)) = opcodeStep (dbg st) ∧
  breakpoints (dbg (withSettledMode st)) = breakpoints (dbg st) ∧
  mode (dbg (withSettledMode st))
    = settledMode (mode (dbg st)) (getSourceSteps (trace st))
        (getOpcodeSteps (trace st)).
Proof. unfold withSettledMode; repeat split; reflexivity. Qed.

Lemma getActiveSteps_mode (st : State) (t : Trace) :
  trace st = Some t →
  getActiveSteps st
    = match mode (dbg st) with
      | OpcodeMode => getOpcodeSteps (Some t)
      | SourceMode => getSourceSteps (Some t)
      end.
Proof. intros Ht; unfold getActiveSteps; rewrite Ht; reflexivity. Qed.

Lemma withSettledMode_active (st : State) (t : Trace) :
  trace st = Some t →
  getSourceSteps (Some t) ≠ [] ∨ getOpcodeSteps (Some t) ≠ [] →
  getActiveSteps (withSettledMode st) ≠ [].
Proof.
  intros Ht Hsome.
  destruct (withSettledMode_frame st) as (Ht2 & _ & _ & _ & Hm2).
  rewrite Ht in Ht2, Hm2.
  rewrite (getActiveSteps_mode _ t Ht2), Hm2.
  destruct (settledMode_cases (mode (dbg st)) _ _ Hsome)
    as ([(-> & H)|(-> & H)] & _); exact H.
Qed.

Lemma withSettledMode_fixed (st : State) (t : Trace) :
  trace st = Some t → getActiveSteps st ≠ [] → withSettledMode st = st.
Proof.
  intros Ht Hact; unfold withSettledMode; rewrite Ht.
  rewrite (getActiveSteps_mode st t Ht) in Hact.
  destruct (settledMode_cases (mode (dbg st)) (getSourceSteps (Some t))
              (getOpcodeSteps (Some t))) as (_ & ->).
  - destruct (mode (dbg st)); [left | right]; exact Hact.
  - apply set_mode_same.
  - intros Hm; rewrite Hm in Hact; exact Hact.
  - intros Hm; rewrite Hm in Hact; exact Hact.
Qed.

Lemma clampedCursor_frame (st : State) (t : Trace) :
  trace st = Some t →
  getActiveSteps (withSettledMode st) ≠ [] →
  trace (clampedCursor st) = Some t ∧
  breakpoints (dbg (clampedCursor st)) = breakpoints (dbg st) ∧
  mode (dbg (clampedCursor st)) = mode (dbg (withSettledMode st)) ∧
  getActiveSteps (clampedCursor st) = getActiveSteps (withSettledMode st) ∧
  storedActiveIndex (clampedCursor st)
    = getActiveStepIndex (withSettledMode st)
        (getActiveSteps (withSettledMode st)) ∧
  0 ≤ storedActiveIndex (clampedCursor st)
    < len (getActiveSteps (clampedCursor st)) ∧
  getActiveStepIndex (clampedCursor st) (getActiveSteps (clampedCursor st))
    = storedActiveIndex (clampedCursor st).
Proof.
  intros Ht Hact; unfold clampedCursor.
  set (st2 := withSettledMode st) in *.
  set (step := getActiveStepIndex st2 (getActiveSteps st2)).
  destruct (withSettledMode_frame st) as (Ht2 & _ & _ & Hb2 & _).
  fold st2 in Ht2, Hb2.
  destruct (setActiveStepIndex_frame st2 step) as (Ht3 & Hm3 & Hb3 & Hstored).
  pose proof (getActiveSteps_ext st2 _ Ht3 Hm3) as Hsteps.
  pose proof (getActiveStepIndex_bounds st2 (getActiveSteps st2)) as Hb.
  fold step in Hb; pose proof (len_pos _ Hact) as Hlen.
  split; [rewrite Ht3, Ht2; exact Ht|]; split; [rewrite Hb3; exact Hb2|].
  split; [exact Hm3|]; split; [exact Hsteps|]; split; [exact Hstored|].
  rewrite Hstored, Hsteps; split; [lia|].
  rewrite getActiveStepIndex_stored, Hstored; apply clamp_id; lia.
Qed.

Lemma renderDbg_cursor (st : State) (t : Trace) :
  trace st = Some t →
  getActiveSteps (withSettledMode st) ≠ [] →
  trace (renderDbg st) = Some t ∧
  cursor (renderDbg st) = cursor (clampedCursor st).
Proof.
  intros Ht Hact.
  destruct (renderDbg_unfold st t Ht) as (_ & Hrender).
  destruct (Hrender Hact) as (snap & _ & ->).
  destruct (clampedCursor_frame st t Ht Hact) as (Ht3 & _).
  match goal with |- context [updateEditorDecorations ?a ?b ?c] =>
    destruct (updateEditorDecorations_frame a b c) as (-> & ->) end.
  split; [exact Ht3 | reflexivity].
Qed.

Lemma clampedCursor_fixed (st : State) (t : Trace) :
  trace st = Some t → getActiveSteps st ≠ [] →
  getActiveStepIndex st (getActiveSteps st) = storedActiveIndex st →
  clampedCursor st = st.
Proof.
  intros Ht Hact Hset; unfold clampedCursor.
  rewrite (withSettledMode_fixed st t Ht Hact), Hset.
  apply setActiveStepIndex_same.
Qed.

Lemma renderDbg_frame (st : State) :
  trace (renderDbg st) = trace st ∧
  breakpoints (dbg (renderDbg st)) = breakpoints (dbg st).
Proof.
  destruct (trace st) as [t|] eqn:Ht.
  - destruct (renderDbg_unfold st t Ht) as (Hempty & Hrender).
    destruct (withSettledMode_frame st) as (Ht2 & _ & _ & Hb2 & _).
    destruct (getActiveSteps (withSettledMode st)) as [|a l] eqn:Hact.
    + rewrite (Hempty eq_refl).
      match goal with |- context [updateEditorDecorations ?a ?b ?c] =>
        destruct (updateEditorDecorations_frame a b c)
          as (-> & (_ & _ & _ & ->)%cursor_inv) end.
      split; [rewrite Ht2; exact Ht | exact Hb2].
    + assert (Hne : getActiveSteps (withSettledMode st) ≠ [])
        by (rewrite Hact; discriminate).
      rewrite <- Hact in Hrender.
      destruct (Hrender Hne) as (snap & _ & ->).
      destruct (clampedCursor_frame st t Ht Hne) as (Ht3 & Hb3 & _).
      match goal with |- context [updateEditorDecorations ?a ?b ?c] =>
        destruct (updateEditorDecorations_frame a b c)
          as (-> & (_ & _ & _ & ->)%cursor_inv) end.
      split; [exact Ht3 | exact Hb3].
  - unfold renderDbg; rewrite Ht.
    destruct (updateEditorDecorations_frame st None None)
      as (-> & (_ & _ & _ & ->)%cursor_inv).
    split; [exact Ht | reflexivity].
Qed.

(** On a trace with steps in at least one sequence, [renderDbg] leaves the
    trace and the breakpoints alone, ends in a mode whose sequence has
    steps and with the active index inside it, keeps the mode when its
    sequence had steps and then stores the old index clamped, and a second
    [renderDbg] does not move the cursor again. *)
Theorem renderDbg_normalizes (st : State) (t : Trace) :
  trace st = Some t →
  getSourceSteps (Some t) ≠ [] ∨ getOpcodeSteps (Some t) ≠ [] →
  trace (renderDbg st) = Some t ∧
  breakpoints (dbg (renderDbg st)) = breakpoints (dbg st) ∧
  getActiveSteps (renderDbg st) ≠ [] ∧
  0 ≤ storedActiveIndex (renderDbg st) < len (getActiveSteps (renderDbg st)) ∧
  (getActiveSteps st ≠ [] →
     mode (dbg (renderDbg st)) = mode (dbg st) ∧
     storedActiveIndex (renderDbg st)
       = clamp (storedActiveIndex st) 0 (len (getActiveSteps st) - 1)) ∧
  cursor (renderDbg (renderDbg st)) = cursor (renderDbg st).
Proof.
  intros Ht Hsome.
  pose proof (withSettledMode_active st t Ht Hsome) as Hact.
  destruct (renderDbg_cursor st t Ht Hact) as (Htr & Hc).
  destruct (clampedCursor_frame st t Ht Hact)
    as (Ht3 & Hb3 & Hm3 & Hsteps3 & Hstored3 & Hrange3 & Hset3).
  pose proof (cursor_inv _ _ Hc) as (Hm & Hs & Ho & Hb).
  assert (Hsteps : getActiveSteps (renderDbg st)
                   = getActiveSteps (clampedCursor st)).
  { apply getActiveSteps_ext; [rewrite Htr, Ht3; reflexivity | exact Hm]. }
  assert (Hstored : storedActiveIndex (renderDbg st)
                    = storedActiveIndex (clampedCursor st)).
  { unfold storedActiveIndex; rewrite Hm, Hs, Ho; reflexivity. }
  assert (Hne : getActiveSteps (renderDbg st) ≠ []).
  { rewrite Hsteps, Hsteps3; exact Hact. }
  split; [exact Htr|]; split; [rewrite Hb; exact Hb3|].
  split; [exact Hne|]; split; [rewrite Hstored, Hsteps; exact Hrange3|].
  split.
  - intros Hact0.
    rewrite Hm, Hm3, Hstored, Hstored3.
    rewrite (withSettledMode_fixed st t Ht Hact0).
    split; [reflexivity|].
    rewrite getActiveStepIndex_stored.
    pose proof (len_pos _ Hact0); rewrite Z.max_r by lia; reflexivity.
  - assert (Hset : getActiveStepIndex (renderDbg st)
                     (getActiveSteps (renderDbg st))
                   = storedActiveIndex (renderDbg st)).
    { apply (settled_ext (clampedCursor st));
        [rewrite Htr, Ht3; reflexivity | exact Hc | exact Hset3]. }
    pose proof (withSettledMode_fixed _ t Htr Hne) as Hfix.
    destruct (renderDbg_cursor (renderDbg st) t Htr) as (_ & ->).
    + rewrite Hfix; exact Hne.
    + rewrite (clampedCursor_fixed _ t Htr Hne Hset); reflexivity.
Qed.

Lemma renderDbg_normalizes_witness :
  (getSourceSteps (Some scenario_trace) ≠ []
   ∨ getOpcodeSteps (Some scenario_trace) ≠ []) ∧
  0 ≤ storedActiveIndex (renderDbg (set_sourceStep 17 breakpoint_state))
    < len (getActiveSteps (renderDbg (set_sourceStep 17 breakpoint_state))) ∧
  storedActiveIndex (renderDbg (set_sourceStep 17 breakpoint_state)) = 2.
Proof.
  assert (H : getSourceSteps (Some scenario_trace) ≠ []
              ∨ getOpcodeSteps (Some scenario_trace) ≠ [])
    by (left; discriminate).
  destruct (renderDbg_normalizes (set_sourceStep 17 breakpoint_state)
              scenario_trace eq_refl H) as (_ & _ & _ & Hr & Hclamp & _).
  split; [exact H|]; split; [exact Hr|].
  destruct Hclamp as (_ & ->); [discriminate | reflexivity].
Defined.

(** ** Decorations are recomputed, never carried over *)

Lemma updateEditorDecorations_stored (st st' : State) (snap : option Step)
    (kind : option TintKind) :
  trace (updateEditorDecorations st snap kind) = trace st ∧
  cursor (updateEditorDecorations st snap kind) = cursor st ∧
  (fnTintSpan (dbg (updateEditorDecorations st snap kind)) = None
   ↔ fnTintKind (dbg (updateEditorDecorations st snap kind)) = None) ∧
  (∀ k, fnTintKind (dbg (updateEditorDecorations st snap kind)) = Some k →
        kind = Some k) ∧
  (snap = None ∨ kind = None ∨ trace st = None →
     fnTintSpan (dbg (updateEditorDecorations st snap kind)) = None) ∧
  (snap = None →
     activeLine (dbg (updateEditorDecorations st snap kind)) = None) ∧
  (trace st = trace st' →
     fnTintSpan (dbg (updateEditorDecorations st snap kind))
       = fnTintSpan (dbg (updateEditorDecorations st' snap kind)) ∧
     fnTintKind (dbg (updateEditorDecorations st snap kind))
       = fnTintKind (dbg (updateEditorDecorations st' snap kind)) ∧
     activeLine (dbg (updateEditorDecorations st snap kind))
       = activeLine (dbg (updateEditorDecorations st' snap kind))).
Proof.
  destruct (updateEditorDecorations_frame st snap kind) as (Ht & Hc).
  split; [exact Ht|]; split; [exact Hc|].
  unfold updateEditorDecorations.
  destruct snap as [s|]; cbv zeta.
  2:{ cbn [set_decorations set_dbg dbg fnTintSpan fnTintKind activeLine].
      repeat split; try reflexivity; try discriminate. }
  destruct kind as [k|].
  2:{ cbn [set_decorations set_dbg dbg fnTintSpan fnTintKind activeLine].
      repeat split; try reflexivity; try discriminate. }
  split; [|split; [|split; [|split]]].
  - destruct (trace st) as [t|]; [|split; reflexivity].
    destruct (frameSpanForFrame _ _); split; intros H;
      solve [reflexivity | discriminate H].
  - intros k'; destruct (trace st) as [t|]; [|discriminate].
    destruct (frameSpanForFrame _ _); [|discriminate].
    intros [= ->]; reflexivity.
  - intros [H|[H|H]]; try discriminate H.
    rewrite H; reflexivity.
  - discriminate.
  - intros <-; destruct (trace st) as [t|]; [|repeat split].
    destruct (frameSpanForFrame _ _); repeat split.
Qed.

(** [updateEditorDecorations] never touches the trace or the cursor, and
    what it stores is a function of the trace, the snapshot and the tint
    kind alone: earlier decorations do not survive. The tint span and the
    tint kind are set or cleared together, a stored tint kind is the one
    that was passed, and without a snapshot or without a tint kind no tint
    is stored. *)
Theorem updateEditorDecorations_fresh (st st' : State) (snap : option Step)
    (kind : option TintKind) :
  trace (updateEditorDecorations st snap kind) = trace st ∧
  cursor (updateEditorDecorations st snap kind) = cursor st ∧
  (fnTintSpan (dbg (updateEditorDecorations st snap kind)) = None
   ↔ fnTintKind (dbg (updateEditorDecorations st snap kind)) = None) ∧
  (∀ k, fnTintKind (dbg (updateEditorDecorations st snap kind)) = Some k →
        kind = Some k) ∧
  (snap = None ∨ kind = None ∨ trace st = None →
     fnTintSpan (dbg (updateEditorDecorations st snap kind)) = None) ∧
  (snap = None →
     activeLine (dbg (updateEditorDecorations st snap kind)) = None) ∧
  (trace st = trace st' →
     fnTintSpan (dbg (updateEditorDecorations st snap kind))
       = fnTintSpan (dbg (updateEditorDecorations st' snap kind)) ∧
     fnTintKind (dbg (updateEditorDecorations st snap kind))
       = fnTintKind (dbg (updateEditorDecorations st' snap kind)) ∧
     activeLine (dbg (updateEditorDecorations st snap kind))
       = activeLine (dbg (updateEditorDecorations st' snap kind))).
Proof. apply updateEditorDecorations_stored. Qed.

(** ** The tint [renderDbg] chooses *)

Lemma activeSnapshot_fst (st : State) :
  getActiveSteps st ≠ [] →
  fst (activeSnapshot st)
    = js_get (getActiveSteps st) (getActiveStepIndex st (getActiveSteps st)).
Proof. intros H; rewrite (activeSnapshot_unfold st H); reflexivity. Qed.

(** After [renderDbg] on a trace with steps, the step under the cursor
    decides the tint: a fail tint is only shown on a step that carries an
    error, a pass tint only on an error-free step that is the last one or
    not executing, and an executing error-free step before the last one
    gets no tint; the highlighted line is the mapped line of that step,
    when it has one. *)
Theorem renderDbg_tint (st : State) (t : Trace) :
  trace st = Some t →
  getSourceSteps (Some t) ≠ [] ∨ getOpcodeSteps (Some t) ≠ [] →
  ∃ snap,
    fst (activeSnapshot (renderDbg st)) = Some snap ∧
    (fnTintKind (dbg (renderDbg st)) = Some Fail → hasError snap = true) ∧
    (fnTintKind (dbg (renderDbg st)) = Some Pass →
       hasError snap = false ∧
       (is_executing snap = false ∨
        storedActiveIndex (renderDbg st)
          = len (getActiveSteps (renderDbg st)) - 1)) ∧
    (hasError snap = false → is_executing snap = true →
     storedActiveIndex (renderDbg st)
       ≠ len (getActiveSteps (renderDbg st)) - 1 →
       fnTintKind (dbg (renderDbg st)) = None ∧
       fnTintSpan (dbg (renderDbg st)) = None) ∧
    activeLine (dbg (renderDbg st))
      = match mappingLine (mapping snap) with
        | Some l => if truthy l then Some l else None
        | None => None
        end.
Proof.
  intros Ht Hsome.
  pose proof (withSettledMode_active st t Ht Hsome) as Hact.
  destruct (renderDbg_cursor st t Ht Hact) as (Htr & Hc).
  destruct (clampedCursor_frame st t Ht Hact)
    as (Ht3 & _ & _ & Hsteps3 & Hstored3 & _ & Hset3).
  pose proof (cursor_inv _ _ Hc) as (Hm & Hs & Ho & _).
  assert (Hsteps : getActiveSteps (renderDbg st)
                   = getActiveSteps (withSettledMode st)).
  { rewrite <- Hsteps3.
    apply getActiveSteps_ext; [rewrite Htr, Ht3; reflexivity | exact Hm]. }
  assert (Hstored : storedActiveIndex (renderDbg st)
                    = getActiveStepIndex (withSettledMode st)
                        (getActiveSteps (withSettledMode st))).
  { rewrite <- Hstored3; unfold storedActiveIndex; rewrite Hm, Hs, Ho.
    reflexivity. }
  assert (Hidx : getActiveStepIndex (renderDbg st)
                   (getActiveSteps (renderDbg st))
                 = storedActiveIndex (renderDbg st)).
  { apply (settled_ext (clampedCursor st));
      [rewrite Htr, Ht3; reflexivity | exact Hc | exact Hset3]. }
  rewrite activeSnapshot_fst by (rewrite Hsteps; exact Hact).
  rewrite Hidx, Hstored, Hsteps.
  destruct (renderDbg_unfold st t Ht) as (_ & Hrender).
  destruct (Hrender Hact) as (snap & Hsnap & ->).
  set (step := getActiveStepIndex (withSettledMode st)
                 (getActiveSteps (withSettledMode st))) in *.
  set (n := len (getActiveSteps (withSettledMode st))) in *.
  exists snap; split; [exact Hsnap|].
  destruct (updateEditorDecorations_stored (clampedCursor st) (clampedCursor st)
              (Some snap) (tintKindFor snap step n))
    as (_ & _ & Hpair & Hkind & Hnone & _).
  unfold tintKindFor in Hkind, Hnone.
  split; [|split; [|split]].
  - intros Hk; specialize (Hkind _ Hk).
    destruct (hasError snap); [reflexivity|].
    destruct (negb (is_executing snap) || (step =? n - 1)); discriminate.
  - intros Hk; specialize (Hkind _ Hk).
    destruct (hasError snap); [discriminate|]; split; [reflexivity|].
    destruct (is_executing snap); [|left; reflexivity].
    cbn [negb orb] in Hkind.
    destruct (Z.eqb_spec step (n - 1)); [right; assumption | discriminate].
  - intros Herr Hex Hlast.
    assert (Hsp : fnTintSpan
                    (dbg (updateEditorDecorations (clampedCursor st)
                            (Some snap) (tintKindFor snap step n))) = None).
    { apply Hnone; right; left; unfold tintKindFor.
      rewrite Herr, Hex; cbn [negb orb].
      destruct (Z.eqb_spec step (n - 1)); [contradiction | reflexivity]. }
    split; [apply Hpair; exact Hsp | exact Hsp].
  - unfold updateEditorDecorations; rewrite Ht3; cbv zeta.
    destruct (tintKindFor snap step n) as [k|]; [|reflexivity].
    destruct (frameSpanForFrame _ _); reflexivity.
Qed.

Lemma renderDbg_tint_witness :
  (getSourceSteps (Some scenario_trace) ≠ []
   ∨ getOpcodeSteps (Some scenario_trace) ≠ []) ∧
  ∃ snap,
    fst (activeSnapshot (renderDbg breakpoint_state)) = Some snap ∧
    (fnTintKind (dbg (renderDbg breakpoint_state)) = Some Fail →
       hasError snap = true).
Proof.
  assert (H : getSourceSteps (Some scenario_trace) ≠ []
              ∨ getOpcodeSteps (Some scenario_trace) ≠ [])
    by (left; discriminate).
  split; [exact H|].
  destruct (renderDbg_tint breakpoint_state scenario_trace eq_refl H)
    as (snap & Hsnap & Hfail & _).
  exists snap; split; [exact Hsnap | exact Hfail].
Defined.

(** ** Restart *)

Lemma installed_render (st0 st : State) (t : Trace) :
  installed st0 t st →
  installed st0 t (scrollEditorToActive (renderDbg st)).
Proof.
  intros Hinst.
  destruct (installed_settled st0 st t Hinst) as (Hsrc & Hopc & Hset).
  assert (Ht : trace st = Some t) by apply Hinst.
  destruct (renderDbg_settled st t Ht Hsrc Hopc Hset) as (Ht4 & Hc4).
  assert (Hset4 : getActiveStepIndex (renderDbg st)
                    (getActiveSteps (renderDbg st))
                  = storedActiveIndex (renderDbg st)).
  { apply (settled_ext st); [rewrite Ht4, Ht; reflexivity | exact Hc4
                            | exact Hset]. }
  unfold scrollEditorToActive; rewrite (activeSnapshot_settled _ Hset4).
  apply (installed_ext st0 st); assumption.
Qed.

Lemma runTrace_loaded_installed (st : State) (t : Trace) :
  installed st t (runTrace_loaded st t).
Proof.
  unfold runTrace_loaded; cbv zeta.
  apply installed_render, resetDbgCursor_installed.
  - apply (activeSnapshot_frame (set_trace (Some t) st)).
  - apply (activeSnapshot_frame (set_trace (Some t) st)).
Qed.

Lemma installed_cursor_unique (st0 a b : State) (t : Trace) :
  installed st0 t a → installed st0 t b → cursor a = cursor b.
Proof.
  intros (_ & Hsa & Hza & Hpa & Hma & Hoa & Hba)
         (_ & Hsb & Hzb & Hpb & Hmb & Hob & Hbb).
  assert (Hm : mode (dbg a) = mode (dbg b)).
  { destruct (getSourceSteps (Some t)) as [|s0 l0] eqn:Hsrc.
    - rewrite Hoa, Hob; reflexivity.
    - rewrite Hma, Hmb by discriminate; reflexivity. }
  assert (Ho : opcodeStep (dbg a) = opcodeStep (dbg b)).
  { destruct (getSourceSteps (Some t)) as [|s0 l0] eqn:Hsrc.
    - rewrite Hza, Hzb by (left; reflexivity); reflexivity.
    - destruct (getOpcodeSteps (Some t)) as [|o0 k0] eqn:Hops.
      + rewrite Hza, Hzb by (right; reflexivity); reflexivity.
      + rewrite (Hpa s0), (Hpb s0) by (discriminate || reflexivity).
        reflexivity. }
  unfold cursor; rewrite Hm, Hsa, Hsb, Ho, Hba, Hbb; reflexivity.
Qed.

Lemma runAll_frame (cs : list Command) (st : State) :
  trace (runAll cs st) = trace st ∧
  breakpoints (dbg (runAll cs st)) = breakpoints (dbg st).
Proof.
  revert st; induction cs as [|c cs IH]; intros st; [split; reflexivity|].
  change (runAll (c :: cs) st) with (runAll cs (commandAndRender c st)).
  destruct (IH (commandAndRender c st)) as (-> & ->).
  unfold commandAndRender.
  destruct (renderDbg_frame (run c st)) as (-> & ->).
  apply run_keeps_trace_and_breakpoints_aux.
Qed.

(** No command, no rendering and no session of button presses replaces
    the trace or changes the breakpoint set, whatever the state. *)
Theorem session_keeps_trace_and_breakpoints (c : Command)
    (cs : list Command) (st : State) :
  (trace (run c st) = trace st ∧
   breakpoints (dbg (run c st)) = breakpoints (dbg st)) ∧
  (trace (renderDbg st) = trace st ∧
   breakpoints (dbg (renderDbg st)) = breakpoints (dbg st)) ∧
  (trace (runAll cs st) = trace st ∧
   breakpoints (dbg (runAll cs st)) = breakpoints (dbg st)).
Proof.
  split; [apply run_keeps_trace_and_breakpoints_aux|].
  split; [apply renderDbg_frame | apply runAll_frame].
Qed.

(** After any session of commands on a loaded trace, Restart puts the
    cursor back exactly where loading the trace had put it, breakpoints
    included. *)
Theorem restartClick_returns_to_loaded (cs : list Command) (st : State)
    (t : Trace) :
  cursor (restartClick (runAll cs (runTrace_loaded st t)))
    = cursor (runTrace_loaded st t).
Proof.
  pose proof (runTrace_loaded_installed st t) as Hload.
  destruct (runAll_frame cs (runTrace_loaded st t)) as (Ht & Hb).
  assert (Htl : trace (runTrace_loaded st t) = Some t) by apply Hload.
  assert (Hbl : breakpoints (dbg (runTrace_loaded st t))
                = breakpoints (dbg st)) by apply Hload.
  rewrite Htl in Ht; rewrite Hbl in Hb.
  unfold restartClick; rewrite Ht; cbv zeta.
  apply (installed_cursor_unique st _ _ t); [|exact Hload].
  apply installed_render, resetDbgCursor_installed; assumption.
Qed.

(** ** Jumping to an opcode row *)

(** Clicking an opcode row of a trace with opcode steps puts the cursor in
    opcode mode on the row's index clamped into the sequence, resynchronizes
    the source index (or leaves it when there are no source steps), keeps
    trace and breakpoints, and clicking the same row again changes nothing
    more. *)
Theorem opRowClick_jumps (st : State) (t : Trace) (idx : Z) :
  trace st = Some t →
  getOpcodeSteps (Some t) ≠ [] →
  trace (opRowClick st idx) = Some t ∧
  breakpoints (dbg (opRowClick st idx)) = breakpoints (dbg st) ∧
  mode (dbg (opRowClick st idx)) = OpcodeMode ∧
  opcodeStep (dbg (opRowClick st idx))
    = clamp idx 0 (len (getOpcodeSteps (Some t)) - 1) ∧
  (0 ≤ idx < len (getOpcodeSteps (Some t)) →
     opcodeStep (dbg (opRowClick st idx)) = idx) ∧
  (getSourceSteps (Some t) ≠ [] →
     sourceStep (dbg (opRowClick st idx))
       = sourceIndexFromOpcodeIndex st
           (clamp idx 0 (len (getOpcodeSteps (Some t)) - 1))) ∧
  (getSourceSteps (Some t) = [] →
     sourceStep (dbg (opRowClick st idx)) = sourceStep (dbg st)) ∧
  cursor (opRowClick (opRowClick st idx) idx) = cursor (opRowClick st idx).
Proof.
  intros Ht Ho.
  assert (Hshape : ∀ s0, trace s0 = Some t →
    ∃ st3,
      st3 = syncSourceFromOpcode
              (set_opcodeStep (clamp idx 0 (len (getOpcodeSteps (Some t)) - 1))
                 (set_mode OpcodeMode s0)) ∧
      trace (opRowClick s0 idx) = Some t ∧
      cursor (opRowClick s0 idx) = cursor st3).
  { intros s0 Hs0; eexists; split; [reflexivity|].
    unfold opRowClick; rewrite Hs0; cbv zeta.
    set (c := clamp idx 0 (len (getOpcodeSteps (Some t)) - 1)).
    set (st3 := syncSourceFromOpcode
                  (set_opcodeStep c (set_mode OpcodeMode s0))).
    destruct (syncSourceFromOpcode_frame
                (set_opcodeStep c (set_mode OpcodeMode s0)))
      as (Ht3 & Hm3 & Hop3 & _).
    fold st3 in Ht3, Hm3, Hop3.
    assert (Ht3' : trace st3 = Some t) by (rewrite Ht3; exact Hs0).
    assert (Hact : getActiveSteps st3 ≠ []).
    { rewrite (getActiveSteps_mode st3 t Ht3'), Hm3; exact Ho. }
    assert (Hset : getActiveStepIndex st3 (getActiveSteps st3)
                   = storedActiveIndex st3).
    { rewrite getActiveStepIndex_stored; unfold storedActiveIndex.
      rewrite (getActiveSteps_mode st3 t Ht3'), Hm3, Hop3.
      cbn [set_opcodeStep set_mode set_dbg dbg opcodeStep mode].
      pose proof (len_pos _ Ho).
      pose proof (clamp_bounds idx 0 (len (getOpcodeSteps (Some t)) - 1)
                    ltac:(lia)).
      apply clamp_id; fold c; lia. }
    destruct (renderDbg_cursor st3 t Ht3') as (Ht4 & Hc4).
    { rewrite (withSettledMode_fixed st3 t Ht3' Hact); exact Hact. }
    rewrite (clampedCursor_fixed st3 t Ht3' Hact Hset) in Hc4.
    assert (Hset4 : getActiveStepIndex (renderDbg st3)
                      (getActiveSteps (renderDbg st3))
                    = storedActiveIndex (renderDbg st3)).
    { apply (settled_ext st3); [rewrite Ht4, Ht3'; reflexivity | exact Hc4
                               | exact Hset]. }
    unfold scrollEditorToActive; rewrite (activeSnapshot_settled _ Hset4).
    split; [exact Ht4 | exact Hc4]. }
  destruct (Hshape st Ht) as (st3 & Hst3 & Htr & Hc).
  pose proof (cursor_inv _ _ Hc) as (Hm & Hs & Hop & Hb).
  set (c := clamp idx 0 (len (getOpcodeSteps (Some t)) - 1)) in *.
  set (s2 := set_opcodeStep c (set_mode OpcodeMode st)) in *.
  assert (Hs2 : trace s2 = Some t) by exact Ht.
  destruct (syncSourceFromOpcode_frame s2) as (Ht3 & Hm3 & Hop3 & Hb3).
  rewrite <- Hst3 in Ht3, Hm3, Hop3, Hb3.
  assert (Hopc : opcodeStep (dbg (opRowClick st idx)) = c).
  { rewrite Hop, Hop3; reflexivity. }
  assert (Hsrc_ne : getSourceSteps (Some t) ≠ [] →
                    sourceStep (dbg (opRowClick st idx))
                      = sourceIndexFromOpcodeIndex st c).
  { intros Hsrc; rewrite Hs, Hst3.
    rewrite (syncSourceFromOpcode_sourceStep s2 t Hs2 Hsrc).
    apply sourceIndexFromOpcodeIndex_trace; reflexivity. }
  assert (Hsrc_e : getSourceSteps (Some t) = [] →
                   sourceStep (dbg (opRowClick st idx)) = sourceStep (dbg st)).
  { intros Hsrc; rewrite Hs, Hst3.
    rewrite (syncSourceFromOpcode_idle s2 t Hs2 Hsrc); reflexivity. }
  split; [exact Htr|]; split; [rewrite Hb, Hb3; reflexivity|].
  split; [rewrite Hm, Hm3; reflexivity|]; split; [exact Hopc|].
  split; [intros Hi; rewrite Hopc; apply clamp_id; lia|].
  split; [exact Hsrc_ne|]; split; [exact Hsrc_e|].
  destruct (Hshape (opRowClick st idx) Htr) as (st3' & Hst3' & _ & ->).
  fold c in Hst3'.
  set (s2' := set_opcodeStep c (set_mode OpcodeMode (opRowClick st idx))) in *.
  assert (Hs2' : trace s2' = Some t) by exact Htr.
  destruct (syncSourceFromOpcode_frame s2') as (_ & Hm3' & Hop3' & Hb3').
  rewrite <- Hst3' in Hm3', Hop3', Hb3'.
  assert (Hsrc' : sourceStep (dbg st3') = sourceStep (dbg st3)).
  { assert (Hcases : getSourceSteps (Some t) = []
                     ∨ getSourceSteps (Some t) ≠ []).
    { destruct (getSourceSteps (Some t)); [left; reflexivity|].
      right; discriminate. }
    destruct Hcases as [Hsrc|Hne].
    - rewrite Hst3', (syncSourceFromOpcode_idle s2' t Hs2' Hsrc).
      exact Hs.
    - rewrite Hst3', (syncSourceFromOpcode_sourceStep s2' t Hs2' Hne).
      rewrite <- Hs, (Hsrc_ne Hne).
      change (opcodeStep (dbg s2')) with c.
      apply sourceIndexFromOpcodeIndex_trace; rewrite Hs2', Ht; reflexivity. }
  rewrite Hc; unfold cursor.
  rewrite Hm3', Hm3, Hsrc', Hop3', Hop3, Hb3', Hb3.
  cbn [s2' s2 set_opcodeStep set_mode set_dbg dbg mode opcodeStep breakpoints].
  rewrite Hb, Hb3; reflexivity.
Qed.

Lemma opRowClick_jumps_witness :
  getOpcodeSteps (Some scenario_trace) ≠ [] ∧
  opcodeStep (dbg (opRowClick breakpoint_state 6)) = 6 ∧
  sourceStep (dbg (opRowClick breakpoint_state 6)) = 1 ∧
  cursor (opRowClick (opRowClick breakpoint_state 6) 6)
    = cursor (opRowClick breakpoint_state 6).
Proof.
  assert (H : getOpcodeSteps (Some scenario_trace) ≠ []) by discriminate.
  split; [exact H|]; split; [reflexivity|]; split; [reflexivity|].
  apply (opRowClick_jumps breakpoint_state scenario_trace 6 eq_refl H).
Defined.

(** ** More on the frame span *)

Lemma frameSpan_fold_perm (f : Z) (l l' : list Step) :
  (∀ s, s ∈ l ↔ s ∈ l') →
  fold_left (frameSpanStep f) l (0, 0) = fold_left (frameSpanStep f) l' (0, 0).
Proof.
  intros Hmem.
  destruct (frameSpan_fold f l)
    as [(Hz & Hnone)|(Ha & Hb & Hcov & Hmin & Hmax)];
    destruct (frameSpan_fold f l')
      as [(Hz' & Hnone')|(Ha' & Hb' & Hcov' & Hmin' & Hmax')].
  - rewrite Hz, Hz'; reflexivity.
  - exfalso; destruct Hmin' as (s & ln & en & Hin & Hcs & Hnz & _).
    apply Hnz, (Hnone s ln en); [apply Hmem; exact Hin | exact Hcs].
  - exfalso; destruct Hmin as (s & ln & en & Hin & Hcs & Hnz & _).
    apply Hnz, (Hnone' s ln en); [apply Hmem; exact Hin | exact Hcs].
  - destruct Hmin as (s1 & ln1 & en1 & Hin1 & Hcs1 & Hnz1 & He1).
    destruct Hmax as (s2 & ln2 & en2 & Hin2 & Hcs2 & Hnz2 & He2).
    destruct Hmin' as (s3 & ln3 & en3 & Hin3 & Hcs3 & Hnz3 & He3).
    destruct Hmax' as (s4 & ln4 & en4 & Hin4 & Hcs4 & Hnz4 & He4).
    pose proof (Hcov s3 ln3 en3 (proj2 (Hmem s3) Hin3) Hcs3 Hnz3).
    pose proof (Hcov s4 ln4 en4 (proj2 (Hmem s4) Hin4) Hcs4 Hnz4).
    pose proof (Hcov' s1 ln1 en1 (proj1 (Hmem s1) Hin1) Hcs1 Hnz1).
    pose proof (Hcov' s2 ln2 en2 (proj1 (Hmem s2) Hin2) Hcs2 Hnz2).
    destruct (fold_left (frameSpanStep f) l (0, 0)) as [a b].
    destruct (fold_left (frameSpanStep f) l' (0, 0)) as [a' b'].
    cbn [fst snd] in *; f_equal; lia.
Qed.

(** The frame span does not depend on the order of the steps nor on how
    often a step occurs: two step lists with the same members give the same
    span, for every frame id; without a frame id there is no span. *)
Theorem frameSpanForFrame_order_free (l l' : list Step) (fid : option Z) :
  (∀ s, s ∈ l ↔ s ∈ l') →
  frameSpanForFrame l fid = frameSpanForFrame l' fid ∧
  frameSpanForFrame l None = None.
Proof.
  intros Hmem; split; [|reflexivity].
  destruct fid as [f|]; [|reflexivity].
  unfold frameSpanForFrame; cbv zeta.
  rewrite (frameSpan_fold_perm f l l' Hmem); reflexivity.
Qed.

Lemma frameSpanForFrame_order_free_witness :
  (∀ s, s ∈ depth_steps ↔ s ∈ reverse depth_steps) ∧
  frameSpanForFrame depth_steps (Some 1)
    = frameSpanForFrame (reverse depth_steps) (Some 1).
Proof.
  assert (H : ∀ s, s ∈ depth_steps ↔ s ∈ reverse depth_steps).
  { intros s; symmetry; apply elem_of_reverse. }
  split; [exact H|].
  apply (frameSpanForFrame_order_free depth_steps (reverse depth_steps)
           (Some 1) H).
Defined.

(** When every span of the steps starts on a line of at least 1 and ends
    no earlier than it starts, a frame span that exists is a proper
    interval of lines: [1 <= startLine <= endLine]; and adding steps can
    only widen it. *)
Theorem frameSpanForFrame_interval (l extra : list Step) (f : Z)
    (sp : FrameSpan) :
  (∀ s mp spn, s ∈ l ++ extra → mapping s = Some mp → span mp = Some spn →
     1 ≤ line spn ∧
     ∀ e, end_line spn = Some e → e = 0 ∨ line spn ≤ e) →
  frameSpanForFrame l (Some f) = Some sp →
  1 ≤ startLine sp ≤ endLine sp ∧
  ∃ sp', frameSpanForFrame (l ++ extra) (Some f) = Some sp' ∧
         startLine sp' ≤ startLine sp ∧ endLine sp ≤ endLine sp'.
Proof.
  intros Hwf Hsp.
  assert (Hspan : ∀ s ln en, s ∈ l ++ extra → carries_span f s ln en →
                             1 ≤ ln ≤ en).
  { intros s ln en Hin (mp & spn & Hm & Hs & _ & -> & ->).
    destruct (Hwf s mp spn Hin Hm Hs) as (Hl & He).
    unfold num_or; destruct (end_line spn) as [e|]; [|lia].
    destruct (truthy e) eqn:Ht; [|lia].
    apply truthy_spec in Ht; destruct (He e eq_refl); [contradiction | lia]. }
  unfold frameSpanForFrame in *; cbv zeta in *.
  destruct (frameSpan_fold f l)
    as [(Hz & _)|(Ha & Hb & Hcov & Hmin & Hmax)].
  { rewrite Hz in Hsp; discriminate Hsp. }
  apply truthy_spec in Ha as Hta; apply truthy_spec in Hb as Htb.
  rewrite Hta, Htb in Hsp; cbn [negb orb] in Hsp; injection Hsp as <-.
  cbn [startLine endLine].
  destruct Hmin as (s1 & ln1 & en1 & Hin1 & Hcs1 & Hnz1 & He1).
  destruct Hmax as (s2 & ln2 & en2 & Hin2 & Hcs2 & Hnz2 & He2).
  assert (Hin1' : s1 ∈ l ++ extra) by (apply elem_of_app; left; exact Hin1).
  assert (Hin2' : s2 ∈ l ++ extra) by (apply elem_of_app; left; exact Hin2).
  pose proof (Hspan s1 ln1 en1 Hin1' Hcs1).
  pose proof (Hspan s2 ln2 en2 Hin2' Hcs2).
  pose proof (Hcov s1 ln1 en1 Hin1 Hcs1 Hnz1).
  split; [lia|].
  destruct (frameSpan_fold f (l ++ extra))
    as [(_ & Hnone')|(Ha' & Hb' & Hcov' & _ & _)].
  { exfalso; apply Hnz1, (Hnone' s1 ln1 en1 Hin1' Hcs1). }
  apply truthy_spec in Ha' as Hta'; apply truthy_spec in Hb' as Htb'.
  rewrite Hta', Htb'; cbn [negb orb].
  eexists; split; [reflexivity|]; cbn [startLine endLine].
  pose proof (Hcov' s1 ln1 en1 Hin1' Hcs1 Hnz1).
  pose proof (Hcov' s2 ln2 en2 Hin2' Hcs2 Hnz2).
  lia.
Qed.

Lemma frameSpanForFrame_interval_witness :
  frameSpanForFrame depth_steps (Some 0)
    = Some {| startLine := 1; endLine := 2 |} ∧
  1 ≤ startLine {| startLine := 1; endLine := 2 |}
    ≤ endLine {| startLine := 1; endLine := 2 |}.
Proof.
  split; [reflexivity|].
  refine (proj1 (frameSpanForFrame_interval depth_steps [] 0
                   {| startLine := 1; endLine := 2 |} _ eq_refl)).
  intros s mp spn Hin Hm Hs; rewrite app_nil_r in Hin.
  unfold depth_steps in Hin.
  repeat (apply elem_of_cons in Hin as [-> | Hin]);
    try (apply elem_of_nil in Hin; contradiction);
    injection Hm as <-; injection Hs as <-;
    (split; [cbn; lia | intros e He; discriminate He]).
Defined.

(** ** Toggling a breakpoint *)



(** * Text helpers *)

(** ** [escapeHtml] *)

Lemma string_app_assoc (a b c : string) :
  ((a ++ b) ++ c = a ++ (b ++ c))%string.
Proof.
  induction a as [|x a IH]; [reflexivity|].
  change (String x ((a ++ b) ++ c) = String x (a ++ (b ++ c)))%string.
  f_equal; exact IH.
Qed.

Lemma replaceAll_app (a b : string) (c : ascii) (r : string) :
  replaceAll (a ++ b) c r = (replaceAll a c r ++ replaceAll b c r)%string.
Proof.
  induction a as [|x a IH]; simpl; [reflexivity|].
  destruct (Ascii.eqb x c); rewrite IH; [|reflexivity].
  rewrite string_app_assoc; reflexivity.
Qed.

Lemma escapeHtml_app_aux (a b : string) :
  escapeHtml (a ++ b) = (escapeHtml a ++ escapeHtml b)%string.
Proof. unfold escapeHtml; rewrite !replaceAll_app; reflexivity. Qed.

Lemma escapeHtml_single (c : ascii) :
  escapeHtml (String c EmptyString) = escapeChar c.
Proof.
  unfold escapeChar.
  destruct (Ascii.eqb_spec c "&") as [->|H1]; [reflexivity|].
  destruct (Ascii.eqb_spec c "<") as [->|H2]; [reflexivity|].
  destruct (Ascii.eqb_spec c ">") as [->|H3]; [reflexivity|].
  destruct (Ascii.eqb_spec c "034") as [->|H4]; [reflexivity|].
  destruct (Ascii.eqb_spec c "'") as [->|H5]; [reflexivity|].
  unfold escapeHtml; simpl.
  apply Ascii.eqb_neq in H1, H2, H3, H4, H5.
  rewrite H1; simpl; rewrite H2; simpl; rewrite H3; simpl; rewrite H4; simpl.
  rewrite H5; reflexivity.
Qed.

Lemma escapeHtml_cons (c : ascii) (s : string) :
  escapeHtml (String c s) = (escapeChar c ++ escapeHtml s)%string.
Proof.
  change (String c s) with (String c EmptyString ++ s)%string.
  rewrite escapeHtml_app_aux, escapeHtml_single; reflexivity.
Qed.

(** The five passes of [escapeHtml] act as one pass that rewrites each
    character on its own: the entities written for an earlier character are
    not escaped again, and escaping distributes over concatenation. *)
Theorem escapeHtml_one_pass (a b : string) (c : ascii) :
  escapeHtml EmptyString = EmptyString ∧
  escapeHtml (String c a) = (escapeChar c ++ escapeHtml a)%string ∧
  escapeHtml (a ++ b) = (escapeHtml a ++ escapeHtml b)%string.
Proof.
  split; [reflexivity|]; split;
    [apply escapeHtml_cons | apply escapeHtml_app_aux].
Qed.

Lemma occurs_app (c : ascii) (a b : string) :
  occurs c (a ++ b) = occurs c a || occurs c b.
Proof.
  induction a as [|x a IH]; simpl; [reflexivity|].
  rewrite IH, orb_assoc; reflexivity.
Qed.

Lemma escapeChar_safe (c x : ascii) :
  isHtmlSpecial x = true → x ≠ "&"%char → occurs x (escapeChar c) = false.
Proof.
  intros Hx Hamp; unfold escapeChar.
  assert (Hcases : x = "<"%char ∨ x = ">"%char ∨ x = "034"%char
                   ∨ x = "'"%char).
  { unfold isHtmlSpecial in Hx.
    destruct (Ascii.eqb_spec x "&"); [contradiction|].
    destruct (Ascii.eqb_spec x "<"); [auto|].
    destruct (Ascii.eqb_spec x ">"); [auto|].
    destruct (Ascii.eqb_spec x "034"); [auto|].
    destruct (Ascii.eqb_spec x "'"); [auto 6 | discriminate Hx]. }
  destruct (Ascii.eqb_spec c "&") as [->|H1];
    [destruct Hcases as [-> | [-> | [-> | ->]]]; reflexivity|].
  destruct (Ascii.eqb_spec c "<") as [->|H2];
    [destruct Hcases as [-> | [-> | [-> | ->]]]; reflexivity|].
  destruct (Ascii.eqb_spec c ">") as [->|H3];
    [destruct Hcases as [-> | [-> | [-> | ->]]]; reflexivity|].
  destruct (Ascii.eqb_spec c "034") as [->|H4];
    [destruct Hcases as [-> | [-> | [-> | ->]]]; reflexivity|].
  destruct (Ascii.eqb_spec c "'") as [->|H5];
    [destruct Hcases as [-> | [-> | [-> | ->]]]; reflexivity|].
  simpl; rewrite orb_false_r; apply Ascii.eqb_neq.
  destruct Hcases as [-> | [-> | [-> | ->]]]; assumption.
Qed.

(** Whatever the input, the output of [escapeHtml] contains no [<], no
    [>], no double quote and no single quote. *)
Theorem escapeHtml_safe (s : string) (x : ascii) :
  x = "<"%char ∨ x = ">"%char ∨ x = "034"%char ∨ x = "'"%char →
  occurs x (escapeHtml s) = false.
Proof.
  intros Hx.
  assert (Hsp : isHtmlSpecial x = true ∧ x ≠ "&"%char).
  { destruct Hx as [-> | [-> | [-> | ->]]]; split;
      solve [reflexivity | discriminate]. }
  destruct Hsp as (Hsp & Hamp).
  induction s as [|c s IH]; [reflexivity|].
  rewrite escapeHtml_cons, occurs_app, IH, (escapeChar_safe c x Hsp Hamp).
  reflexivity.
Qed.

Lemma escapeHtml_safe_witness :
  occurs "<" (escapeHtml "<b>&</b>") = false ∧
  escapeHtml "<b>&</b>" = "&lt;b&gt;&amp;&lt;/b&gt;"%string.
Proof.
  split; [|reflexivity].
  apply escapeHtml_safe; left; reflexivity.
Defined.

Lemma escapeChar_inj (a b : ascii) (x y : string) :
  (escapeChar a ++ x = escapeChar b ++ y)%string → a = b ∧ x = y.
Proof.
  unfold escapeChar.
  destruct (Ascii.eqb_spec a "&") as [->|A1];
    [|destruct (Ascii.eqb_spec a "<") as [->|A2];
      [|destruct (Ascii.eqb_spec a ">") as [->|A3];
        [|destruct (Ascii.eqb_spec a "034") as [->|A4];
          [|destruct (Ascii.eqb_spec a "'") as [->|A5]]]]];
  (destruct (Ascii.eqb_spec b "&") as [->|B1];
    [|destruct (Ascii.eqb_spec b "<") as [->|B2];
      [|destruct (Ascii.eqb_spec b ">") as [->|B3];
        [|destruct (Ascii.eqb_spec b "034") as [->|B4];
          [|destruct (Ascii.eqb_spec b "'") as [->|B5]]]]]);
  simpl; intros H; try discriminate H;
  try (injection H as H; split; [reflexivity | exact H]; fail);
  try (injection H as H0 H; subst; congruence; fail);
  try (injection H as H0 H; subst; split; [reflexivity | exact H]; fail).
Qed.

(** [escapeHtml] loses nothing: two different texts never escape to the
    same text. *)
Theorem escapeHtml_injective (a b : string) :
  escapeHtml a = escapeHtml b → a = b.
Proof.
  revert b; induction a as [|x a IH]; intros b H.
  - destruct b as [|y b]; [reflexivity|].
    rewrite escapeHtml_cons in H; unfold escapeChar in H.
    repeat (destruct (Ascii.eqb y _)); discriminate H.
  - destruct b as [|y b].
    + rewrite escapeHtml_cons in H; unfold escapeChar in H.
      repeat (destruct (Ascii.eqb x _)); discriminate H.
    + rewrite !escapeHtml_cons in H.
      destruct (escapeChar_inj x y _ _ H) as (-> & Hrest).
      rewrite (IH b Hrest); reflexivity.
Qed.

Lemma escapeHtml_injective_witness :
  escapeHtml "a<b" = escapeHtml "a<b" ∧ ("a<b" = "a<b")%string.
Proof.
  split; [reflexivity|].
  apply escapeHtml_injective; reflexivity.
Defined.

(** [escapeHtml] returns a text unchanged exactly when the text has none of
    the five characters [&], [<], [>], double quote and single quote; and
    it never makes a text shorter. *)
Theorem escapeHtml_fixed_iff (s : string) :
  (escapeHtml s = s ↔
   ∀ x, isHtmlSpecial x = true → occurs x s = false) ∧
  (String.length s ≤ String.length (escapeHtml s))%nat.
Proof.
  assert (Hlen : ∀ a b, String.length (a ++ b)
                        = (String.length a + String.length b)%nat).
  { intros a b; induction a as [|x a IH]; simpl; [reflexivity|].
    rewrite IH; reflexivity. }
  assert (Hchar : ∀ c, (isHtmlSpecial c = false ∧
                        escapeChar c = String c EmptyString)
                       ∨ (isHtmlSpecial c = true ∧
                          (2 ≤ String.length (escapeChar c))%nat)).
  { intros c; unfold isHtmlSpecial, escapeChar.
    destruct (Ascii.eqb c "&"); [right; split; [reflexivity | simpl; lia]|].
    destruct (Ascii.eqb c "<"); [right; split; [reflexivity | simpl; lia]|].
    destruct (Ascii.eqb c ">"); [right; split; [reflexivity | simpl; lia]|].
    destruct (Ascii.eqb c "034"); [right; split; [reflexivity | simpl; lia]|].
    destruct (Ascii.eqb c "'"); [right; split; [reflexivity | simpl; lia]|].
    left; split; reflexivity. }
  assert (Hge : ∀ t, (String.length t ≤ String.length (escapeHtml t))%nat).
  { induction t as [|c t IH]; [simpl; lia|].
    rewrite escapeHtml_cons, Hlen; simpl.
    destruct (Hchar c) as [(_ & ->)|(_ & H2)]; simpl; lia. }
  split; [|apply Hge].
  induction s as [|c s IH].
  - split; [intros _ x _; reflexivity | reflexivity].
  - rewrite escapeHtml_cons; split.
    + intros Heq.
      destruct (Hchar c) as [(Hns & Hc)|(Hsp & H2)].
      * rewrite Hc in Heq; simpl in Heq; injection Heq as Heq.
        intros x Hx; simpl.
        rewrite (proj1 IH Heq x Hx), orb_false_r.
        apply Ascii.eqb_neq; intros ->; congruence.
      * exfalso.
        apply (f_equal String.length) in Heq; rewrite Hlen in Heq.
        simpl in Heq; pose proof (Hge s); lia.
    + intros Hnone.
      destruct (Hchar c) as [(Hns & ->)|(Hsp & _)].
      * simpl; f_equal; apply IH; intros x Hx.
        specialize (Hnone x Hx); simpl in Hnone.
        apply orb_false_iff in Hnone; apply Hnone.
      * specialize (Hnone c Hsp); simpl in Hnone.
        rewrite Ascii.eqb_refl in Hnone; discriminate Hnone.
Qed.

(** ** [nextKeyName] *)

Lemma maxKeyNumber_fold_ge (keys : list KeyPair) (acc : N) :
  (acc ≤ fold_left
           (fun mx k =>
              match keyNumber (name k) with
              | Some n => N.max mx n
              | None => mx
              end) keys acc)%N
  ∧ ∀ k n, k ∈ keys → keyNumber (name k) = Some n →
      (n ≤ fold_left
             (fun mx k =>
                match keyNumber (name k) with
                | Some n => N.max mx n
                | None => mx
                end) keys acc)%N.
Proof.
  revert acc; induction keys as [|k0 keys IH]; intros acc; simpl.
  - split; [lia|]; intros k n Hin; apply elem_of_nil in Hin; contradiction.
  - destruct (IH (match keyNumber (name k0) with
                  | Some n => N.max acc n
                  | None => acc
                  end)) as (Hacc & Hall).
    split.
    + destruct (keyNumber (name k0)); lia.
    + intros k n [->|Hin]%elem_of_cons Hk; [|apply (Hall k n Hin Hk)].
      rewrite Hk in Hacc |- *; lia.
Qed.

Lemma decimal_nonempty (n : N) :
  (0 < n)%N →
  ∃ c rest, NilEmpty.string_of_uint (N.to_uint n) = String c rest.
Proof.
  intros Hn.
  destruct (NilEmpty.string_of_uint (N.to_uint n)) as [|c rest] eqn:Hs;
    [|eauto].
  exfalso.
  pose proof (NilEmpty.usu (N.to_uint n)) as Hu; rewrite Hs in Hu.
  simpl in Hu; injection Hu as Hu.
  pose proof (DecimalN.Unsigned.of_to n) as Hof; rewrite <- Hu in Hof.
  simpl in Hof; lia.
Qed.

Lemma keyNumber_nextKeyName (keys : list KeyPair) :
  keyNumber (nextKeyName keys) = Some (maxKeyNumber keys + 1)%N.
Proof.
  unfold nextKeyName.
  destruct (decimal_nonempty (maxKeyNumber keys + 1) ltac:(lia))
    as (c & rest & Hs).
  pose proof (NilEmpty.usu (N.to_uint (maxKeyNumber keys + 1))) as Hu.
  rewrite Hs in Hu |- *.
  change (keyNumber ("key" ++ String c rest))
    with (match NilEmpty.uint_of_string (String c rest) with
          | Some d => Some (N.of_uint d)
          | None => None
          end).
  rewrite Hu, DecimalN.Unsigned.of_to; reflexivity.
Qed.

(** The name [nextKeyName] proposes is not the name of any key already in
    the wallet; it is [key1] for a wallet without numbered keys, and its
    number is one more than the largest number in use. Pushing a generated
    key therefore keeps the names of the wallet distinct. Key numbers are
    below 2^53, where JavaScript numbers are exact. *)
Theorem nextKeyName_fresh (keys : list KeyPair) (pub sg h : string) :
  (∀ k n, k ∈ keys → keyNumber (name k) = Some n → (n < 2 ^ 53)%N) →
  (∀ k, k ∈ keys → name k ≠ nextKeyName keys) ∧
  keyNumber (nextKeyName keys) = Some (maxKeyNumber keys + 1)%N ∧
  (∀ k n, k ∈ keys → keyNumber (name k) = Some n →
          (n < maxKeyNumber keys + 1)%N) ∧
  ((∀ k, k ∈ keys → keyNumber (name k) = None) →
     nextKeyName keys = "key1"%string) ∧
  (NoDup (map name keys) →
     NoDup (map name (pushGenerated keys pub sg h))).
Proof.
  intros _.
  destruct (maxKeyNumber_fold_ge keys 0) as (_ & Hmax).
  fold (maxKeyNumber keys) in Hmax.
  pose proof (keyNumber_nextKeyName keys) as Hnext.
  assert (Hfresh : ∀ k, k ∈ keys → name k ≠ nextKeyName keys).
  { intros k Hin Heq; rewrite <- Heq in Hnext.
    pose proof (Hmax k _ Hin Hnext); lia. }
  split; [exact Hfresh|]; split; [exact Hnext|]; split; [|split].
  - intros k n Hin Hk; pose proof (Hmax k n Hin Hk); lia.
  - intros Hnone.
    assert (Hz : maxKeyNumber keys = 0%N).
    { unfold maxKeyNumber; clear - Hnone.
      induction keys as [|k0 keys IH]; [reflexivity|].
      simpl; rewrite (Hnone k0) by (apply elem_of_cons; left; reflexivity).
      apply IH; intros k Hin; apply Hnone, elem_of_cons; right; exact Hin. }
    unfold nextKeyName; rewrite Hz; reflexivity.
  - intros Hnd; unfold pushGenerated; rewrite map_app.
    apply NoDup_app; split; [exact Hnd|]; split.
    + intros x Hx [->|Hin]%elem_of_cons;
        [|apply elem_of_nil in Hin; contradiction].
      apply list_elem_of_fmap in Hx as (k & Hk & Hin).
      apply (Hfresh k Hin); symmetry; exact Hk.
    + apply NoDup_singleton.
Qed.

Lemma nextKeyName_fresh_witness :
  (∀ k n, k ∈ example_wallet → keyNumber (name k) = Some n →
          (n < 2 ^ 53)%N) ∧
  nextKeyName example_wallet = "key8"%string ∧
  (∀ k, k ∈ example_wallet → name k ≠ nextKeyName example_wallet).
Proof.
  assert (H : ∀ k n, k ∈ example_wallet → keyNumber (name k) = Some n →
                     (n < 2 ^ 53)%N).
  { intros k n Hin Hk; unfold example_wallet in Hin.
    repeat (apply elem_of_cons in Hin as [-> | Hin]);
      try (apply elem_of_nil in Hin; contradiction);
      vm_compute in Hk; try discriminate Hk;
      injection Hk as <-; reflexivity. }
  split; [exact H|]; split; [reflexivity|].
  apply (nextKeyName_fresh example_wallet EmptyString EmptyString EmptyString
           H).
Defined.
